(** * Analytical solution of the GT pulley tooth profile

    A model of the notebook [pulley_eqns.ipynb].  The notebook builds, with
    sympy, an ordered list [final_sol] of pairs (symbol, expression) and
    evaluates it entry by entry, substituting the parameters and the values
    already computed.  The expressions are modelled as a datatype, the
    notebook's list manipulations as functions over it, and the numeric
    evaluation [sp.N (e.subs ...)] as an evaluator into the reals. *)

From Stdlib Require Import Reals Lra Lia List ZArith QArith Qreals Qround Psatz.
Import ListNotations.

(** ** Symbols

    The variables (cell 2), the parameters (cell 3), the substitution
    symbol [L] (cell 4) and the temporaries [CDR], [TANG] (cell 12). *)

Inductive symbol : Set :=
  | AX | AY | BX | BY | ABX | ABY | BCX | BCY | RBXY
  | CX | CY | CDX | CDY | DX | DY
  | EX | EY | FX | FY | EFX | EFY | GX | GY | FGX | FGY
  | RAB | RBC | RCD | b | h | PLD | t | PD | P
  | L | CDR | TANG.

Definition symbol_eq_dec (x y : symbol) : {x = y} + {x <> y}.
Proof. decide equality. Defined.

(** Association lists, as built by [zip] and consumed by [subs]: the first
    binding of a symbol wins. *)

Fixpoint lookup {T : Type} (s : symbol) (l : list (symbol * T)) : option T :=
  match l with
  | [] => None
  | (s', v) :: l' => if symbol_eq_dec s s' then Some v else lookup s l'
  end.

(** ** Expressions

    The fragment of sympy used by the notebook.  Nothing is simplified when
    an expression is built. *)

Module sp.

Inductive expr : Type :=
  | Symbol (s : symbol)
  | Integer (z : Z)
  | Float (r : R)
  | pi
  | Add (x y : expr)
  | Sub (x y : expr)
  | Mul (x y : expr)
  | Div (x y : expr)
  | Neg (x : expr)
  | Pow (x : expr) (n : nat)
  | sqrt (x : expr)
  | sin (x : expr)
  | cos (x : expr)
  | asin (x : expr).

(** Evaluation within the reals of an expression whose symbols are bound by
    [env] to values already evaluated: [sp.N (e.subs env)].  The result is
    [None] as soon as a sub-expression is not a finite real: a symbol that is
    unbound or bound to such a value, a division by zero (sympy: [zoo] or
    [nan]), the square root of a negative number or the arcsine of a number
    outside [-1, 1] (sympy: a complex number).  No exception is raised.

    Two idealisations.  The arithmetic is that of the real numbers, where
    sympy works on floating-point numbers of 53 bits: a value here is the
    exact value of the expression, from which the recorded one differs by
    the rounding errors of its evaluation.  And a product has no value when
    one factor has none, where sympy takes a product with a factor [0] for
    [0] whatever the other factor: the two agree unless a factor vanishes
    next to one that is not a real. *)

Fixpoint N (env : list (symbol * option R)) (e : expr) : option R :=
  match e with
  | Symbol s => match lookup s env with Some v => v | None => None end
  | Integer z => Some (IZR z)
  | Float r => Some r
  | pi => Some PI
  | Add x y =>
      match N env x, N env y with
      | Some u, Some v => Some (u + v)%R | _, _ => None end
  | Sub x y =>
      match N env x, N env y with
      | Some u, Some v => Some (u - v)%R | _, _ => None end
  | Mul x y =>
      match N env x, N env y with
      | Some u, Some v => Some (u * v)%R | _, _ => None end
  | Div x y =>
      match N env x, N env y with
      | Some u, Some v =>
          if Req_dec_T v 0 then None else Some (u / v)%R
      | _, _ => None end
  | Neg x => match N env x with Some u => Some (- u)%R | None => None end
  | Pow x n => match N env x with Some u => Some (u ^ n)%R | None => None end
  | sqrt x =>
      match N env x with
      | Some u => if Rle_dec 0 u then Some (R_sqrt.sqrt u) else None
      | None => None end
  | sin x =>
      match N env x with Some u => Some (Rtrigo_def.sin u) | None => None end
  | cos x =>
      match N env x with Some u => Some (Rtrigo_def.cos u) | None => None end
  | asin x =>
      match N env x with
      | Some u =>
          if Rle_dec (-1) u then
            if Rle_dec u 1 then Some (Ratan.asin u) else None
          else None
      | None => None end
  end.

(** The real number an expression denotes under a valuation of its symbols,
    with the total operations of the real numbers. *)

Fixpoint denote (rho : symbol -> R) (e : expr) : R :=
  match e with
  | Symbol s => rho s
  | Integer z => IZR z
  | Float r => r
  | pi => PI
  | Add x y => denote rho x + denote rho y
  | Sub x y => denote rho x - denote rho y
  | Mul x y => denote rho x * denote rho y
  | Div x y => denote rho x / denote rho y
  | Neg x => - denote rho x
  | Pow x n => denote rho x ^ n
  | sqrt x => R_sqrt.sqrt (denote rho x)
  | sin x => Rtrigo_def.sin (denote rho x)
  | cos x => Rtrigo_def.cos (denote rho x)
  | asin x => Ratan.asin (denote rho x)
  end%R.

(** The side conditions under which every operation of an expression stays
    within the finite reals. *)

Fixpoint defined (rho : symbol -> R) (e : expr) : Prop :=
  match e with
  | Symbol _ | Integer _ | Float _ | pi => True
  | Add x y | Sub x y | Mul x y => defined rho x /\ defined rho y
  | Div x y => defined rho x /\ defined rho y /\ denote rho y <> 0%R
  | Neg x | Pow x _ | sin x | cos x => defined rho x
  | sqrt x => defined rho x /\ (0 <= denote rho x)%R
  | asin x => defined rho x /\ (-1 <= denote rho x <= 1)%R
  end.

(** The symbols an expression mentions. *)

Fixpoint free_symbols (e : expr) : list symbol :=
  match e with
  | Symbol s => [s]
  | Integer _ | Float _ | pi => []
  | Add x y | Sub x y | Mul x y | Div x y => free_symbols x ++ free_symbols y
  | Neg x | Pow x _ | sqrt x | sin x | cos x | asin x => free_symbols x
  end.

End sp.

Coercion sp.Symbol : symbol >-> sp.expr.

Declare Scope expr_scope.
Delimit Scope expr_scope with E.
Bind Scope expr_scope with sp.expr.

Definition expr_of_Z (z : Z) : sp.expr := sp.Integer z.
Definition Z_of_expr (e : sp.expr) : option Z :=
  match e with sp.Integer z => Some z | _ => None end.
Number Notation sp.expr expr_of_Z Z_of_expr : expr_scope.

Infix "+" := sp.Add : expr_scope.
Infix "-" := sp.Sub : expr_scope.
Infix "*" := sp.Mul : expr_scope.
Infix "/" := sp.Div : expr_scope.
Notation "- x" := (sp.Neg x) : expr_scope.
Notation "x ^ n" := (sp.Pow x n%nat) : expr_scope.

(** The valuation read off an environment; unbound symbols and symbols bound
    to no real read as [0], which the evaluator never relies on. *)

Definition valuation (env : list (symbol * option R)) (s : symbol) : R :=
  match lookup s env with
  | Some (Some r) => r
  | _ => 0%R
  end.

(** ** The notebook *)

(** Cell 3: the parameters and the values of the reference evaluation (a
    GT-2 pulley with 10 teeth).  [PD] is a parameter of its own here; the
    second variant of the notebook derives it (see [PD_sub] below). *)

Definition params : list symbol := [RAB; RBC; RCD; b; h; PLD; t; PD; P].

Definition vals : list Q :=
  [0.555; 1; 0.15; 0.4; 0.75; 0.254; 10; 6.36619772368; 2]%Q.

Definition param_associations : list (symbol * R) :=
  combine params (map Q2R vals).

(** Cell 4: the substitution for [L]; the variant of the notebook that
    derives the pitch diameter from the pitch and the number of teeth also
    has [PD_sub]. *)


Definition PD_sub : sp.expr := (P * t / sp.pi)%E.

(** Cell 5: equation set 1; each expression is to vanish. *)


(** Cell 8: equation set 2. *)

Definition equations_2 : list sp.expr :=
  [ (CDX - BCX)^2 + (CDY - BCY)^2 - (RBC+RCD)^2;
    CDX^2 + CDY^2 - (PD/2 - PLD - RCD)^2 ]%E.

(** Cells 6 and 7: [res_1_sol = res_1[1]], the hand-picked solution of
    equation set 1 with [L] substituted back, as the notebook records it. *)

Definition res_1_sol : list (symbol * sp.expr) :=
  [ (AX,
      (-2*RAB^2*(PD/2 - PLD + RAB - h)*sp.sin (b/PD)^2 + RAB^2*(PD/2 - PLD +
      RAB - h) + RAB^2*sp.sqrt (RAB^2 - 2*RAB*RBC + RBC^2 + 4*(PD/2 - PLD +
      RAB - h)^2*sp.sin (b/PD)^4 - 4*(PD/2 - PLD + RAB - h)^2*sp.sin
      (b/PD)^2) - 2*RAB*RBC*(PD/2 - PLD + RAB - h)*sp.sin (b/PD)^2 +
      RAB*RBC*(PD/2 - PLD + RAB - h) + RAB*RBC*sp.sqrt (RAB^2 - 2*RAB*RBC +
      RBC^2 + 4*(PD/2 - PLD + RAB - h)^2*sp.sin (b/PD)^4 - 4*(PD/2 - PLD +
      RAB - h)^2*sp.sin (b/PD)^2) + 256*(PD/2 - PLD + RAB - h)^3*sp.sin
      (b/PD)^18 - 1152*(PD/2 - PLD + RAB - h)^3*sp.sin (b/PD)^16 +
      2112*(PD/2 - PLD + RAB - h)^3*sp.sin (b/PD)^14 + 256*(PD/2 - PLD + RAB
      - h)^3*sp.sin (b/PD)^12*sp.cos (b/PD)^6 - 2016*(PD/2 - PLD + RAB -
      h)^3*sp.sin (b/PD)^12 - 384*(PD/2 - PLD + RAB - h)^3*sp.sin
      (b/PD)^10*sp.cos (b/PD)^6 + 1056*(PD/2 - PLD + RAB - h)^3*sp.sin
      (b/PD)^10 + 192*(PD/2 - PLD + RAB - h)^3*sp.sin (b/PD)^8*sp.cos
      (b/PD)^6 - 288*(PD/2 - PLD + RAB - h)^3*sp.sin (b/PD)^8 - 32*(PD/2 -
      PLD + RAB - h)^3*sp.sin (b/PD)^6*sp.cos (b/PD)^6 + 32*(PD/2 - PLD +
      RAB - h)^3*sp.sin (b/PD)^6)*sp.sin (2*b/PD)/(RAB^2 - RBC^2));
    (AY,
      (4*RAB^2*(PD/2 - PLD + RAB - h)*sp.sin (b/PD)^4 - 4*RAB^2*(PD/2 - PLD
      + RAB - h)*sp.sin (b/PD)^2 + RAB^2*(PD/2 - PLD + RAB - h) -
      2*RAB^2*sp.sqrt (RAB^2 - 2*RAB*RBC + RBC^2 + 4*(PD/2 - PLD + RAB -
      h)^2*sp.sin (b/PD)^4 - 4*(PD/2 - PLD + RAB - h)^2*sp.sin
      (b/PD)^2)*sp.sin (b/PD)^2 + RAB^2*sp.sqrt (RAB^2 - 2*RAB*RBC + RBC^2 +
      4*(PD/2 - PLD + RAB - h)^2*sp.sin (b/PD)^4 - 4*(PD/2 - PLD + RAB -
      h)^2*sp.sin (b/PD)^2) + 4*RAB*RBC*(PD/2 - PLD + RAB - h)*sp.sin
      (b/PD)^4 - 4*RAB*RBC*(PD/2 - PLD + RAB - h)*sp.sin (b/PD)^2 -
      2*RAB*RBC*sp.sqrt (RAB^2 - 2*RAB*RBC + RBC^2 + 4*(PD/2 - PLD + RAB -
      h)^2*sp.sin (b/PD)^4 - 4*(PD/2 - PLD + RAB - h)^2*sp.sin
      (b/PD)^2)*sp.sin (b/PD)^2 + RAB*RBC*sp.sqrt (RAB^2 - 2*RAB*RBC + RBC^2
      + 4*(PD/2 - PLD + RAB - h)^2*sp.sin (b/PD)^4 - 4*(PD/2 - PLD + RAB -
      h)^2*sp.sin (b/PD)^2) - RBC^2*(PD/2 - PLD + RAB - h) - 512*(PD/2 - PLD
      + RAB - h)^3*sp.sin (b/PD)^20 + 2560*(PD/2 - PLD + RAB - h)^3*sp.sin
      (b/PD)^18 - 5248*(PD/2 - PLD + RAB - h)^3*sp.sin (b/PD)^16 - 512*(PD/2
      - PLD + RAB - h)^3*sp.sin (b/PD)^14*sp.cos (b/PD)^6 + 5632*(PD/2 - PLD
      + RAB - h)^3*sp.sin (b/PD)^14 + 1024*(PD/2 - PLD + RAB - h)^3*sp.sin
      (b/PD)^12*sp.cos (b/PD)^6 - 3328*(PD/2 - PLD + RAB - h)^3*sp.sin
      (b/PD)^12 - 640*(PD/2 - PLD + RAB - h)^3*sp.sin (b/PD)^10*sp.cos
      (b/PD)^6 + 1024*(PD/2 - PLD + RAB - h)^3*sp.sin (b/PD)^10 + 128*(PD/2
      - PLD + RAB - h)^3*sp.sin (b/PD)^8*sp.cos (b/PD)^6 - 128*(PD/2 - PLD +
      RAB - h)^3*sp.sin (b/PD)^8)/(RAB^2 - RBC^2));
    (BX,
      (2*RAB^2*(PD/2 - PLD + RAB - h)*sp.sin (b/PD)^2 - RAB^2*(PD/2 - PLD +
      RAB - h) - RAB^2*sp.sqrt (RAB^2 - 2*RAB*RBC + RBC^2 + 4*(PD/2 - PLD +
      RAB - h)^2*sp.sin (b/PD)^4 - 4*(PD/2 - PLD + RAB - h)^2*sp.sin
      (b/PD)^2) + 2*RAB*RBC*(PD/2 - PLD + RAB - h)*sp.sin (b/PD)^2 -
      RAB*RBC*(PD/2 - PLD + RAB - h) - RAB*RBC*sp.sqrt (RAB^2 - 2*RAB*RBC +
      RBC^2 + 4*(PD/2 - PLD + RAB - h)^2*sp.sin (b/PD)^4 - 4*(PD/2 - PLD +
      RAB - h)^2*sp.sin (b/PD)^2) - 256*(PD/2 - PLD + RAB - h)^3*sp.sin
      (b/PD)^18 + 1152*(PD/2 - PLD + RAB - h)^3*sp.sin (b/PD)^16 -
      2112*(PD/2 - PLD + RAB - h)^3*sp.sin (b/PD)^14 - 256*(PD/2 - PLD + RAB
      - h)^3*sp.sin (b/PD)^12*sp.cos (b/PD)^6 + 2016*(PD/2 - PLD + RAB -
      h)^3*sp.sin (b/PD)^12 + 384*(PD/2 - PLD + RAB - h)^3*sp.sin
      (b/PD)^10*sp.cos (b/PD)^6 - 1056*(PD/2 - PLD + RAB - h)^3*sp.sin
      (b/PD)^10 - 192*(PD/2 - PLD + RAB - h)^3*sp.sin (b/PD)^8*sp.cos
      (b/PD)^6 + 288*(PD/2 - PLD + RAB - h)^3*sp.sin (b/PD)^8 + 32*(PD/2 -
      PLD + RAB - h)^3*sp.sin (b/PD)^6*sp.cos (b/PD)^6 - 32*(PD/2 - PLD +
      RAB - h)^3*sp.sin (b/PD)^6)*sp.sin (2*b/PD)/(RAB^2 - RBC^2));
    (BY,
      (4*RAB^2*(PD/2 - PLD + RAB - h)*sp.sin (b/PD)^4 - 4*RAB^2*(PD/2 - PLD
      + RAB - h)*sp.sin (b/PD)^2 + RAB^2*(PD/2 - PLD + RAB - h) -
      2*RAB^2*sp.sqrt (RAB^2 - 2*RAB*RBC + RBC^2 + 4*(PD/2 - PLD + RAB -
      h)^2*sp.sin (b/PD)^4 - 4*(PD/2 - PLD + RAB - h)^2*sp.sin
      (b/PD)^2)*sp.sin (b/PD)^2 + RAB^2*sp.sqrt (RAB^2 - 2*RAB*RBC + RBC^2 +
      4*(PD/2 - PLD + RAB - h)^2*sp.sin (b/PD)^4 - 4*(PD/2 - PLD + RAB -
      h)^2*sp.sin (b/PD)^2) + 4*RAB*RBC*(PD/2 - PLD + RAB - h)*sp.sin
      (b/PD)^4 - 4*RAB*RBC*(PD/2 - PLD + RAB - h)*sp.sin (b/PD)^2 -
      2*RAB*RBC*sp.sqrt (RAB^2 - 2*RAB*RBC + RBC^2 + 4*(PD/2 - PLD + RAB -
      h)^2*sp.sin (b/PD)^4 - 4*(PD/2 - PLD + RAB - h)^2*sp.sin
      (b/PD)^2)*sp.sin (b/PD)^2 + RAB*RBC*sp.sqrt (RAB^2 - 2*RAB*RBC + RBC^2
      + 4*(PD/2 - PLD + RAB - h)^2*sp.sin (b/PD)^4 - 4*(PD/2 - PLD + RAB -
      h)^2*sp.sin (b/PD)^2) - RBC^2*(PD/2 - PLD + RAB - h) - 512*(PD/2 - PLD
      + RAB - h)^3*sp.sin (b/PD)^20 + 2560*(PD/2 - PLD + RAB - h)^3*sp.sin
      (b/PD)^18 - 5248*(PD/2 - PLD + RAB - h)^3*sp.sin (b/PD)^16 - 512*(PD/2
      - PLD + RAB - h)^3*sp.sin (b/PD)^14*sp.cos (b/PD)^6 + 5632*(PD/2 - PLD
      + RAB - h)^3*sp.sin (b/PD)^14 + 1024*(PD/2 - PLD + RAB - h)^3*sp.sin
      (b/PD)^12*sp.cos (b/PD)^6 - 3328*(PD/2 - PLD + RAB - h)^3*sp.sin
      (b/PD)^12 - 640*(PD/2 - PLD + RAB - h)^3*sp.sin (b/PD)^10*sp.cos
      (b/PD)^6 + 1024*(PD/2 - PLD + RAB - h)^3*sp.sin (b/PD)^10 + 128*(PD/2
      - PLD + RAB - h)^3*sp.sin (b/PD)^8*sp.cos (b/PD)^6 - 128*(PD/2 - PLD +
      RAB - h)^3*sp.sin (b/PD)^8)/(RAB^2 - RBC^2));
    (ABX,
      0);
    (ABY,
      PD/2 - PLD + RAB - h);
    (BCX,
      (-PD/2 + PLD - RAB + h + 2*(PD/2 - PLD + RAB - h)*sp.sin (b/PD)^2 -
      sp.sqrt (RAB^2 - 2*RAB*RBC + RBC^2 + 4*(PD/2 - PLD + RAB - h)^2*sp.sin
      (b/PD)^4 - 4*(PD/2 - PLD + RAB - h)^2*sp.sin (b/PD)^2))*sp.sin
      (2*b/PD));
    (BCY,
      (PD/2 - PLD + RAB - h - 2*(PD/2 - PLD + RAB - h)*sp.sin (b/PD)^2 +
      sp.sqrt (RAB^2 - 2*RAB*RBC + RBC^2 + 4*(PD/2 - PLD + RAB - h)^2*sp.sin
      (b/PD)^4 - 4*(PD/2 - PLD + RAB - h)^2*sp.sin (b/PD)^2))*sp.cos
      (2*b/PD));
    (RBXY,
      PD/2 - PLD + RAB - h - 2*(PD/2 - PLD + RAB - h)*sp.sin (b/PD)^2 +
      sp.sqrt (RAB^2 - 2*RAB*RBC + RBC^2 + 4*(PD/2 - PLD + RAB - h)^2*sp.sin
      (b/PD)^4 - 4*(PD/2 - PLD + RAB - h)^2*sp.sin (b/PD)^2)) ]%E.

(** Cells 9 and 10: [res_2_sol = res_2[0]], the hand-picked solution of
    equation set 2, as the notebook records it. *)

Definition res_2_sol : list (symbol * sp.expr) :=
  [ (CDX,
      (4*BCX^2 + 4*BCY^2 - 8*BCY*(-BCX*sp.sqrt (-(4*BCX^2 + 4*BCY^2 - PD^2 +
      4*PD*PLD - 4*PD*RBC - 4*PLD^2 + 8*PLD*RBC - 4*RBC^2)*(4*BCX^2 +
      4*BCY^2 - PD^2 + 4*PD*PLD + 4*PD*RBC + 8*PD*RCD - 4*PLD^2 - 8*PLD*RBC
      - 16*PLD*RCD - 4*RBC^2 - 16*RBC*RCD - 16*RCD^2))/(8*(BCX^2 + BCY^2)) +
      BCY*(4*BCX^2 + 4*BCY^2 + PD^2 - 4*PD*PLD - 4*PD*RCD + 4*PLD^2 +
      8*PLD*RCD - 4*RBC^2 - 8*RBC*RCD)/(8*(BCX^2 + BCY^2))) + PD^2 -
      4*PD*PLD - 4*PD*RCD + 4*PLD^2 + 8*PLD*RCD - 4*RBC^2 -
      8*RBC*RCD)/(8*BCX));
    (CDY,
      -BCX*sp.sqrt (-(4*BCX^2 + 4*BCY^2 - PD^2 + 4*PD*PLD - 4*PD*RBC -
      4*PLD^2 + 8*PLD*RBC - 4*RBC^2)*(4*BCX^2 + 4*BCY^2 - PD^2 + 4*PD*PLD +
      4*PD*RBC + 8*PD*RCD - 4*PLD^2 - 8*PLD*RBC - 16*PLD*RCD - 4*RBC^2 -
      16*RBC*RCD - 16*RCD^2))/(8*(BCX^2 + BCY^2)) + BCY*(4*BCX^2 + 4*BCY^2 +
      PD^2 - 4*PD*PLD - 4*PD*RCD + 4*PLD^2 + 8*PLD*RCD - 4*RBC^2 -
      8*RBC*RCD)/(8*(BCX^2 + BCY^2))) ]%E.

(** Cell 11: reflection of a point across the ray at angle [theta] from the
    y axis, in polar coordinates. *)

Definition reflect_point (x y theta : sp.expr) : sp.expr * sp.expr :=
  let R := sp.sqrt (x^2 + y^2) in
  let theta_new := (2*theta + sp.asin (x / sp.sqrt (x^2 + y^2)))%E in
  let x_new := (- R * sp.sin theta_new)%E in
  let y_new := (R * sp.cos theta_new)%E in
  (x_new, y_new).

(** Cell 12: the ordered solution list.  The entry of [TANG] is written as
    the notebook writes it; sympy cancels the two arcsines when it builds
    the sum and records [-P/PD].  The entry as written has a value only
    where [B] is a real point other than the origin; there it is the
    recorded one. *)

Definition TANG_numerator : sp.expr :=
  (- sp.asin (BX / (sp.sqrt (BX^2 + BY^2)))
   + (sp.asin (BX / (sp.sqrt (BX^2 + BY^2))) - 2*P/PD))%E.

Definition TANG_sol : sp.expr := (TANG_numerator / 2)%E.

Definition final_sol : list (symbol * sp.expr) :=
  res_1_sol ++ res_2_sol ++
  [ (CX, CDX - (RCD)/(RCD+RBC)*(CDX - BCX));
    (CY, CDY - (RCD)/(RCD+RBC)*(CDY - BCY));
    (CDR, sp.sqrt (CDX^2 + CDY^2));
    (DX, CDX*(CDR + RCD)/(CDR));
    (DY, CDY*(CDR + RCD)/(CDR));
    (TANG, TANG_sol);
    (EX, fst (reflect_point DX DY TANG));
    (EY, snd (reflect_point DX DY TANG));
    (FX, fst (reflect_point CX CY TANG));
    (FY, snd (reflect_point CX CY TANG));
    (EFX, fst (reflect_point CDX CDY TANG));
    (EFY, snd (reflect_point CDX CDY TANG));
    (GX, fst (reflect_point BX BY TANG));
    (GY, snd (reflect_point BX BY TANG));
    (FGX, fst (reflect_point BCX BCY TANG));
    (FGY, snd (reflect_point BCX BCY TANG)) ]%E.

(** Cell 13: the evaluation loop.  Entry [i] is evaluated with the
    parameters substituted first and then the entries before it. *)

Fixpoint eval_entries (pa : list (symbol * option R))
    (done : list (symbol * option R)) (sol : list (symbol * sp.expr))
    : list (symbol * option R) :=
  match sol with
  | [] => done
  | (s, e) :: rest =>
      eval_entries pa (done ++ [(s, sp.N (pa ++ done) e)]) rest
  end.

Definition bind_values (pa : list (symbol * R)) : list (symbol * option R) :=
  map (fun sv => (fst sv, Some (snd sv))) pa.

Definition final_sol_eval_with (pa : list (symbol * R))
    : list (symbol * option R) :=
  eval_entries (bind_values pa) [] final_sol.

Definition final_sol_eval : list (symbol * option R) :=
  final_sol_eval_with param_associations.

(** The variant of the notebook that derives [PD = P*t/pi]: the parameter
    list has no [PD], and [PD_sub] is substituted for [PD] in the entries;
    its entry of [TANG] is
    [((-asin(..) + (asin(..) - 2*P/PD)).subs(PD, PD_sub)/2)], which sympy
    records as [-pi/t]; as written it has that value where [B] is a real
    point other than the origin and [P <> 0]. *)

Fixpoint subs (s : symbol) (by' : sp.expr) (e : sp.expr) : sp.expr :=
  match e with
  | sp.Symbol s' => if symbol_eq_dec s' s then by' else e
  | sp.Integer _ | sp.Float _ | sp.pi => e
  | sp.Add x y => sp.Add (subs s by' x) (subs s by' y)
  | sp.Sub x y => sp.Sub (subs s by' x) (subs s by' y)
  | sp.Mul x y => sp.Mul (subs s by' x) (subs s by' y)
  | sp.Div x y => sp.Div (subs s by' x) (subs s by' y)
  | sp.Neg x => sp.Neg (subs s by' x)
  | sp.Pow x n => sp.Pow (subs s by' x) n
  | sp.sqrt x => sp.sqrt (subs s by' x)
  | sp.sin x => sp.sin (subs s by' x)
  | sp.cos x => sp.cos (subs s by' x)
  | sp.asin x => sp.asin (subs s by' x)
  end.

Definition TANG_sol_derived : sp.expr :=
  (subs PD PD_sub TANG_numerator / 2)%E.

(** Substituting [PD_sub] for [PD] in every entry amounts to binding [PD]
    to the value of [PD_sub]. *)

Definition with_PD_sub (pa : list (symbol * R)) : list (symbol * option R) :=
  bind_values pa ++ [(PD, sp.N (bind_values pa) PD_sub)].

Definition final_sol_eval_derived (pa : list (symbol * R))
    : list (symbol * option R) :=
  eval_entries (with_PD_sub pa) [] final_sol.

(** A symbol bound to a real by an environment. *)

Definition bound (env : list (symbol * option R)) (s : symbol) : Prop :=
  exists r, lookup s env = Some (Some r).

(** The expression that [final_sol] records for a symbol
    ([dict(final_sol)[s]]); [0] for a symbol without entry. *)

Definition entry (s : symbol) : sp.expr :=
  match lookup s final_sol with
  | Some e => e
  | None => 0%E
  end.

(** [list(zip(params, v))] for a list [v] of nine values. *)

Definition associate (v : list R) : list (symbol * R) := combine params v.

(** Whether an expression mentions only the given symbols. *)

Definition mentions_only (l : list symbol) (e : sp.expr) : bool :=
  forallb (fun s => existsb (fun s' => if symbol_eq_dec s s' then true else false) l)
    (sp.free_symbols e).

(** ** The quantities of the first stage, in the words of the specification

    [L = PD/2 - PLD - h + RAB], [S = sin(b/PD)²] and the discriminant
    [Δ = RAB² − 2·RAB·RBC + RBC² + 4L²S² − 4L²S]. *)

Definition spec_L (rab h' pld pd : R) : R := (pd / 2 - pld - h' + rab)%R.

Definition spec_S (b' pd : R) : R := ((sin (b' / pd))²)%R.

Definition spec_Delta (rab rbc l s : R) : R :=
  (rab² - 2 * rab * rbc + rbc² + 4 * l² * s² - 4 * l² * s)%R.

(** ** Running the notebook

    The error kinds are those of the specification.  The notebook has no
    [raise]; sympy evaluates a division by zero and the root of a negative
    number without raising, so that a run always returns its list. *)




(** The value of an entry of a returned list when it is a finite real. *)

Definition real_value (out : list (symbol * option R)) (s : symbol)
    : option R :=
  match lookup s out with
  | Some v => v
  | None => None
  end.

(** The association list of a run on nine parameter values, in the order of
    [params]. *)

Definition parameter_values (rab rbc rcd b' h' pld t' pd p' : R)
    : list (symbol * R) :=
  associate [rab; rbc; rcd; b'; h'; pld; t'; pd; p'].

(** The symbols solved for by the first stage. *)


(** ** Interval evaluation

    A second evaluator, over intervals with fixed-point rational bounds.
    It computes, and encloses the value that [sp.N] gives; it is used to
    evaluate the notebook on concrete parameters. *)

Module Interval.

(** Bounds are integers counting units of [1/scale], a power of two. *)

Definition scale_bits : Z := 72.

Definition scale : Z := (2 ^ scale_bits)%Z.

Record interval : Set := mk { lo : Z; hi : Z }.

Definition value (z : Z) : R := (IZR z / IZR scale)%R.

Definition contains (i : interval) (x : R) : Prop :=
  (value (lo i) <= x <= value (hi i))%R.

(** Division rounded up; [Z.div] rounds down. *)

Definition cdiv (n d : Z) : Z := (- ((- n) / d))%Z.

(** Division by [scale], rounded down and up. *)

Definition down (n : Z) : Z := Z.shiftr n scale_bits.

Definition up (n : Z) : Z := (- Z.shiftr (- n) scale_bits)%Z.

Definition of_Z (z : Z) : interval := mk (z * scale) (z * scale).

Definition of_Q (q : Q) : interval :=
  mk (Qnum q * scale / Zpos (Qden q)) (cdiv (Qnum q * scale) (Zpos (Qden q))).

Definition add (x y : interval) : interval :=
  mk (lo x + lo y) (hi x + hi y).

Definition sub (x y : interval) : interval :=
  mk (lo x - hi y) (hi x - lo y).

Definition neg (x : interval) : interval := mk (- hi x) (- lo x).

Definition min4 (a c d e : Z) : Z := Z.min (Z.min a c) (Z.min d e).

Definition max4 (a c d e : Z) : Z := Z.max (Z.max a c) (Z.max d e).

Definition mul (x y : interval) : interval :=
  mk (min4 (down (lo x * lo y)) (down (lo x * hi y))
           (down (hi x * lo y)) (down (hi x * hi y)))
     (max4 (up (lo x * lo y)) (up (lo x * hi y))
           (up (hi x * lo y)) (up (hi x * hi y))).

Definition inv (y : interval) : option interval :=
  if ((0 <? lo y) || (hi y <? 0))%Z
  then Some (mk (scale * scale / hi y) (cdiv (scale * scale) (lo y)))
  else None.

Definition div (x y : interval) : option interval :=
  match inv y with
  | Some iy => Some (mul x iy)
  | None => None
  end.

Fixpoint pow (x : interval) (n : nat) : interval :=
  match n with
  | O => of_Z 1
  | S n' => mul x (pow x n')
  end.

Definition sqrt (x : interval) : option interval :=
  if (0 <=? lo x)%Z
  then Some (mk (Z.sqrt (lo x * scale)) (Z.sqrt (hi x * scale) + 1))
  else None.

(** Division by a positive integer. *)

Definition div_Z (x : interval) (m : Z) : interval :=
  mk (lo x / m) (cdiv (hi x) m).

(** The alternating Taylor sums of sine and cosine: [n + 1] terms from the
    term [tm], whose successor is [- tm * x2 / ((k+1)(k+2))]. *)

Fixpoint alt_sum (x2 tm : interval) (k : Z) (n : nat) : interval :=
  match n with
  | O => tm
  | S n' =>
      add tm
        (alt_sum x2 (neg (div_Z (mul tm x2) ((k + 1) * (k + 2)))) (k + 2) n')
  end.

Definition point (z : Z) : interval := mk z z.

Definition sin_series (z : Z) (n : nat) : interval :=
  alt_sum (mul (point z) (point z)) (point z) 1 n.

Definition cos_series (z : Z) (n : nat) : interval :=
  alt_sum (mul (point z) (point z)) (of_Z 1) 0 n.

(** Bounds of the sine of a fixed-point number in [[-3/2, 3/2]] and of the
    cosine of one in [[-2, 2]], from sums of 14 and 15 terms. *)

Definition sin_lower (z : Z) : Z :=
  if (0 <=? z)%Z then lo (sin_series z 13)
  else (- hi (sin_series (- z) 14))%Z.

Definition sin_upper (z : Z) : Z :=
  if (0 <=? z)%Z then hi (sin_series z 14)
  else (- lo (sin_series (- z) 13))%Z.

Definition cos_lower (z : Z) : Z := lo (cos_series (Z.abs z) 13).

Definition cos_upper (z : Z) : Z := hi (cos_series (Z.abs z) 14).

Definition sin (x : interval) : option interval :=
  if ((-3 * scale <=? 2 * lo x) && (2 * hi x <=? 3 * scale))%Z
  then Some (mk (sin_lower (lo x)) (sin_upper (hi x)))
  else None.

Definition cos (x : interval) : option interval :=
  if ((-2 * scale <=? lo x) && (hi x <=? 2 * scale))%Z
  then
    if (0 <=? lo x)%Z then Some (mk (cos_lower (hi x)) (cos_upper (lo x)))
    else if (hi x <=? 0)%Z then Some (mk (cos_lower (lo x)) (cos_upper (hi x)))
    else Some (mk (Z.min (cos_lower (lo x)) (cos_lower (hi x))) scale)
  else None.

(** Newton iteration towards the angle whose sine is [target]. *)

Fixpoint newton (target a : Z) (fuel : nat) : Z :=
  match fuel with
  | O => a
  | S fuel' =>
      let a' := Z.max (-3 * scale / 2) (Z.min (3 * scale / 2) a) in
      let c := cos_lower a' in
      if (c <=? 0)%Z then a'
      else newton target (a' + (target - sin_lower a') * scale / c) fuel'
  end.

(** The arcsine is enclosed by two angles of [[-3/2, 3/2]] whose sines
    enclose the argument; the angles are searched for, and then checked. *)

Definition asin (x : interval) : option interval :=
  let a := (newton (lo x) (lo x) 8 - 65536)%Z in
  let c := (newton (hi x) (hi x) 8 + 65536)%Z in
  if ((- scale <=? lo x) && (hi x <=? scale)
      && (-3 * scale <=? 2 * a) && (2 * a <=? 3 * scale)
      && (-3 * scale <=? 2 * c) && (2 * c <=? 3 * scale)
      && (sin_upper a <=? lo x) && (hi x <=? sin_lower c))%Z
  then Some (mk a c)
  else None.

(** Evaluation of an expression whose symbols are bound to intervals. *)

Fixpoint eval (env : list (symbol * interval)) (e : sp.expr)
    : option interval :=
  match e with
  | sp.Symbol s => lookup s env
  | sp.Integer z => Some (of_Z z)
  | sp.Float _ => None
  | sp.pi => None
  | sp.Add x y =>
      match eval env x, eval env y with
      | Some u, Some v => Some (add u v) | _, _ => None end
  | sp.Sub x y =>
      match eval env x, eval env y with
      | Some u, Some v => Some (sub u v) | _, _ => None end
  | sp.Mul x y =>
      match eval env x, eval env y with
      | Some u, Some v => Some (mul u v) | _, _ => None end
  | sp.Div x y =>
      match eval env x, eval env y with
      | Some u, Some v => div u v | _, _ => None end
  | sp.Neg x => option_map neg (eval env x)
  | sp.Pow x n => option_map (fun u => pow u n) (eval env x)
  | sp.sqrt x => match eval env x with Some u => sqrt u | None => None end
  | sp.sin x => match eval env x with Some u => sin u | None => None end
  | sp.cos x => match eval env x with Some u => cos u | None => None end
  | sp.asin x => match eval env x with Some u => asin u | None => None end
  end.

(** The evaluation loop of cell 13 over intervals; an entry that has no
    enclosure is left out. *)

Fixpoint eval_entries (pa done : list (symbol * interval))
    (sol : list (symbol * sp.expr)) : list (symbol * interval) :=
  match sol with
  | [] => done
  | (s, e) :: rest =>
      match eval (pa ++ done) e with
      | Some i => eval_entries pa (done ++ [(s, i)]) rest
      | None => eval_entries pa done rest
      end
  end.

End Interval.

(** An interval environment encloses an environment when every interval
    it binds contains the real the environment binds. *)

Definition encloses (ienv : list (symbol * Interval.interval))
    (env : list (symbol * option R)) : Prop :=
  forall s i,
    lookup s ienv = Some i ->
    exists v, lookup s env = Some (Some v) /\ Interval.contains i v.

(** The enclosures of a run on rational parameter values. *)

Definition enclosures_with (qs : list Q) : list (symbol * Interval.interval) :=
  Interval.eval_entries (combine params (map Interval.of_Q qs)) [] final_sol.

(** Whether an interval lies within [tol] of [q]. *)

Definition within (i : Interval.interval) (q tol : Q) : bool :=
  (Qle_bool ((q - tol) * inject_Z Interval.scale) (inject_Z (Interval.lo i))
   && Qle_bool (inject_Z (Interval.hi i)) ((q + tol) * inject_Z Interval.scale))%bool.

(** ** The reference evaluation

    Cell 13 records the values that the evaluation loop prints for the
    parameter values of cell 3, to 15 significant digits. *)

Definition recorded_final_sol_eval : list (symbol * Q) :=
  [ (AX, -0.468387108234888);
    (AY, 2.43637664762118);
    (BX, 0.468387108234888);
    (BY, 2.43637664762118);
    (ABX, 0);
    (ABY, 2.73409886184000);
    (BCX, -0.375553627323469);
    (BCY, 2.97281306963707);
    (RBXY, 2.99644090113602);
    (CDX, 0.736474689773917);
    (CDY, 2.67973795644328);
    (CX, 0.591427517978606);
    (CY, 2.71796514512073);
    (CDR, 2.77909886184000);
    (DX, 0.776225417962459);
    (DY, 2.82437501811310);
    (TANG, -0.314159265358773);
    (EX, 1.03214642799161);
    (EY, 2.74122124127487);
    (FX, 1.11910491556020);
    (FY, 2.54651236538967);
    (EFX, 0.979289910850538);
    (EFY, 2.60084250857039);
    (GX, 1.05313313199241);
    (GY, 2.24638114720862);
    (FGX, 2.05120494695793);
    (FGY, 2.18431141085152) ]%Q.

(** The values of the reference fixture as the specification lists them,
    to nine decimals. *)

Definition reference_fixture : list (symbol * Q) :=
  [ (AX, -0.468387108); (BY, 2.436376648); (ABY, 2.734098862);
    (BCY, 2.972813070); (RBXY, 2.996440901); (CDX, 0.736474690);
    (CX, 0.591427518); (DX, 0.776225418); (TANG, -0.314159265);
    (EX, 1.032146428); (FY, 2.546512365); (GY, 2.246381147);
    (FGX, 2.051204947) ]%Q.

(** Whether each listed value lies within [tol] of everything its enclosure
    contains. *)

Definition all_within (encl : list (symbol * Interval.interval))
    (ref : list (symbol * Q)) (tol : Q) : bool :=
  forallb
    (fun sq =>
       match lookup (fst sq) encl with
       | Some i => within i (snd sq) tol
       | None => false
       end)
    ref.

(** The enclosures of the reference evaluation. *)

Definition fixture_enclosures : list (symbol * Interval.interval) :=
  Eval vm_compute in enclosures_with vals.

(** ** Reflection of numbers

    [reflect_point] applied to three numbers, and evaluated. *)

Definition reflect (x y theta : R) : option (R * R) :=
  let (x_new, y_new) :=
    reflect_point (sp.Float x) (sp.Float y) (sp.Float theta) in
  match sp.N [] x_new, sp.N [] y_new with
  | Some u, Some v => Some (u, v)
  | _, _ => None
  end.

(** The distance from the origin of a point that a run records. *)

Definition point_norm (out : list (symbol * option R)) (X Y : symbol)
    : option R :=
  match real_value out X, real_value out Y with
  | Some x, Some y => Some (sqrt (x ^ 2 + y ^ 2))
  | _, _ => None
  end.

(** Cell 12: the reflected points, each with its source. *)

Definition reflections : list ((symbol * symbol) * (symbol * symbol)) :=
  [ ((EX, EY), (DX, DY)); ((FX, FY), (CX, CY)); ((EFX, EFY), (CDX, CDY));
    ((GX, GY), (BX, BY)); ((FGX, FGY), (BCX, BCY)) ].

(** The bisector angle in the words of the specification. *)

Definition spec_TANG (p' pd : R) : R := (- p' / pd)%R.

(** The argument of the square root in the recorded [CDX] and [CDY]. *)

Definition stage_2_radicand (bcx bcy pd pld rbc rcd : R) : R :=
  (- (4 * bcx ^ 2 + 4 * bcy ^ 2 - pd ^ 2 + 4 * pd * pld - 4 * pd * rbc
      - 4 * pld ^ 2 + 8 * pld * rbc - 4 * rbc ^ 2)
   * (4 * bcx ^ 2 + 4 * bcy ^ 2 - pd ^ 2 + 4 * pd * pld + 4 * pd * rbc
      + 8 * pd * rcd - 4 * pld ^ 2 - 8 * pld * rbc - 16 * pld * rcd
      - 4 * rbc ^ 2 - 16 * rbc * rcd - 16 * rcd ^ 2))%R.

(** ** Two more parameter sets

    Positive parameters, in the order of [params], with [RAB <> RBC].  In
    the first the pitch-line distance [PLD = 3.5] exceeds the pitch radius
    [PD/2 = 3]; in the second the tooth height [h = 4.55] does. *)



Definition tall_tooth_vals : list Q :=
  [1; 2; 0.25; 3; 4.55; 0.5; 10; 6; 2]%Q.

Definition tall_tooth_enclosures : list (symbol * Interval.interval) :=
  Eval vm_compute in enclosures_with tall_tooth_vals.

(** Whether each of the symbols has an enclosure. *)

Definition all_enclosed (encl : list (symbol * Interval.interval))
    (l : list symbol) : bool :=
  forallb
    (fun s => match lookup s encl with Some _ => true | None => false end)
    l.

(** The symbols solved for by the second stage. *)


(** ** The order of the solution list

    Whether entry [i] of [final_sol] mentions only the parameters and the
    symbols of the entries above it. *)

Definition entry_in_order (i : nat) : bool :=
  match nth_error final_sol i with
  | Some (s, e) => mentions_only (params ++ map fst (firstn i final_sol)) e
  | None => true
  end.

(** ** The notebook that derives the pitch diameter

    [pulley_eqns.ipynb] has no [PD] among its parameters: it substitutes
    [PD_sub] for [PD] in the two solved stages and in the entry of the
    bisector angle, and is otherwise the same. *)

Module pulley_eqns.

Definition params : list symbol := [RAB; RBC; RCD; b; h; PLD; t; P].

Definition associate (v : list R) : list (symbol * R) := combine params v.

Definition res_1_sol : list (symbol * sp.expr) :=
  map (fun kv => (fst kv, subs PD PD_sub (snd kv))) res_1_sol.

Definition res_2_sol : list (symbol * sp.expr) :=
  map (fun kv => (fst kv, subs PD PD_sub (snd kv))) res_2_sol.

Definition final_sol : list (symbol * sp.expr) :=
  res_1_sol ++ res_2_sol ++
  [ (CX, CDX - (RCD)/(RCD+RBC)*(CDX - BCX));
    (CY, CDY - (RCD)/(RCD+RBC)*(CDY - BCY));
    (CDR, sp.sqrt (CDX^2 + CDY^2));
    (DX, CDX*(CDR + RCD)/(CDR));
    (DY, CDY*(CDR + RCD)/(CDR));
    (TANG, TANG_sol_derived);
    (EX, fst (reflect_point DX DY TANG));
    (EY, snd (reflect_point DX DY TANG));
    (FX, fst (reflect_point CX CY TANG));
    (FY, snd (reflect_point CX CY TANG));
    (EFX, fst (reflect_point CDX CDY TANG));
    (EFY, snd (reflect_point CDX CDY TANG));
    (GX, fst (reflect_point BX BY TANG));
    (GY, snd (reflect_point BX BY TANG));
    (FGX, fst (reflect_point BCX BCY TANG));
    (FGY, snd (reflect_point BCX BCY TANG)) ]%E.

Definition final_sol_eval_with (pa : list (symbol * R))
    : list (symbol * option R) :=
  eval_entries (bind_values pa) [] final_sol.

End pulley_eqns.

(** ** The closed forms as real functions

    The real number that the entry of a symbol denotes under an assignment
    of reals to the symbols: the exact value of the closed form, as opposed
    to what an evaluation in floating point gives for it. *)

Definition closed_form (rho : symbol -> R) (s : symbol) : R :=
  sp.denote rho (entry s).

(** * Properties *)

Local Open Scope R_scope.

(** ** The evaluator *)

Section Evaluator.

Variable env : list (symbol * option R).

(** A successful evaluation computes the denotation, and every operation
    on the way was defined. *)

Lemma N_Some_inv (e : sp.expr) (r : R) :
  sp.N env e = Some r ->
  sp.denote (valuation env) e = r /\ sp.defined (valuation env) e.
Proof.
  revert r; induction e; intros r0; cbn [sp.N sp.denote sp.defined];
    try (intros [= <-]; now split).
  - unfold valuation. destruct (lookup s env) as [[v|]|]; now intros [= <-].
  - destruct (sp.N env e1), (sp.N env e2); try discriminate.
    intros [= <-]. destruct (IHe1 _ eq_refl) as [-> ?], (IHe2 _ eq_refl) as [-> ?].
    tauto.
  - destruct (sp.N env e1), (sp.N env e2); try discriminate.
    intros [= <-]. destruct (IHe1 _ eq_refl) as [-> ?], (IHe2 _ eq_refl) as [-> ?].
    tauto.
  - destruct (sp.N env e1), (sp.N env e2); try discriminate.
    intros [= <-]. destruct (IHe1 _ eq_refl) as [-> ?], (IHe2 _ eq_refl) as [-> ?].
    tauto.
  - destruct (sp.N env e1), (sp.N env e2); try discriminate.
    destruct (Req_dec_T r1 0); try discriminate.
    intros [= <-]. destruct (IHe1 _ eq_refl) as [-> ?], (IHe2 _ eq_refl) as [-> ?].
    tauto.
  - destruct (sp.N env e); try discriminate.
    intros [= <-]. destruct (IHe _ eq_refl) as [-> ?]. tauto.
  - destruct (sp.N env e); try discriminate.
    intros [= <-]. destruct (IHe _ eq_refl) as [-> ?]. tauto.
  - destruct (sp.N env e); try discriminate.
    destruct (Rle_dec 0 r); try discriminate.
    intros [= <-]. destruct (IHe _ eq_refl) as [-> ?]. tauto.
  - destruct (sp.N env e); try discriminate.
    intros [= <-]. destruct (IHe _ eq_refl) as [-> ?]. tauto.
  - destruct (sp.N env e); try discriminate.
    intros [= <-]. destruct (IHe _ eq_refl) as [-> ?]. tauto.
  - destruct (sp.N env e); try discriminate.
    destruct (Rle_dec (-1) r); try discriminate.
    destruct (Rle_dec r 1); try discriminate.
    intros [= <-]. destruct (IHe _ eq_refl) as [-> ?]. tauto.
Qed.

(** Conversely, an expression whose symbols are all bound to reals and whose
    side conditions hold evaluates to its denotation. *)

Lemma N_defined (e : sp.expr) :
  Forall (bound env) (sp.free_symbols e) ->
  sp.defined (valuation env) e ->
  sp.N env e = Some (sp.denote (valuation env) e).
Proof.
  induction e; cbn [sp.N sp.denote sp.defined sp.free_symbols];
    intros Hb Hd; try reflexivity;
    try (apply Forall_app in Hb; destruct Hb as [Hb1 Hb2]).
  - inversion_clear Hb as [|? ? [r Hr] _].
    unfold valuation. now rewrite Hr.
  - destruct Hd. now rewrite IHe1, IHe2.
  - destruct Hd. now rewrite IHe1, IHe2.
  - destruct Hd. now rewrite IHe1, IHe2.
  - destruct Hd as (? & ? & ?). rewrite IHe1, IHe2 by assumption.
    now destruct (Req_dec_T _ 0).
  - now rewrite IHe.
  - now rewrite IHe.
  - destruct Hd. rewrite IHe by assumption. now destruct (Rle_dec 0 _).
  - now rewrite IHe.
  - now rewrite IHe.
  - destruct Hd as [? [? ?]]. rewrite IHe by assumption.
    destruct (Rle_dec (-1) _); [|tauto]. now destruct (Rle_dec _ 1).
Qed.

End Evaluator.

(** ** Association lists and the evaluation loop *)

Lemma lookup_app_Some {T} (s : symbol) (l l' : list (symbol * T)) (v : T) :
  lookup s l = Some v -> lookup s (l ++ l') = Some v.
Proof.
  induction l as [|[s' v'] l IH]; cbn; [discriminate|].
  now destruct (symbol_eq_dec s s').
Qed.

Lemma lookup_app_None {T} (s : symbol) (l l' : list (symbol * T)) :
  lookup s l = None -> lookup s (l ++ l') = lookup s l'.
Proof.
  induction l as [|[s' v'] l IH]; cbn; [reflexivity|].
  now destruct (symbol_eq_dec s s').
Qed.

Lemma lookup_None_iff {T} (s : symbol) (l : list (symbol * T)) :
  lookup s l = None <-> ~ In s (map fst l).
Proof.
  induction l as [|[s' v'] l IH]; cbn; [tauto|].
  destruct (symbol_eq_dec s s') as [->|Hne].
  - split; [discriminate|tauto].
  - rewrite IH. split; [intros H [E|Hin]; [now subst|tauto]|tauto].
Qed.

Lemma bound_app (env env' : list (symbol * option R)) (s : symbol) :
  bound env s -> bound (env ++ env') s.
Proof. intros [r Hr]. exists r. now apply lookup_app_Some. Qed.

Lemma valuation_app_bound (env env' : list (symbol * option R)) (s : symbol) :
  bound env s -> valuation (env ++ env') s = valuation env s.
Proof.
  intros [r Hr]. unfold valuation.
  now rewrite (lookup_app_Some _ _ _ _ Hr), Hr.
Qed.

(** Bindings added behind an environment do not change the value of an
    expression that it already evaluates. *)

Lemma N_weaken (env env' : list (symbol * option R)) (e : sp.expr) (r : R) :
  sp.N env e = Some r -> sp.N (env ++ env') e = Some r.
Proof.
  revert r; induction e; intros r0; cbn [sp.N]; try tauto.
  - destruct (lookup s env) as [v|] eqn:E; [|discriminate].
    now rewrite (lookup_app_Some _ _ _ _ E).
  - destruct (sp.N env e1), (sp.N env e2); try discriminate.
    now rewrite (IHe1 _ eq_refl), (IHe2 _ eq_refl).
  - destruct (sp.N env e1), (sp.N env e2); try discriminate.
    now rewrite (IHe1 _ eq_refl), (IHe2 _ eq_refl).
  - destruct (sp.N env e1), (sp.N env e2); try discriminate.
    now rewrite (IHe1 _ eq_refl), (IHe2 _ eq_refl).
  - destruct (sp.N env e1), (sp.N env e2); try discriminate.
    now rewrite (IHe1 _ eq_refl), (IHe2 _ eq_refl).
  - destruct (sp.N env e); try discriminate. now rewrite (IHe _ eq_refl).
  - destruct (sp.N env e); try discriminate. now rewrite (IHe _ eq_refl).
  - destruct (sp.N env e); try discriminate. now rewrite (IHe _ eq_refl).
  - destruct (sp.N env e); try discriminate. now rewrite (IHe _ eq_refl).
  - destruct (sp.N env e); try discriminate. now rewrite (IHe _ eq_refl).
  - destruct (sp.N env e); try discriminate. now rewrite (IHe _ eq_refl).
Qed.

(** An expression over symbols that an environment binds (to a real or not)
    does not see later bindings. *)

Lemma N_app_bound (env env' : list (symbol * option R)) (e : sp.expr) :
  Forall (fun s => lookup s env <> None) (sp.free_symbols e) ->
  sp.N (env ++ env') e = sp.N env e.
Proof.
  induction e; cbn [sp.N sp.free_symbols]; intros Hb; try reflexivity;
    try (apply Forall_app in Hb; destruct Hb as [Hb1 Hb2];
         now rewrite IHe1, IHe2);
    try (now rewrite IHe).
  inversion_clear Hb as [|? ? Hs _].
  destruct (lookup s env) as [v|] eqn:E; [|tauto].
  now rewrite (lookup_app_Some _ _ _ _ E).
Qed.

Section Loop.

Variable pa : list (symbol * option R).

Lemma eval_entries_app (sol1 sol2 : list (symbol * sp.expr)) :
  forall done,
    eval_entries pa done (sol1 ++ sol2)
    = eval_entries pa (eval_entries pa done sol1) sol2.
Proof.
  induction sol1 as [|[s e] sol1 IH]; intros done; cbn; [reflexivity|].
  apply IH.
Qed.

Lemma eval_entries_extends (sol : list (symbol * sp.expr)) :
  forall done, exists tail,
    eval_entries pa done sol = done ++ tail /\ map fst tail = map fst sol.
Proof.
  induction sol as [|[s e] sol IH]; intros done; cbn.
  - exists []. now rewrite app_nil_r.
  - destruct (IH (done ++ [(s, sp.N (pa ++ done) e)])) as (tail & -> & Hk).
    exists ((s, sp.N (pa ++ done) e) :: tail).
    rewrite <- app_assoc. cbn. now rewrite Hk.
Qed.

(** The value recorded for an entry is the value of its expression under
    the parameters and the entries before it. *)

Lemma eval_entries_lookup (sol1 sol2 : list (symbol * sp.expr))
    (s : symbol) (e : sp.expr) :
  ~ In s (map fst sol1) ->
  lookup s (eval_entries pa [] (sol1 ++ (s, e) :: sol2))
  = Some (sp.N (pa ++ eval_entries pa [] sol1) e).
Proof.
  intros Hs. rewrite eval_entries_app. cbn [eval_entries].
  destruct (eval_entries_extends sol1 []) as (pre & Hpre & Hk).
  cbn in Hpre. rewrite Hpre.
  destruct (eval_entries_extends sol2 (pre ++ [(s, sp.N (pa ++ pre) e)]))
    as (tail & -> & _).
  rewrite <- app_assoc. rewrite lookup_app_None.
  - cbn. now destruct (symbol_eq_dec s s).
  - apply lookup_None_iff. now rewrite Hk.
Qed.

(** Every entry that evaluates to a real satisfies its equation under the
    final environment. *)

Lemma eval_entries_sound (sol : list (symbol * sp.expr)) :
  forall done,
    NoDup (map fst sol) ->
    (forall s, In s (map fst sol) -> lookup s done = None) ->
    forall s e r,
      In (s, e) sol ->
      lookup s (eval_entries pa done sol) = Some (Some r) ->
      sp.N (pa ++ eval_entries pa done sol) e = Some r.
Proof.
  induction sol as [|[s0 e0] sol IH]; intros done Hnd Hfresh s e r Hin Hl;
    [destruct Hin|].
  cbn [eval_entries] in *. cbn [map fst] in Hnd, Hfresh.
  inversion_clear Hnd as [|? ? Hs0 Hnd'].
  destruct Hin as [[= -> ->]|Hin].
  - destruct (eval_entries_extends sol (done ++ [(s, sp.N (pa ++ done) e)]))
      as (tail & Heq & _).
    rewrite Heq in *. rewrite <- app_assoc in *.
    rewrite lookup_app_None in Hl by (apply Hfresh; now left).
    cbn in Hl. destruct (symbol_eq_dec s s); [|tauto].
    injection Hl as Hl. rewrite app_assoc. now apply N_weaken.
  - apply IH with (s := s); try assumption.
    intros s' Hs'. rewrite lookup_app_None by (apply Hfresh; now right).
    cbn. destruct (symbol_eq_dec s' s0) as [->|]; [tauto|reflexivity].
Qed.

End Loop.

(** ** The solution list *)

Lemma nth_error_decompose {T} (l : list T) (i : nat) (x : T) :
  nth_error l i = Some x -> l = firstn i l ++ x :: skipn (S i) l.
Proof.
  revert i; induction l as [|y l IH]; intros [|i]; cbn; try discriminate.
  - now intros [= ->].
  - intros H. f_equal. now apply IH.
Qed.

Lemma final_sol_eval_lookup (pa : list (symbol * R)) (i : nat)
    (s : symbol) (e : sp.expr) :
  nth_error final_sol i = Some (s, e) ->
  ~ In s (map fst (firstn i final_sol)) ->
  lookup s (final_sol_eval_with pa)
  = Some (sp.N (bind_values pa
                ++ eval_entries (bind_values pa) [] (firstn i final_sol)) e).
Proof.
  intros Hn Hs. unfold final_sol_eval_with.
  rewrite (nth_error_decompose _ _ _ Hn) at 1.
  now apply eval_entries_lookup.
Qed.

Lemma final_sol_NoDup : NoDup (map fst final_sol).
Proof.
  cbv [final_sol res_1_sol res_2_sol app map fst].
  repeat (constructor; [cbn; intuition discriminate|]). constructor.
Qed.

Lemma mentions_only_spec (l : list symbol) (e : sp.expr) :
  mentions_only l e = true -> incl (sp.free_symbols e) l.
Proof.
  unfold mentions_only. rewrite forallb_forall. intros H s Hs.
  specialize (H s Hs). apply existsb_exists in H. destruct H as (s' & Hs' & E).
  now destruct (symbol_eq_dec s s') as [->|].
Qed.

(** An expression over the parameters evaluates, under the parameters and
    whatever has been computed, to its denotation as soon as its side
    conditions hold. *)

Lemma N_over_params (pa : list (symbol * R))
    (done : list (symbol * option R)) (e : sp.expr) :
  mentions_only (map fst pa) e = true ->
  sp.N (bind_values pa ++ done) e = sp.N (bind_values pa) e.
Proof.
  intros H. apply N_app_bound. apply Forall_forall. intros s Hs.
  apply mentions_only_spec in H. specialize (H s Hs).
  intros E. apply lookup_None_iff in E. apply E.
  unfold bind_values. rewrite map_map. cbn. exact H.
Qed.

Lemma bind_values_bound (pa : list (symbol * R)) (s : symbol) :
  In s (map fst pa) -> bound (bind_values pa) s.
Proof.
  unfold bound. induction pa as [|[s' v] pa IH]; cbn; [tauto|].
  intros [->|H].
  - destruct (symbol_eq_dec s s); [eauto|tauto].
  - destruct (symbol_eq_dec s s'); eauto.
Qed.

Lemma N_params_defined (pa : list (symbol * R)) (e : sp.expr) :
  mentions_only (map fst pa) e = true ->
  sp.defined (valuation (bind_values pa)) e ->
  sp.N (bind_values pa) e = Some (sp.denote (valuation (bind_values pa)) e).
Proof.
  intros H Hd. apply N_defined; [|assumption].
  apply Forall_forall. intros s Hs. apply bind_values_bound.
  now apply (mentions_only_spec _ _ H).
Qed.

(** The entries of the first stage mention parameters only: what the run
    records for them is decided by their side conditions. *)

Lemma param_entry_value (pa : list (symbol * R)) (i : nat)
    (s : symbol) (r : R) :
  nth_error final_sol i = Some (s, entry s) ->
  ~ In s (map fst (firstn i final_sol)) ->
  mentions_only (map fst pa) (entry s) = true ->
  real_value (final_sol_eval_with pa) s = Some r <->
  sp.defined (valuation (bind_values pa)) (entry s) /\
  r = sp.denote (valuation (bind_values pa)) (entry s).
Proof.
  intros Hn Hs Hm. unfold real_value.
  rewrite (final_sol_eval_lookup pa i s _ Hn Hs), N_over_params by assumption.
  split.
  - intros H. apply N_Some_inv in H. now destruct H as [<- ?].
  - intros [Hd ->]. now apply N_params_defined.
Qed.


(** ** Stage 1: closed forms and side conditions *)

Ltac denote_entry :=
  cbv -[Rplus Rminus Rmult Rdiv Rinv Ropp pow sqrt sin cos asin IZR PI
        Rle Rlt Rge Rgt Rsqr not spec_L spec_S spec_Delta
        stage_2_radicand].

Ltac solve_defined :=
  repeat match goal with
    | |- _ /\ _ => split
    | |- True => exact I
    | |- _ <> _ => assumption || lra
    | |- _ <= _ => assumption
    end.

Lemma spec_Delta_code (rab rbc h' pld pd x : R) :
  rab ^ 2 - 2 * rab * rbc + rbc ^ 2
  + 4 * (pd / 2 - pld + rab - h') ^ 2 * sin x ^ 4
  - 4 * (pd / 2 - pld + rab - h') ^ 2 * sin x ^ 2
  = spec_Delta rab rbc (spec_L rab h' pld pd) ((sin x)²).
Proof. unfold spec_Delta, spec_L, Rsqr. ring. Qed.



Section Stage1.

Variable rho : symbol -> R.

Let l := spec_L (rho RAB) (rho h) (rho PLD) (rho PD).
Let s := spec_S (rho b) (rho PD).
Let d := spec_Delta (rho RAB) (rho RBC) l s.

Lemma denote_RBXY : sp.denote rho (entry RBXY) = l - 2 * l * s + sqrt d.
Proof.
  denote_entry. rewrite spec_Delta_code.
  unfold spec_L, spec_S, Rsqr, Rdiv. ring.
Qed.


Lemma denote_ABY : sp.denote rho (entry ABY) = l.
Proof. denote_entry. unfold spec_L. ring. Qed.

Lemma denote_BCX :
  sp.denote rho (entry BCX)
  = (- l + 2 * l * s - sqrt d) * sin (2 * rho b / rho PD).
Proof.
  denote_entry. rewrite spec_Delta_code.
  unfold spec_L, spec_S, Rsqr, Rdiv. ring.
Qed.

Lemma denote_BCY :
  sp.denote rho (entry BCY)
  = (l - 2 * l * s + sqrt d) * cos (2 * rho b / rho PD).
Proof.
  denote_entry. rewrite spec_Delta_code.
  unfold spec_L, spec_S, Rsqr, Rdiv. ring.
Qed.

(** The terms of degree three of the recorded [AX], [AY], [BX], [BY]
    cancel, by [sin² + cos² = 1]. *)



Lemma denote_AX : sp.denote rho (entry AX) = - sp.denote rho (entry BX).
Proof. denote_entry. unfold Rdiv. ring. Qed.

Lemma denote_AY : sp.denote rho (entry AY) = sp.denote rho (entry BY).
Proof. reflexivity. Qed.

Lemma defined_ABX : sp.defined rho (entry ABX).
Proof. exact I. Qed.

Lemma defined_ABY : sp.defined rho (entry ABY).
Proof. denote_entry. solve_defined. Qed.

Lemma defined_RBXY : sp.defined rho (entry RBXY) <-> rho PD <> 0 /\ 0 <= d.
Proof.
  denote_entry. rewrite spec_Delta_code.
  split; [tauto | intros (? & ?); solve_defined].
Qed.

Lemma defined_BCX : sp.defined rho (entry BCX) <-> rho PD <> 0 /\ 0 <= d.
Proof.
  denote_entry. rewrite spec_Delta_code.
  split; [tauto | intros (? & ?); solve_defined].
Qed.

Lemma defined_BCY : sp.defined rho (entry BCY) <-> rho PD <> 0 /\ 0 <= d.
Proof.
  denote_entry. rewrite spec_Delta_code.
  split; [tauto | intros (? & ?); solve_defined].
Qed.

Lemma defined_BX :
  sp.defined rho (entry BX)
  <-> rho PD <> 0 /\ 0 <= d /\ rho RAB ^ 2 - rho RBC ^ 2 <> 0.
Proof.
  denote_entry. rewrite !spec_Delta_code.
  split; [tauto | intros (? & ? & ?); solve_defined].
Qed.

Lemma defined_BY :
  sp.defined rho (entry BY)
  <-> rho PD <> 0 /\ 0 <= d /\ rho RAB ^ 2 - rho RBC ^ 2 <> 0.
Proof.
  denote_entry. rewrite !spec_Delta_code.
  split; [tauto | intros (? & ? & ?); solve_defined].
Qed.

Lemma defined_AX :
  sp.defined rho (entry AX)
  <-> rho PD <> 0 /\ 0 <= d /\ rho RAB ^ 2 - rho RBC ^ 2 <> 0.
Proof.
  denote_entry. rewrite !spec_Delta_code.
  split; [tauto | intros (? & ? & ?); solve_defined].
Qed.

Lemma defined_AY :
  sp.defined rho (entry AY)
  <-> rho PD <> 0 /\ 0 <= d /\ rho RAB ^ 2 - rho RBC ^ 2 <> 0.
Proof. exact defined_BY. Qed.

End Stage1.

(** ** Runs on nine parameter values *)

Section Parameters.

Variables rab rbc rcd b' h' pld t' pd p' : R.

Let pa := parameter_values rab rbc rcd b' h' pld t' pd p'.

Lemma val_RAB : valuation (bind_values pa) RAB = rab.
Proof. reflexivity. Qed.
Lemma val_RBC : valuation (bind_values pa) RBC = rbc.
Proof. reflexivity. Qed.
Lemma val_RCD : valuation (bind_values pa) RCD = rcd.
Proof. reflexivity. Qed.
Lemma val_b : valuation (bind_values pa) b = b'.
Proof. reflexivity. Qed.
Lemma val_h : valuation (bind_values pa) h = h'.
Proof. reflexivity. Qed.
Lemma val_PLD : valuation (bind_values pa) PLD = pld.
Proof. reflexivity. Qed.
Lemma val_t : valuation (bind_values pa) t = t'.
Proof. reflexivity. Qed.
Lemma val_PD : valuation (bind_values pa) PD = pd.
Proof. reflexivity. Qed.
Lemma val_P : valuation (bind_values pa) P = p'.
Proof. reflexivity. Qed.

End Parameters.

Ltac param_values :=
  rewrite ?val_RAB, ?val_RBC, ?val_RCD, ?val_b, ?val_h, ?val_PLD, ?val_t,
    ?val_PD, ?val_P.

Ltac stage_1_entry i s :=
  apply (param_entry_value _ i s);
  [ reflexivity | cbn; intuition discriminate | reflexivity | ].


(** C1.  For parameters with [RAB <> RBC], a pitch diameter that is not
    zero and a discriminant [Δ >= 0], the run records for the first stage
    exactly [RBXY = L − 2LS + √Δ], [ABX = 0], [ABY = L],
    [BCX = (−L + 2LS − √Δ)·sin(2b/PD)] and
    [BCY = (L − 2LS + √Δ)·cos(2b/PD)], where [sqrt] is the non-negative
    root. *)

Theorem stage_1_closed_forms (rab rbc rcd b' h' pld t' pd p' : R) :
  let out :=
    final_sol_eval_with (parameter_values rab rbc rcd b' h' pld t' pd p') in
  let l := spec_L rab h' pld pd in
  let s := spec_S b' pd in
  let d := spec_Delta rab rbc l s in
  pd <> 0 -> rab <> rbc -> 0 <= d ->
  real_value out RBXY = Some (l - 2 * l * s + sqrt d) /\
  real_value out ABX = Some 0 /\
  real_value out ABY = Some l /\
  real_value out BCX = Some ((- l + 2 * l * s - sqrt d) * sin (2 * b' / pd)) /\
  real_value out BCY = Some ((l - 2 * l * s + sqrt d) * cos (2 * b' / pd)).
Proof.
  intros out l s d Hpd _ Hd. subst out.
  split; [|split; [|split; [|split]]].
  - stage_1_entry 8%nat RBXY. split.
    + apply defined_RBXY. param_values. now split.
    + rewrite denote_RBXY. now param_values.
  - stage_1_entry 4%nat ABX. split; [exact I | reflexivity].
  - stage_1_entry 5%nat ABY. split.
    + apply defined_ABY.
    + rewrite denote_ABY. now param_values.
  - stage_1_entry 6%nat BCX. split.
    + apply defined_BCX. param_values. now split.
    + rewrite denote_BCX. now param_values.
  - stage_1_entry 7%nat BCY. split.
    + apply defined_BCY. param_values. now split.
    + rewrite denote_BCY. now param_values.
Qed.

Lemma sin_small (x : R) : 0 < x < 1 -> 0 < sin x < x.
Proof.
  intros [H0 H1]. split.
  - apply sin_gt_0; [assumption|]. pose proof PI2_1. lra.
  - now apply sin_lt_x.
Qed.

Lemma fixture_Delta :
  0 <= spec_Delta 0.555 1 (spec_L 0.555 0.75 0.254 6.36619772368)
         (spec_S 0.4 6.36619772368).
Proof.
  unfold spec_Delta, spec_L, spec_S.
  assert (Hx : 0 < 0.4 / 6.36619772368 < 0.063) by lra.
  set (x := 0.4 / 6.36619772368) in *.
  destruct (sin_small x) as [H0 H1]; [lra|].
  set (l := 6.36619772368 / 2 - 0.254 - 0.75 + 0.555).
  assert (Hl : 0 <= l² <= 7.6) by (unfold l, Rsqr; lra).
  assert (Hs : 0 <= (sin x)² <= 0.004) by (unfold Rsqr; nra).
  generalize dependent (sin x)². generalize dependent l².
  intros L2 HL2 S HS. unfold Rsqr. nra.
Qed.

Lemma stage_1_closed_forms_witness :
  let out :=
    final_sol_eval_with
      (parameter_values 0.555 1 0.15 0.4 0.75 0.254 10 6.36619772368 2) in
  let l := spec_L 0.555 0.75 0.254 6.36619772368 in
  let s := spec_S 0.4 6.36619772368 in
  let d := spec_Delta 0.555 1 l s in
  real_value out RBXY = Some (l - 2 * l * s + sqrt d) /\
  real_value out ABX = Some 0 /\
  real_value out ABY = Some l /\
  real_value out BCX
  = Some ((- l + 2 * l * s - sqrt d) * sin (2 * 0.4 / 6.36619772368)) /\
  real_value out BCY
  = Some ((l - 2 * l * s + sqrt d) * cos (2 * 0.4 / 6.36619772368)).
Proof.
  apply (stage_1_closed_forms 0.555 1 0.15 0.4 0.75 0.254 10 6.36619772368 2);
    [lra | lra | exact fixture_Delta].
Defined.

(** ** Soundness of a run

    Under the environment made of the parameters and of the list a run
    returns, every entry that is a real satisfies its equation, and all the
    operations of its expression are defined. *)

Lemma lookup_In {T} (s : symbol) (l : list (symbol * T)) (v : T) :
  lookup s l = Some v -> In (s, v) l.
Proof.
  induction l as [|[s' v'] l IH]; cbn; [discriminate|].
  destruct (symbol_eq_dec s s') as [->|]; [intros [= ->]; now left|].
  intros H. right. now apply IH.
Qed.

Lemma entry_In (s : symbol) :
  In s (map fst final_sol) -> In (s, entry s) final_sol.
Proof.
  intros H. unfold entry.
  destruct (lookup s final_sol) as [e|] eqn:E.
  - now apply lookup_In.
  - apply lookup_None_iff in E. tauto.
Qed.

Lemma valuation_app_value (env out : list (symbol * option R))
    (s : symbol) (r : R) :
  lookup s env = None -> real_value out s = Some r ->
  valuation (env ++ out) s = r.
Proof.
  intros He Hv. unfold valuation. rewrite (lookup_app_None _ _ _ He).
  unfold real_value in Hv. destruct (lookup s out) as [[v|]|]; congruence.
Qed.

Lemma valuation_app_no_value (env out : list (symbol * option R))
    (s : symbol) :
  lookup s env = None -> real_value out s = None ->
  valuation (env ++ out) s = 0.
Proof.
  intros He Hv. unfold valuation. rewrite (lookup_app_None _ _ _ He).
  unfold real_value in Hv. destruct (lookup s out) as [[v|]|]; congruence.
Qed.

Lemma real_value_Some (out : list (symbol * option R)) (s : symbol) (r : R) :
  real_value out s = Some r -> lookup s out = Some (Some r).
Proof.
  unfold real_value. destruct (lookup s out) as [[v|]|]; congruence.
Qed.

Lemma params_not_solved (pa : list (symbol * R)) (s : symbol) :
  map fst pa = params ->
  In s (map fst final_sol) -> lookup s (bind_values pa) = None.
Proof.
  intros Hpa H. apply lookup_None_iff.
  unfold bind_values. rewrite map_map. cbn [fst]. 
  change (map (fun x : symbol * R => fst x) pa) with (map fst pa). rewrite Hpa.
  intros Hp. revert H. cbn in Hp. cbn.
  intuition (subst; discriminate).
Qed.

Lemma final_sol_eval_with_eq (pa : list (symbol * R)) :
  final_sol_eval_with pa = eval_entries (bind_values pa) [] final_sol.
Proof. reflexivity. Qed.

Lemma final_sol_eval_sound (pa : list (symbol * R)) (s : symbol) (r : R) :
  In s (map fst final_sol) ->
  real_value (final_sol_eval_with pa) s = Some r ->
  sp.N (bind_values pa ++ final_sol_eval_with pa) (entry s) = Some r.
Proof.
  intros H Hv. apply real_value_Some in Hv.
  rewrite final_sol_eval_with_eq in *.
  apply (eval_entries_sound (bind_values pa) final_sol [] final_sol_NoDup
           (fun _ _ => eq_refl) s (entry s) r (entry_In s H) Hv).
Qed.

Section Run.

Variables rab rbc rcd b' h' pld t' pd p' : R.

Local Abbreviation pa := (parameter_values rab rbc rcd b' h' pld t' pd p').
Local Abbreviation out := (final_sol_eval_with pa).
Local Abbreviation rho := (valuation (bind_values pa ++ out)).

Lemma run_param (s : symbol) :
  In s params -> rho s = valuation (bind_values pa) s.
Proof.
  intros H. apply valuation_app_bound. apply bind_values_bound. exact H.
Qed.

Lemma run_value (s : symbol) (r : R) :
  In s (map fst final_sol) -> real_value out s = Some r -> rho s = r.
Proof.
  intros H Hv. apply valuation_app_value; [|exact Hv].
  now apply params_not_solved.
Qed.

Lemma run_no_value (s : symbol) :
  In s (map fst final_sol) -> real_value out s = None -> rho s = 0.
Proof.
  intros H Hv. apply valuation_app_no_value; [|exact Hv].
  now apply params_not_solved.
Qed.

Lemma run_sound (s : symbol) (r : R) :
  In s (map fst final_sol) ->
  real_value out s = Some r ->
  sp.denote rho (entry s) = r /\ sp.defined rho (entry s).
Proof.
  intros H Hv. apply N_Some_inv. now apply final_sol_eval_sound.
Qed.

End Run.

(** ** C4: mirror symmetry of [A] and [B] *)

Lemma radii_squares_differ (rab rbc : R) :
  rab <> rbc -> rab + rbc <> 0 -> rab ^ 2 - rbc ^ 2 <> 0.
Proof.
  intros H1 H2 E.
  assert (E' : (rab - rbc) * (rab + rbc) = 0) by (rewrite <- E; ring).
  apply Rmult_integral in E'. lra.
Qed.

(** Whatever the parameters, the reals recorded for [AX] and [BX] are
    opposite and those recorded for [AY] and [BY] are equal. *)

Lemma stage_1_mirror (rab rbc rcd b' h' pld t' pd p' : R) :
  let out :=
    final_sol_eval_with (parameter_values rab rbc rcd b' h' pld t' pd p') in
  (forall ax bx,
     real_value out AX = Some ax -> real_value out BX = Some bx -> ax = - bx)
  /\
  (forall ay by',
     real_value out AY = Some ay -> real_value out BY = Some by' -> ay = by').
Proof.
  intros out; subst out. split.
  - intros ax bx Ha Hb.
    apply (param_entry_value _ 0%nat AX) in Ha;
      [ | reflexivity | cbn; intuition discriminate | reflexivity ].
    apply (param_entry_value _ 2%nat BX) in Hb;
      [ | reflexivity | cbn; intuition discriminate | reflexivity ].
    destruct Ha as [_ ->], Hb as [_ ->]. apply denote_AX.
  - intros ay by' Ha Hb.
    apply (param_entry_value _ 1%nat AY) in Ha;
      [ | reflexivity | cbn; intuition discriminate | reflexivity ].
    apply (param_entry_value _ 3%nat BY) in Hb;
      [ | reflexivity | cbn; intuition discriminate | reflexivity ].
    destruct Ha as [_ ->], Hb as [_ ->]. apply denote_AY.
Qed.

(** C4.  For parameters with [RAB <> RBC] (radii that are not opposite, as
    positive radii are not), a pitch diameter that is not zero and
    [Δ >= 0], the first stage records reals for [AX], [AY], [BX], [BY]
    with [AX = −BX] and [AY = BY] exactly: [A] and [B] are mirror images
    across the y axis. *)

Theorem stage_1_symmetry (rab rbc rcd b' h' pld t' pd p' : R) :
  let out :=
    final_sol_eval_with (parameter_values rab rbc rcd b' h' pld t' pd p') in
  let d := spec_Delta rab rbc (spec_L rab h' pld pd) (spec_S b' pd) in
  pd <> 0 -> rab <> rbc -> rab + rbc <> 0 -> 0 <= d ->
  exists ax ay bx by',
    real_value out AX = Some ax /\ real_value out AY = Some ay /\
    real_value out BX = Some bx /\ real_value out BY = Some by' /\
    ax = - bx /\ ay = by'.
Proof.
  intros out d Hpd Hne Hsum Hd. subst out.
  pose proof (radii_squares_differ _ _ Hne Hsum) as Hsq.
  set (pa := parameter_values rab rbc rcd b' h' pld t' pd p').
  exists (sp.denote (valuation (bind_values pa)) (entry AX)),
         (sp.denote (valuation (bind_values pa)) (entry AY)),
         (sp.denote (valuation (bind_values pa)) (entry BX)),
         (sp.denote (valuation (bind_values pa)) (entry BY)).
  split; [|split; [|split; [|split; [|split]]]].
  - stage_1_entry 0%nat AX. split; [|reflexivity].
    apply defined_AX. unfold pa. param_values. tauto.
  - stage_1_entry 1%nat AY. split; [|reflexivity].
    apply defined_AY. unfold pa. param_values. tauto.
  - stage_1_entry 2%nat BX. split; [|reflexivity].
    apply defined_BX. unfold pa. param_values. tauto.
  - stage_1_entry 3%nat BY. split; [|reflexivity].
    apply defined_BY. unfold pa. param_values. tauto.
  - apply denote_AX.
  - apply denote_AY.
Qed.

Lemma stage_1_symmetry_witness :
  let out :=
    final_sol_eval_with
      (parameter_values 0.555 1 0.15 0.4 0.75 0.254 10 6.36619772368 2) in
  exists ax ay bx by',
    real_value out AX = Some ax /\ real_value out AY = Some ay /\
    real_value out BX = Some bx /\ real_value out BY = Some by' /\
    ax = - bx /\ ay = by'.
Proof.
  apply (stage_1_symmetry 0.555 1 0.15 0.4 0.75 0.254 10 6.36619772368 2);
    [lra | lra | lra | exact fixture_Delta].
Defined.

(** ** C7: the first stage signals no error *)

(** With equal radii the run returns all the same; it raises nothing, and
    what it records for [BX] is not a real: the closed form divides by
    [RAB² − RBC² = 0]. *)


(** Which values of the first stage are reals, in the model. *)


(** C7, as the notebook behaves.  A run raises no error for any
    parameters: it returns a value for every entry.  For positive radii,
    among the values of the first stage [AX] and [BX] are reals exactly
    when [PD <> 0], [Δ >= 0] and [RAB <> RBC]; [BCX] and [RBXY] exactly
    when [PD <> 0] and [Δ >= 0]; [AY], [BY] and [BCY] likewise, for
    [cos(2b/PD) <> 0]; [ABX] and [ABY] always.  Otherwise the value is
    silently not a real.  (The radii are positive and the cosine is not
    zero so that no factor of a closed form vanishes next to the root of a
    negative discriminant: sympy takes such a product for zero.) *)



(** ** Stage 2: side conditions *)

Ltac run_values :=
  rewrite ?run_param by (cbn; tauto); param_values.

Lemma defined_CDX_denominators (rho : symbol -> R) :
  sp.defined rho (entry CDX) ->
  rho BCX <> 0 /\ rho BCX ^ 2 + rho BCY ^ 2 <> 0.
Proof.
  denote_entry. intros H.
  assert (H8 : 8 * rho BCX <> 0) by tauto.
  assert (H8' : 8 * (rho BCX ^ 2 + rho BCY ^ 2) <> 0) by tauto.
  split; intros E; [apply H8 | apply H8']; rewrite E; ring.
Qed.

Lemma BCX_as_RBXY (rho : symbol -> R) :
  sp.denote rho (entry BCX)
  = - sp.denote rho (entry RBXY) * sin (2 * rho b / rho PD).
Proof. rewrite denote_BCX, denote_RBXY. ring. Qed.

(** C9.  The recorded [BCX] is [−RBXY·sin(2b/PD)], and the closed form of
    [CDX] divides by [8·BCX].  On any input with [b = 0] (and a pitch
    diameter that is not zero) the first stage succeeds with [BCX = 0], and
    the value of [CDX] is not a real: it divides by zero. *)

Theorem zero_b_divides_by_zero (rab rbc rcd h' pld t' pd p' : R) :
  let out :=
    final_sol_eval_with (parameter_values rab rbc rcd 0 h' pld t' pd p') in
  pd <> 0 ->
  (forall rho,
     sp.denote rho (entry BCX)
     = - sp.denote rho (entry RBXY) * sin (2 * rho b / rho PD)) /\
  (forall rho, sp.defined rho (entry CDX) -> rho BCX <> 0) /\
  real_value out BCX = Some 0 /\
  real_value out CDX = None.
Proof.
  intros out Hpd. subst out.
  split; [exact BCX_as_RBXY|].
  split; [intros rho H; now apply defined_CDX_denominators|].
  assert (HB : real_value
                 (final_sol_eval_with
                    (parameter_values rab rbc rcd 0 h' pld t' pd p')) BCX
               = Some 0).
  { stage_1_entry 6%nat BCX. split.
    - apply defined_BCX. param_values. split; [assumption|].
      unfold spec_Delta, spec_S, Rdiv. rewrite Rmult_0_l, sin_0.
      match goal with
      | |- 0 <= ?x => replace x with ((rab - rbc)²) by (unfold Rsqr; ring)
      end.
      apply Rle_0_sqr.
    - rewrite denote_BCX. param_values.
      unfold Rdiv. rewrite Rmult_0_r, Rmult_0_l, sin_0. ring. }
  split; [exact HB|].
  destruct (real_value _ CDX) as [r|] eqn:E; [|reflexivity].
  exfalso.
  apply run_sound in E; [|cbn; tauto]. destruct E as [_ E].
  apply defined_CDX_denominators in E. destruct E as [E _]. apply E.
  apply run_value; [cbn; tauto | exact HB].
Qed.

Lemma zero_b_divides_by_zero_witness :
  let out :=
    final_sol_eval_with
      (parameter_values 0.555 1 0.15 0 0.75 0.254 10 6.36619772368 2) in
  (forall rho,
     sp.denote rho (entry BCX)
     = - sp.denote rho (entry RBXY) * sin (2 * rho b / rho PD)) /\
  (forall rho, sp.defined rho (entry CDX) -> rho BCX <> 0) /\
  real_value out BCX = Some 0 /\
  real_value out CDX = None.
Proof.
  apply (zero_b_divides_by_zero 0.555 1 0.15 0.75 0.254 10 6.36619772368 2).
  lra.
Defined.

(** ** Interval arithmetic encloses real arithmetic *)


Lemma scale_pos : 0 < IZR Interval.scale.
Proof. apply IZR_lt. reflexivity. Qed.

Lemma scale_pos_Z : (0 < Interval.scale)%Z.
Proof. reflexivity. Qed.

Lemma value_le (a c : Z) : (a <= c)%Z -> Interval.value a <= Interval.value c.
Proof.
  intros H. unfold Interval.value. apply Rmult_le_compat_r.
  - left. apply Rinv_0_lt_compat, scale_pos.
  - now apply IZR_le.
Qed.

Lemma value_scale : Interval.value Interval.scale = 1.
Proof. unfold Interval.value. field. apply Rgt_not_eq, scale_pos. Qed.

Lemma value_0 : Interval.value 0 = 0.
Proof. unfold Interval.value. lra. Qed.

Lemma value_add (a c : Z) : Interval.value (a + c) = Interval.value a + Interval.value c.
Proof. unfold Interval.value. rewrite plus_IZR. lra. Qed.

Lemma value_sub (a c : Z) : Interval.value (a - c) = Interval.value a - Interval.value c.
Proof. unfold Interval.value. rewrite minus_IZR. lra. Qed.

Lemma value_opp (a : Z) : Interval.value (- a) = - Interval.value a.
Proof. unfold Interval.value. rewrite opp_IZR. lra. Qed.

(** Rounded divisions. *)

Lemma floor_div (n d : Z) : (0 < d)%Z -> IZR (n / d) <= IZR n / IZR d.
Proof.
  intros Hd. assert (Hd' : 0 < IZR d) by now apply IZR_lt.
  apply Rmult_le_reg_r with (IZR d); [assumption|].
  unfold Rdiv. rewrite Rmult_assoc, Rinv_l, Rmult_1_r by lra.
  rewrite <- mult_IZR. apply IZR_le.
  rewrite Z.mul_comm. apply Z.mul_div_le. assumption.
Qed.

Lemma ceil_div (n d : Z) : (0 < d)%Z -> IZR n / IZR d <= IZR (Interval.cdiv n d).
Proof.
  intros Hd. unfold Interval.cdiv. rewrite opp_IZR.
  pose proof (floor_div (- n) d Hd) as H. rewrite opp_IZR in H.
  unfold Rdiv in *. lra.
Qed.

Lemma floor_div_neg (n d : Z) : (d < 0)%Z -> IZR (n / d) <= IZR n / IZR d.
Proof.
  intros Hd. assert (Hd' : IZR d < 0) by now apply IZR_lt.
  assert (H : (n <= d * (n / d))%Z) by now apply Z.mul_div_ge.
  apply IZR_le in H. rewrite mult_IZR in H.
  assert (Hi : / IZR d < 0) by now apply Rinv_lt_0_compat.
  replace (IZR (n / d)) with (IZR d * IZR (n / d) * / IZR d)
    by (field; lra).
  unfold Rdiv. apply Rmult_le_compat_neg_l with (r := / IZR d) in H; lra.
Qed.

Lemma ceil_div_neg (n d : Z) : (d < 0)%Z -> IZR n / IZR d <= IZR (Interval.cdiv n d).
Proof.
  intros Hd. unfold Interval.cdiv. rewrite opp_IZR.
  pose proof (floor_div_neg (- n) d Hd) as H. rewrite opp_IZR in H.
  unfold Rdiv in *. lra.
Qed.

Lemma down_div (n : Z) : Interval.down n = (n / Interval.scale)%Z.
Proof. unfold Interval.down, Interval.scale. now rewrite Z.shiftr_div_pow2. Qed.

Lemma up_div (n : Z) : Interval.up n = Interval.cdiv n Interval.scale.
Proof. unfold Interval.up, Interval.cdiv, Interval.scale. now rewrite Z.shiftr_div_pow2. Qed.

Lemma down_le (a c : Z) :
  Interval.value (Interval.down (a * c))
  <= Interval.value a * Interval.value c.
Proof.
  rewrite down_div. unfold Interval.value.
  pose proof (floor_div (a * c) Interval.scale scale_pos_Z) as H.
  rewrite mult_IZR in H. pose proof scale_pos as Hs.
  replace (IZR a / IZR Interval.scale * (IZR c / IZR Interval.scale))
    with (IZR a * IZR c / IZR Interval.scale / IZR Interval.scale) by (field; lra).
  apply Rmult_le_compat_r; [left; now apply Rinv_0_lt_compat | exact H].
Qed.

Lemma up_ge (a c : Z) : Interval.value a * Interval.value c <= Interval.value (Interval.up (a * c)).
Proof.
  rewrite up_div. unfold Interval.value.
  pose proof (ceil_div (a * c) Interval.scale scale_pos_Z) as H.
  rewrite mult_IZR in H. pose proof scale_pos as Hs.
  replace (IZR a / IZR Interval.scale * (IZR c / IZR Interval.scale))
    with (IZR a * IZR c / IZR Interval.scale / IZR Interval.scale) by (field; lra).
  apply Rmult_le_compat_r; [left; now apply Rinv_0_lt_compat | exact H].
Qed.

(** Basic operations. *)

Lemma of_Z_sound (z : Z) : Interval.contains (Interval.of_Z z) (IZR z).
Proof.
  unfold Interval.contains, Interval.of_Z, Interval.value;
    cbn [Interval.lo Interval.hi]. rewrite mult_IZR.
  pose proof scale_pos.
  replace (IZR z * IZR Interval.scale / IZR Interval.scale) with (IZR z) by (field; lra). lra.
Qed.

Lemma of_Q_sound (q : Q) : Interval.contains (Interval.of_Q q) (Q2R q).
Proof.
  unfold Interval.contains, Interval.of_Q, Interval.value, Q2R; cbn [Interval.lo Interval.hi].
  assert (Hd : (0 < Zpos (Qden q))%Z) by reflexivity.
  pose proof (floor_div (Qnum q * Interval.scale) _ Hd) as H1.
  pose proof (ceil_div (Qnum q * Interval.scale) _ Hd) as H2.
  rewrite mult_IZR in H1, H2. pose proof scale_pos as Hs.
  assert (Hd' : 0 < IZR (Zpos (Qden q))) by now apply IZR_lt.
  set (d := IZR (Zpos (Qden q))) in *. set (n := IZR (Qnum q)) in *.
  assert (E : n * / d = n * IZR Interval.scale / d / IZR Interval.scale) by (field; lra).
  rewrite E. split; apply Rmult_le_compat_r;
    try (left; now apply Rinv_0_lt_compat); assumption.
Qed.

Lemma add_sound (x y : Interval.interval) (u v : R) :
  Interval.contains x u -> Interval.contains y v -> Interval.contains (Interval.add x y) (u + v).
Proof.
  unfold Interval.contains, Interval.add; cbn [Interval.lo Interval.hi]. rewrite !value_add. lra.
Qed.

Lemma sub_sound (x y : Interval.interval) (u v : R) :
  Interval.contains x u -> Interval.contains y v -> Interval.contains (Interval.sub x y) (u - v).
Proof.
  unfold Interval.contains, Interval.sub; cbn [Interval.lo Interval.hi]. rewrite !value_sub. lra.
Qed.

Lemma neg_sound (x : Interval.interval) (u : R) :
  Interval.contains x u -> Interval.contains (Interval.neg x) (- u).
Proof.
  unfold Interval.contains, Interval.neg; cbn [Interval.lo Interval.hi]. rewrite !value_opp. lra.
Qed.

Lemma product_bounds (a c d e u v : R) :
  a <= u <= c -> d <= v <= e ->
  (a * d <= u * v \/ a * e <= u * v \/ c * d <= u * v \/ c * e <= u * v) /\
  (u * v <= a * d \/ u * v <= a * e \/ u * v <= c * d \/ u * v <= c * e).
Proof.
  intros [Ha Hc] [Hd He].
  destruct (Rle_dec 0 u), (Rle_dec 0 v), (Rle_dec 0 a), (Rle_dec 0 d),
    (Rle_dec 0 c), (Rle_dec 0 e); try lra; split; nra.
Qed.

Lemma min4_le (a c d e : Z) :
  (Interval.min4 a c d e <= a /\ Interval.min4 a c d e <= c /\
   Interval.min4 a c d e <= d /\ Interval.min4 a c d e <= e)%Z.
Proof. unfold Interval.min4. lia. Qed.

Lemma max4_ge (a c d e : Z) :
  (a <= Interval.max4 a c d e /\ c <= Interval.max4 a c d e /\
   d <= Interval.max4 a c d e /\ e <= Interval.max4 a c d e)%Z.
Proof. unfold Interval.max4. lia. Qed.

Lemma mul_sound (x y : Interval.interval) (u v : R) :
  Interval.contains x u -> Interval.contains y v -> Interval.contains (Interval.mul x y) (u * v).
Proof.
  intros Hx Hy. destruct (product_bounds _ _ _ _ _ _ Hx Hy) as [Hl Hu].
  unfold Interval.contains, Interval.mul; cbn [Interval.lo Interval.hi]. split.
  - destruct (min4_le (Interval.down (Interval.lo x * Interval.lo y))
                (Interval.down (Interval.lo x * Interval.hi y))
                (Interval.down (Interval.hi x * Interval.lo y))
                (Interval.down (Interval.hi x * Interval.hi y)))
      as (H1 & H2 & H3 & H4).
    apply value_le in H1, H2, H3, H4.
    pose proof (down_le (Interval.lo x) (Interval.lo y)).
    pose proof (down_le (Interval.lo x) (Interval.hi y)).
    pose proof (down_le (Interval.hi x) (Interval.lo y)).
    pose proof (down_le (Interval.hi x) (Interval.hi y)).
    destruct Hl as [Hl|[Hl|[Hl|Hl]]]; lra.
  - destruct (max4_ge (Interval.up (Interval.lo x * Interval.lo y))
                (Interval.up (Interval.lo x * Interval.hi y))
                (Interval.up (Interval.hi x * Interval.lo y))
                (Interval.up (Interval.hi x * Interval.hi y)))
      as (H1 & H2 & H3 & H4).
    apply value_le in H1, H2, H3, H4.
    pose proof (up_ge (Interval.lo x) (Interval.lo y)).
    pose proof (up_ge (Interval.lo x) (Interval.hi y)).
    pose proof (up_ge (Interval.hi x) (Interval.lo y)).
    pose proof (up_ge (Interval.hi x) (Interval.hi y)).
    destruct Hu as [Hu|[Hu|[Hu|Hu]]]; lra.
Qed.

Lemma value_sign (z : Z) :
  ((0 < z)%Z -> 0 < Interval.value z) /\ ((z < 0)%Z -> Interval.value z < 0).
Proof.
  pose proof scale_pos as Hs. unfold Interval.value. split; intros H.
  - apply IZR_lt in H. apply Rmult_lt_0_compat;
      [assumption | now apply Rinv_0_lt_compat].
  - apply IZR_lt in H.
    replace (IZR z / IZR Interval.scale) with (- ((- IZR z) * / IZR Interval.scale))
      by (field; lra).
    apply Ropp_lt_gt_0_contravar. apply Rmult_lt_0_compat;
      [lra | now apply Rinv_0_lt_compat].
Qed.

(** The reciprocal of [Interval.value z], enclosed by rounded quotients. *)

Lemma inv_value_bounds (z : Z) :
  z <> 0%Z ->
  Interval.value (Interval.scale * Interval.scale / z)
  <= / Interval.value z
  <= Interval.value (Interval.cdiv (Interval.scale * Interval.scale) z).
Proof.
  intros Hz. pose proof scale_pos as Hs.
  assert (Hz' : IZR z <> 0) by (intros E; now apply eq_IZR_R0 in E).
  assert (E : / Interval.value z
              = IZR (Interval.scale * Interval.scale) / IZR z
                / IZR Interval.scale)
    by (unfold Interval.value; rewrite mult_IZR; field; lra).
  rewrite E. unfold Interval.value.
  assert (Hi : 0 <= / IZR Interval.scale) by (left; now apply Rinv_0_lt_compat).
  destruct (Z_lt_le_dec 0 z) as [Hp|Hn].
  - split; apply Rmult_le_compat_r; try assumption;
      [now apply floor_div | now apply ceil_div].
  - assert (Hneg : (z < 0)%Z) by lia.
    split; apply Rmult_le_compat_r; try assumption;
      [now apply floor_div_neg | now apply ceil_div_neg].
Qed.

Lemma inv_sound (y iy : Interval.interval) (v : R) :
  Interval.inv y = Some iy -> Interval.contains y v -> v <> 0 /\ Interval.contains iy (/ v).
Proof.
  unfold Interval.inv, Interval.contains. intros H [Hl Hh].
  destruct ((0 <? Interval.lo y) || (Interval.hi y <? 0))%Z eqn:E; [|discriminate].
  injection H as <-. cbn [Interval.lo Interval.hi].
  apply orb_true_iff in E.
  assert (Hlh : Interval.value (Interval.lo y) <= Interval.value (Interval.hi y)) by lra.
  destruct E as [E|E].
  - apply Z.ltb_lt in E. pose proof (proj1 (value_sign _) E) as Hpos.
    assert (Hh0 : Interval.hi y <> 0%Z).
    { intros E0. rewrite E0, value_0 in Hlh. lra. }
    assert (Hl0 : Interval.lo y <> 0%Z) by lia.
    pose proof (inv_value_bounds _ Hh0) as [B1 _].
    pose proof (inv_value_bounds _ Hl0) as [_ B2].
    split; [lra|]. split.
    + apply Rle_trans with (1 := B1). apply Rinv_le_contravar; lra.
    + apply Rle_trans with (2 := B2). apply Rinv_le_contravar; lra.
  - apply Z.ltb_lt in E. pose proof (proj2 (value_sign _) E) as Hneg.
    assert (Hl0 : Interval.lo y <> 0%Z).
    { intros E0. rewrite E0, value_0 in Hlh. lra. }
    assert (Hh0 : Interval.hi y <> 0%Z) by lia.
    pose proof (inv_value_bounds _ Hh0) as [B1 _].
    pose proof (inv_value_bounds _ Hl0) as [_ B2].
    split; [lra|].
    assert (Hinv : forall p q : R, p <= q -> q < 0 -> / q <= / p).
    { intros p q Hpq Hq.
      replace (/ q) with (- / (- q)) by (field; lra).
      replace (/ p) with (- / (- p)) by (field; lra).
      apply Ropp_le_contravar. apply Rinv_le_contravar; lra. }
    split.
    + apply Rle_trans with (1 := B1). apply Hinv; lra.
    + apply Rle_trans with (2 := B2). apply Hinv; lra.
Qed.

Lemma div_sound (x y i : Interval.interval) (u v : R) :
  Interval.div x y = Some i -> Interval.contains x u -> Interval.contains y v ->
  v <> 0 /\ Interval.contains i (u / v).
Proof.
  unfold Interval.div. destruct (Interval.inv y) as [iy|] eqn:E; [|discriminate].
  intros [= <-] Hx Hy. destruct (inv_sound _ _ _ E Hy) as [Hv Hi].
  split; [assumption|]. now apply mul_sound.
Qed.

Lemma pow_sound (x : Interval.interval) (u : R) (n : nat) :
  Interval.contains x u -> Interval.contains (Interval.pow x n) (u ^ n).
Proof.
  intros Hx. induction n as [|n IH]; cbn [Interval.pow Rpow_def.pow].
  - apply (of_Z_sound 1).
  - now apply mul_sound.
Qed.

Lemma sqrt_sound (x i : Interval.interval) (u : R) :
  Interval.sqrt x = Some i -> Interval.contains x u ->
  0 <= u /\ Interval.contains i (R_sqrt.sqrt u).
Proof.
  unfold Interval.sqrt, Interval.contains. intros H [Hl Hh].
  destruct (0 <=? Interval.lo x)%Z eqn:E; [|discriminate]. injection H as <-.
  cbn [Interval.lo Interval.hi]. apply Z.leb_le in E. pose proof scale_pos as Hs.
  assert (Hl0 : 0 <= Interval.value (Interval.lo x)).
  { rewrite <- value_0. now apply value_le. }
  assert (Hu : 0 <= u) by lra. split; [assumption|].
  assert (Hhz : (0 <= Interval.hi x)%Z).
  { apply le_IZR. unfold Interval.value in *.
    assert (0 <= IZR (Interval.hi x) / IZR Interval.scale) by lra.
    apply Rmult_le_compat_r with (r := IZR Interval.scale) in H; [|lra].
    unfold Rdiv in H. rewrite Rmult_assoc, Rinv_l, Rmult_0_l, Rmult_1_r in H;
      lra. }
  assert (Hsq : forall z, (0 <= z)%Z ->
            (Interval.value (Z.sqrt (z * Interval.scale)))² <= Interval.value z
            /\ Interval.value z < (Interval.value (Z.sqrt (z * Interval.scale) + 1))²
            /\ 0 <= Interval.value (Z.sqrt (z * Interval.scale))).
  { intros z Hz.
    assert (Hzs : (0 <= z * Interval.scale)%Z) by (pose proof scale_pos_Z; nia).
    destruct (Z.sqrt_spec _ Hzs) as [S1 S2].
    pose proof (Z.sqrt_nonneg (z * Interval.scale)) as S0.
    set (r := Z.sqrt (z * Interval.scale)) in *.
    apply IZR_le in S1. apply IZR_lt in S2. apply IZR_le in S0.
    rewrite !mult_IZR in S1. unfold Z.succ in S2.
    rewrite !mult_IZR, !plus_IZR in S2.
    unfold Interval.value, Rsqr. rewrite plus_IZR.
    assert (Hi : 0 < / IZR Interval.scale) by now apply Rinv_0_lt_compat.
    assert (E1 : IZR z / IZR Interval.scale
                 = IZR z * IZR Interval.scale * (/ IZR Interval.scale * / IZR Interval.scale))
      by (field; lra).
    assert (Hii : 0 < / IZR Interval.scale * / IZR Interval.scale) by nra.
    split; [|split].
    - rewrite E1.
      replace (IZR r / IZR Interval.scale * (IZR r / IZR Interval.scale))
        with (IZR r * IZR r * (/ IZR Interval.scale * / IZR Interval.scale)) by (field; lra).
      apply Rmult_le_compat_r; lra.
    - rewrite E1.
      replace ((IZR r + 1) / IZR Interval.scale * ((IZR r + 1) / IZR Interval.scale))
        with ((IZR r + 1) * (IZR r + 1) * (/ IZR Interval.scale * / IZR Interval.scale))
        by (field; lra).
      apply Rmult_lt_compat_r; lra.
    - apply Rmult_le_pos; lra. }
  destruct (Hsq _ E) as (A1 & _ & A0). destruct (Hsq _ Hhz) as (_ & A2 & A3).
  split.
  - rewrite <- (sqrt_Rsqr (Interval.value (Z.sqrt (Interval.lo x * Interval.scale)))) by assumption.
    apply sqrt_le_1_alt. lra.
  - assert (A4 : 0 <= Interval.value (Z.sqrt (Interval.hi x * Interval.scale) + 1)).
    { rewrite value_add. unfold Interval.value at 2. 
      assert (0 < 1 / IZR Interval.scale) by (apply Rdiv_lt_0_compat; lra). lra. }
    rewrite <- (sqrt_Rsqr
                  (Interval.value
                     (Z.sqrt (Interval.hi x * Interval.scale) + 1)))
      by assumption.
    apply sqrt_le_1_alt. lra.
Qed.

Lemma div_Z_sound (x : Interval.interval) (m : Z) (u : R) :
  (0 < m)%Z -> Interval.contains x u -> Interval.contains (Interval.div_Z x m) (u / IZR m).
Proof.
  unfold Interval.contains, Interval.div_Z; cbn [Interval.lo Interval.hi]. intros Hm [Hl Hh].
  pose proof scale_pos as Hs. assert (Hm' : 0 < IZR m) by now apply IZR_lt.
  assert (Hi : 0 <= / IZR m) by (left; now apply Rinv_0_lt_compat).
  assert (His : 0 <= / IZR Interval.scale) by (left; now apply Rinv_0_lt_compat).
  split.
  - apply Rle_trans with (Interval.value (Interval.lo x) / IZR m).
    + unfold Interval.value.
      replace (IZR (Interval.lo x) / IZR Interval.scale / IZR m)
        with (IZR (Interval.lo x) / IZR m / IZR Interval.scale) by (field; lra).
      apply Rmult_le_compat_r; [assumption | now apply floor_div].
    + now apply Rmult_le_compat_r.
  - apply Rle_trans with (Interval.value (Interval.hi x) / IZR m).
    + now apply Rmult_le_compat_r.
    + unfold Interval.value.
      replace (IZR (Interval.hi x) / IZR Interval.scale / IZR m)
        with (IZR (Interval.hi x) / IZR m / IZR Interval.scale) by (field; lra).
      apply Rmult_le_compat_r; [assumption | now apply ceil_div].
Qed.


(** The alternating sums. *)

Lemma sum_shift (T : nat -> R) (n : nat) :
  sum_f_R0 T (S n) = T 0%nat + sum_f_R0 (fun i => T (S i)) n.
Proof. rewrite decomp_sum by lia. reflexivity. Qed.

Lemma alt_sum_sound (T : nat -> R) (c : Z) (x2 : Interval.interval) (a2 : R) :
  (0 <= c)%Z ->
  Interval.contains x2 a2 ->
  (forall j,
     T (S j)
     = - (T j * a2 / IZR ((2 * Z.of_nat j + c + 1) * (2 * Z.of_nat j + c + 2)))) ->
  forall n j k tm,
    k = (2 * Z.of_nat j + c)%Z ->
    Interval.contains tm (T j) ->
    Interval.contains (Interval.alt_sum x2 tm k n)
      (sum_f_R0 (fun i => T (j + i)%nat) n).
Proof.
  intros Hc Hx2 Hrec. induction n as [|n IH]; intros j k tm Hk Htm.
  - cbn. now rewrite Nat.add_0_r.
  - cbn [Interval.alt_sum]. rewrite sum_shift, Nat.add_0_r.
    apply add_sound; [assumption|].
    assert (E : sum_f_R0 (fun i => T (j + S i)%nat) n
                = sum_f_R0 (fun i => T (S j + i)%nat) n).
    { apply sum_eq. intros i _. f_equal. lia. }
    rewrite E. apply IH; [lia|]. rewrite Hrec, <- Hk.
    apply neg_sound. apply div_Z_sound; [lia|].
    now apply mul_sound.
Qed.

Lemma sin_term_succ (a : R) (j : nat) :
  sin_term a (S j)
  = - (sin_term a j * (a * a)
       / IZR ((2 * Z.of_nat j + 1 + 1) * (2 * Z.of_nat j + 1 + 2))).
Proof.
  unfold sin_term.
  replace (2 * S j + 1)%nat with (S (S (2 * j + 1))) by lia.
  rewrite !fact_simpl, !mult_INR. cbn [Rpow_def.pow].
  pose proof (INR_fact_neq_0 (2 * j + 1)) as Hf.
  rewrite mult_IZR.
  replace (2 * Z.of_nat j + 1 + 1)%Z with (Z.of_nat (S (2 * j + 1))) by lia.
  replace (2 * Z.of_nat j + 1 + 2)%Z with (Z.of_nat (S (S (2 * j + 1)))) by lia.
  rewrite <- !INR_IZR_INZ.
  assert (H1 : INR (S (2 * j + 1)) <> 0) by (apply not_0_INR; lia).
  assert (H2 : INR (S (S (2 * j + 1))) <> 0) by (apply not_0_INR; lia).
  field. repeat split; assumption.
Qed.

Lemma cos_term_succ (a : R) (j : nat) :
  cos_term a (S j)
  = - (cos_term a j * (a * a)
       / IZR ((2 * Z.of_nat j + 0 + 1) * (2 * Z.of_nat j + 0 + 2))).
Proof.
  unfold cos_term.
  replace (2 * S j)%nat with (S (S (2 * j))) by lia.
  rewrite !fact_simpl, !mult_INR. cbn [Rpow_def.pow].
  pose proof (INR_fact_neq_0 (2 * j)) as Hf.
  rewrite mult_IZR.
  replace (2 * Z.of_nat j + 0 + 1)%Z with (Z.of_nat (S (2 * j))) by lia.
  replace (2 * Z.of_nat j + 0 + 2)%Z with (Z.of_nat (S (S (2 * j)))) by lia.
  rewrite <- !INR_IZR_INZ.
  assert (H1 : INR (S (2 * j)) <> 0) by (apply not_0_INR; lia).
  assert (H2 : INR (S (S (2 * j))) <> 0) by (apply not_0_INR; lia).
  field. repeat split; assumption.
Qed.

Lemma point_sound (z : Z) :
  Interval.contains (Interval.point z) (Interval.value z).
Proof. unfold Interval.contains; cbn. lra. Qed.

Lemma sin_series_sound (z : Z) (n : nat) :
  Interval.contains (Interval.sin_series z n)
    (sin_approx (Interval.value z) n).
Proof.
  unfold Interval.sin_series, sin_approx.
  set (a := Interval.value z).
  pose proof (alt_sum_sound (sin_term a) 1
                (Interval.mul (Interval.point z) (Interval.point z)) (a * a))
    as H.
  specialize (H ltac:(lia)
                (mul_sound _ _ _ _ (point_sound z) (point_sound z))
                (sin_term_succ a) n 0%nat 1%Z (Interval.point z) eq_refl).
  apply H.
  unfold sin_term. cbn. replace (1 * (a * 1 / 1)) with a by field.
  apply point_sound.
Qed.

Lemma cos_series_sound (z : Z) (n : nat) :
  Interval.contains (Interval.cos_series z n)
    (cos_approx (Interval.value z) n).
Proof.
  unfold Interval.cos_series, cos_approx.
  set (a := Interval.value z).
  pose proof (alt_sum_sound (cos_term a) 0
                (Interval.mul (Interval.point z) (Interval.point z)) (a * a))
    as H.
  specialize (H ltac:(lia)
                (mul_sound _ _ _ _ (point_sound z) (point_sound z))
                (cos_term_succ a) n 0%nat 0%Z (Interval.of_Z 1) eq_refl).
  apply H.
  unfold cos_term. cbn. replace (1 * (1 / 1)) with 1 by field.
  apply (of_Z_sound 1).
Qed.

(** Bounds of sine and cosine at fixed-point arguments. *)

Lemma sin_bounds (z : Z) :
  -4 <= Interval.value z <= 4 ->
  Interval.value (Interval.sin_lower z) <= sin (Interval.value z)
  <= Interval.value (Interval.sin_upper z).
Proof.
  intros Hz. unfold Interval.sin_lower, Interval.sin_upper.
  destruct (0 <=? z)%Z eqn:E.
  - apply Z.leb_le in E.
    assert (H0 : 0 <= Interval.value z)
      by (rewrite <- value_0; now apply value_le).
    destruct (pre_sin_bound (Interval.value z) 6 H0 (proj2 Hz)) as [L U].
    destruct (sin_series_sound z 13) as [L' _].
    destruct (sin_series_sound z 14) as [_ U'].
    change (2 * 6 + 1)%nat with 13%nat in L.
    change (2 * (6 + 1))%nat with 14%nat in U. lra.
  - apply Z.leb_gt in E.
    assert (H0 : 0 <= Interval.value (- z)).
    { rewrite <- value_0. apply value_le. lia. }
    assert (H4 : Interval.value (- z) <= 4) by (rewrite value_opp; lra).
    destruct (pre_sin_bound (Interval.value (- z)) 6 H0 H4) as [L U].
    destruct (sin_series_sound (- z) 13) as [L' _].
    destruct (sin_series_sound (- z) 14) as [_ U'].
    change (2 * 6 + 1)%nat with 13%nat in L.
    change (2 * (6 + 1))%nat with 14%nat in U.
    rewrite !value_opp in *. rewrite sin_neg in L, U. lra.
Qed.

Lemma value_abs (z : Z) : Interval.value (Z.abs z) = Rabs (Interval.value z).
Proof.
  unfold Interval.value. rewrite abs_IZR. unfold Rdiv.
  rewrite Rabs_mult. f_equal. symmetry. apply Rabs_pos_eq.
  left. apply Rinv_0_lt_compat, scale_pos.
Qed.

Lemma cos_Rabs (x : R) : cos (Rabs x) = cos x.
Proof.
  unfold Rabs. destruct (Rcase_abs x); [apply cos_neg | reflexivity].
Qed.

Lemma cos_bounds (z : Z) :
  -2 <= Interval.value z <= 2 ->
  Interval.value (Interval.cos_lower z) <= cos (Interval.value z)
  <= Interval.value (Interval.cos_upper z).
Proof.
  intros Hz. unfold Interval.cos_lower, Interval.cos_upper.
  assert (Ha : -2 <= Interval.value (Z.abs z) <= 2).
  { rewrite value_abs. unfold Rabs. destruct (Rcase_abs _); lra. }
  destruct (pre_cos_bound (Interval.value (Z.abs z)) 6 (proj1 Ha) (proj2 Ha))
    as [L U].
  destruct (cos_series_sound (Z.abs z) 13) as [L' _].
  destruct (cos_series_sound (Z.abs z) 14) as [_ U'].
  change (2 * 6 + 1)%nat with 13%nat in L.
  change (2 * (6 + 1))%nat with 14%nat in U.
  assert (Ec : cos (Interval.value (Z.abs z)) = cos (Interval.value z))
    by (rewrite value_abs; apply cos_Rabs).
  rewrite Ec in L, U. lra.
Qed.

Lemma half_scale_bounds (z : Z) :
  ((-3 * Interval.scale <= 2 * z)%Z -> - (3 / 2) <= Interval.value z) /\
  ((2 * z <= 3 * Interval.scale)%Z -> Interval.value z <= 3 / 2).
Proof.
  pose proof scale_pos as Hs. unfold Interval.value.
  split; intros H; apply IZR_le in H; rewrite !mult_IZR in H.
  - apply Rmult_le_reg_r with (IZR Interval.scale); [assumption|].
    unfold Rdiv. rewrite Rmult_assoc, Rinv_l by lra. lra.
  - apply Rmult_le_reg_r with (IZR Interval.scale); [assumption|].
    unfold Rdiv. rewrite Rmult_assoc, Rinv_l by lra. lra.
Qed.

Lemma scale_bounds (z : Z) (k : Z) :
  ((k * Interval.scale <= z)%Z -> IZR k <= Interval.value z) /\
  ((z <= k * Interval.scale)%Z -> Interval.value z <= IZR k).
Proof.
  pose proof scale_pos as Hs. unfold Interval.value.
  split; intros H; apply IZR_le in H; rewrite !mult_IZR in H.
  - apply Rmult_le_reg_r with (IZR Interval.scale); [assumption|].
    unfold Rdiv. rewrite Rmult_assoc, Rinv_l by lra. lra.
  - apply Rmult_le_reg_r with (IZR Interval.scale); [assumption|].
    unfold Rdiv. rewrite Rmult_assoc, Rinv_l by lra. lra.
Qed.

Lemma sin_sound (x i : Interval.interval) (u : R) :
  Interval.sin x = Some i -> Interval.contains x u ->
  Interval.contains i (sin u).
Proof.
  unfold Interval.sin, Interval.contains. intros H [Hl Hh].
  destruct (_ && _)%bool eqn:E; [|discriminate]. injection H as <-.
  cbn [Interval.lo Interval.hi].
  apply andb_true_iff in E. destruct E as [E1 E2].
  apply Z.leb_le in E1, E2.
  apply (proj1 (half_scale_bounds _)) in E1.
  apply (proj2 (half_scale_bounds _)) in E2.
  pose proof PI2_3_2 as Hpi.
  assert (Hlo : -4 <= Interval.value (Interval.lo x) <= 4) by lra.
  assert (Hhi : -4 <= Interval.value (Interval.hi x) <= 4) by lra.
  destruct (sin_bounds _ Hlo) as [B1 _]. destruct (sin_bounds _ Hhi) as [_ B2].
  split.
  - apply Rle_trans with (1 := B1). apply sin_incr_1; lra.
  - apply Rle_trans with (2 := B2). apply sin_incr_1; lra.
Qed.

Lemma cos_sound (x i : Interval.interval) (u : R) :
  Interval.cos x = Some i -> Interval.contains x u ->
  Interval.contains i (cos u).
Proof.
  unfold Interval.cos, Interval.contains. intros H [Hl Hh].
  destruct (_ && _)%bool eqn:E; [|discriminate].
  apply andb_true_iff in E. destruct E as [E1 E2].
  apply Z.leb_le in E1, E2.
  apply (proj1 (scale_bounds _ (-2))) in E1.
  apply (proj2 (scale_bounds _ 2)) in E2.
  pose proof PI2_3_2 as Hpi.
  assert (Hlo : -2 <= Interval.value (Interval.lo x) <= 2) by lra.
  assert (Hhi : -2 <= Interval.value (Interval.hi x) <= 2) by lra.
  destruct (cos_bounds _ Hlo) as [L1 U1]. destruct (cos_bounds _ Hhi) as [L2 U2].
  destruct (0 <=? Interval.lo x)%Z eqn:E3.
  - injection H as <-. cbn [Interval.lo Interval.hi].
    apply Z.leb_le in E3.
    assert (H0 : 0 <= Interval.value (Interval.lo x))
      by (rewrite <- value_0; now apply value_le).
    split.
    + apply Rle_trans with (1 := L2). apply cos_decr_1; lra.
    + apply Rle_trans with (2 := U1). apply cos_decr_1; lra.
  - destruct (Interval.hi x <=? 0)%Z eqn:E4.
    + injection H as <-. cbn [Interval.lo Interval.hi].
      apply Z.leb_le in E4.
      assert (H0 : Interval.value (Interval.hi x) <= 0)
        by (rewrite <- value_0; now apply value_le).
      rewrite <- (cos_neg u).
      rewrite <- (cos_neg (Interval.value (Interval.lo x))) in L1.
      rewrite <- (cos_neg (Interval.value (Interval.hi x))) in U2.
      split.
      * apply Rle_trans with (1 := L1). apply cos_decr_1; lra.
      * apply Rle_trans with (2 := U2). apply cos_decr_1; lra.
    + injection H as <-. cbn [Interval.lo Interval.hi].
      split.
      * destruct (Rle_dec 0 u) as [Hu|Hu].
        -- apply Rle_trans with (Interval.value (Interval.cos_lower (Interval.hi x))).
           ++ apply value_le. lia.
           ++ apply Rle_trans with (1 := L2). apply cos_decr_1; lra.
        -- apply Rle_trans with (Interval.value (Interval.cos_lower (Interval.lo x))).
           ++ apply value_le. lia.
           ++ apply Rle_trans with (1 := L1).
              rewrite <- (cos_neg u), <- (cos_neg (Interval.value _)).
              apply cos_decr_1; lra.
      * rewrite value_scale. apply COS_bound.
Qed.

Lemma asin_sound (x i : Interval.interval) (u : R) :
  Interval.asin x = Some i -> Interval.contains x u ->
  -1 <= u <= 1 /\ Interval.contains i (asin u).
Proof.
  unfold Interval.asin, Interval.contains. intros H [Hl Hh].
  set (a := (Interval.newton (Interval.lo x) (Interval.lo x) 8 - 65536)%Z) in *.
  set (c := (Interval.newton (Interval.hi x) (Interval.hi x) 8 + 65536)%Z) in *.
  destruct (_ && _)%bool eqn:E; [|discriminate]. injection H as <-.
  cbn [Interval.lo Interval.hi].
  repeat (apply andb_true_iff in E; destruct E as [E ?]).
  repeat match goal with H : (_ <=? _)%Z = true |- _ => apply Z.leb_le in H end.
  assert (Eo : (-1 * Interval.scale <= Interval.lo x)%Z) by lia.
  assert (Eh : (Interval.hi x <= 1 * Interval.scale)%Z) by lia.
  apply (proj1 (scale_bounds _ (-1))) in Eo.
  apply (proj2 (scale_bounds _ 1)) in Eh.
  assert (Hu : -1 <= u <= 1) by lra. split; [assumption|].
  repeat match goal with
    | H : (-3 * _ <= 2 * _)%Z |- _ =>
        apply (proj1 (half_scale_bounds _)) in H
    | H : (2 * _ <= 3 * _)%Z |- _ =>
        apply (proj2 (half_scale_bounds _)) in H
    end.
  match goal with H : (Interval.sin_upper a <= _)%Z |- _ =>
    apply value_le in H; rename H into Hsa end.
  match goal with H : (_ <= Interval.sin_lower c)%Z |- _ =>
    apply value_le in H; rename H into Hsc end.
  pose proof PI2_3_2 as Hpi. pose proof (asin_bound u) as Hb.
  pose proof (sin_asin u Hu) as Hs.
  split.
  - destruct (Rle_dec (Interval.value a) (asin u)) as [|Hn]; [assumption|].
    exfalso. apply Rnot_le_lt in Hn.
    assert (Ha4 : -4 <= Interval.value a <= 4) by lra.
    destruct (sin_bounds _ Ha4) as [_ B].
    assert (sin (asin u) < sin (Interval.value a))
      by (apply sin_increasing_1; lra).
    lra.
  - destruct (Rle_dec (asin u) (Interval.value c)) as [|Hn]; [assumption|].
    exfalso. apply Rnot_le_lt in Hn.
    assert (Hc4 : -4 <= Interval.value c <= 4) by lra.
    destruct (sin_bounds _ Hc4) as [B _].
    assert (sin (Interval.value c) < sin (asin u))
      by (apply sin_increasing_1; lra).
    lra.
Qed.

(** ** The interval evaluator encloses the evaluator *)

Lemma eval_sound (ienv : list (symbol * Interval.interval))
    (env : list (symbol * option R)) :
  encloses ienv env ->
  forall e i,
    Interval.eval ienv e = Some i ->
    exists v, sp.N env e = Some v /\ Interval.contains i v.
Proof.
  intros Henv. induction e; intros i0; cbn [Interval.eval sp.N].
  - intros H. destruct (Henv _ _ H) as (v & -> & Hv). eauto.
  - intros [= <-]. eexists; split; [reflexivity | apply of_Z_sound].
  - discriminate.
  - discriminate.
  - destruct (Interval.eval ienv e1) as [i1|]; [|discriminate].
    destruct (Interval.eval ienv e2) as [i2|]; [|discriminate].
    destruct (IHe1 _ eq_refl) as (v1 & -> & H1).
    destruct (IHe2 _ eq_refl) as (v2 & -> & H2).
    intros [= <-]. eexists; split; [reflexivity | now apply add_sound].
  - destruct (Interval.eval ienv e1) as [i1|]; [|discriminate].
    destruct (Interval.eval ienv e2) as [i2|]; [|discriminate].
    destruct (IHe1 _ eq_refl) as (v1 & -> & H1).
    destruct (IHe2 _ eq_refl) as (v2 & -> & H2).
    intros [= <-]. eexists; split; [reflexivity | now apply sub_sound].
  - destruct (Interval.eval ienv e1) as [i1|]; [|discriminate].
    destruct (Interval.eval ienv e2) as [i2|]; [|discriminate].
    destruct (IHe1 _ eq_refl) as (v1 & -> & H1).
    destruct (IHe2 _ eq_refl) as (v2 & -> & H2).
    intros [= <-]. eexists; split; [reflexivity | now apply mul_sound].
  - destruct (Interval.eval ienv e1) as [i1|]; [|discriminate].
    destruct (Interval.eval ienv e2) as [i2|]; [|discriminate].
    destruct (IHe1 _ eq_refl) as (v1 & -> & H1).
    destruct (IHe2 _ eq_refl) as (v2 & -> & H2).
    intros H. destruct (div_sound _ _ _ _ _ H H1 H2) as [Hn Hc].
    destruct (Req_dec_T v2 0); [tauto|]. eauto.
  - destruct (Interval.eval ienv e) as [i1|]; [|discriminate].
    destruct (IHe _ eq_refl) as (v1 & -> & H1).
    intros [= <-]. eexists; split; [reflexivity | now apply neg_sound].
  - destruct (Interval.eval ienv e) as [i1|]; [|discriminate].
    destruct (IHe _ eq_refl) as (v1 & -> & H1).
    intros [= <-]. eexists; split; [reflexivity | now apply pow_sound].
  - destruct (Interval.eval ienv e) as [i1|]; [|discriminate].
    destruct (IHe _ eq_refl) as (v1 & -> & H1).
    intros H. destruct (sqrt_sound _ _ _ H H1) as [Hn Hc].
    destruct (Rle_dec 0 v1); [|tauto]. eauto.
  - destruct (Interval.eval ienv e) as [i1|]; [|discriminate].
    destruct (IHe _ eq_refl) as (v1 & -> & H1).
    intros H. eexists; split; [reflexivity | now apply (sin_sound i1)].
  - destruct (Interval.eval ienv e) as [i1|]; [|discriminate].
    destruct (IHe _ eq_refl) as (v1 & -> & H1).
    intros H. eexists; split; [reflexivity | now apply (cos_sound i1)].
  - destruct (Interval.eval ienv e) as [i1|]; [|discriminate].
    destruct (IHe _ eq_refl) as (v1 & -> & H1).
    intros H. destruct (asin_sound _ _ _ H H1) as [[Hn1 Hn2] Hc].
    destruct (Rle_dec (-1) v1); [|tauto].
    destruct (Rle_dec v1 1); [|tauto]. eauto.
Qed.

Lemma encloses_app (ipa idone : list (symbol * Interval.interval))
    (pa done : list (symbol * option R)) :
  encloses ipa pa -> encloses idone done ->
  (forall s i, lookup s idone = Some i -> lookup s pa = None) ->
  encloses (ipa ++ idone) (pa ++ done).
Proof.
  intros H1 H2 H3 s i H.
  destruct (lookup s ipa) as [i'|] eqn:E.
  - rewrite (lookup_app_Some _ _ _ _ E) in H. injection H as <-.
    destruct (H1 _ _ E) as (v & Hv & Hc). exists v. split; [|assumption].
    now apply lookup_app_Some.
  - rewrite (lookup_app_None _ _ _ E) in H.
    destruct (H2 _ _ H) as (v & Hv & Hc). exists v. split; [|assumption].
    rewrite lookup_app_None; [assumption|]. now apply (H3 _ _ H).
Qed.

Lemma eval_entries_encloses (ipa : list (symbol * Interval.interval))
    (pa : list (symbol * option R)) (sol : list (symbol * sp.expr)) :
  encloses ipa pa ->
  forall idone done,
    encloses idone done ->
    (forall s i, lookup s idone = Some i -> lookup s pa = None) ->
    NoDup (map fst sol) ->
    (forall s, In s (map fst sol) ->
               lookup s pa = None /\ lookup s done = None) ->
    encloses (Interval.eval_entries ipa idone sol) (eval_entries pa done sol).
Proof.
  intros Hpa. induction sol as [|[s e] sol IH];
    intros idone done Hd Hk Hnd Hf; [exact Hd|].
  cbn [Interval.eval_entries eval_entries]. cbn [map fst] in Hnd, Hf.
  inversion_clear Hnd as [|? ? Hs Hnd'].
  destruct (Hf s (or_introl eq_refl)) as [Hsp Hsd].
  assert (Hf' : forall s', In s' (map fst sol) ->
            lookup s' pa = None
            /\ lookup s' (done ++ [(s, sp.N (pa ++ done) e)]) = None).
  { intros s' Hs'. destruct (Hf s' (or_intror Hs')) as [H1 H2].
    split; [assumption|]. rewrite lookup_app_None by assumption. cbn.
    destruct (symbol_eq_dec s' s) as [->|]; [tauto|reflexivity]. }
  destruct (Interval.eval (ipa ++ idone) e) as [i|] eqn:E.
  - destruct (eval_sound _ _ (encloses_app _ _ _ _ Hpa Hd Hk) _ _ E)
      as (v & Hv & Hc).
    apply IH; try assumption.
    + intros s' i' H'. destruct (lookup s' idone) as [i''|] eqn:E'.
      * rewrite (lookup_app_Some _ _ _ _ E') in H'. injection H' as <-.
        destruct (Hd _ _ E') as (v' & Hv' & Hc'). exists v'.
        split; [now apply lookup_app_Some | assumption].
      * rewrite (lookup_app_None _ _ _ E') in H'. cbn in H'.
        destruct (symbol_eq_dec s' s) as [->|]; [|discriminate].
        injection H' as <-. exists v. split; [|assumption].
        rewrite lookup_app_None by assumption. cbn.
        destruct (symbol_eq_dec s s); [now rewrite Hv | tauto].
    + intros s' i' H'. destruct (lookup s' idone) as [i''|] eqn:E'.
      * now apply (Hk _ _ E').
      * rewrite (lookup_app_None _ _ _ E') in H'. cbn in H'.
        destruct (symbol_eq_dec s' s) as [->|]; [assumption|discriminate].
  - apply IH; try assumption.
    intros s' i' H'. destruct (Hd _ _ H') as (v' & Hv' & Hc'). exists v'.
    split; [now apply lookup_app_Some | assumption].
Qed.

Lemma parameters_enclosed (ps : list symbol) (qs : list Q) :
  encloses (combine ps (map Interval.of_Q qs))
    (bind_values (combine ps (map Q2R qs))).
Proof.
  revert qs. induction ps as [|p ps IH]; intros [|q qs] s i; cbn;
    try discriminate.
  destruct (symbol_eq_dec s p) as [->|].
  - intros [= <-]. exists (Q2R q). split; [reflexivity | apply of_Q_sound].
  - apply IH.
Qed.

(** The enclosures computed for rational parameter values contain the
    reals that the run records. *)

Theorem enclosures_sound (qs : list Q) (s : symbol) (i : Interval.interval) :
  lookup s (enclosures_with qs) = Some i ->
  exists v,
    real_value (final_sol_eval_with (associate (map Q2R qs))) s = Some v
    /\ Interval.contains i v.
Proof.
  intros H. unfold real_value. rewrite final_sol_eval_with_eq.
  assert (He : encloses (enclosures_with qs)
                 (eval_entries (bind_values (associate (map Q2R qs))) []
                    final_sol)).
  { apply eval_entries_encloses.
    - apply parameters_enclosed.
    - intros s' i'. discriminate.
    - intros s' i'. discriminate.
    - exact final_sol_NoDup.
    - intros s' Hs'. split; [|reflexivity].
      destruct (lookup s' (bind_values (associate (map Q2R qs))))
        as [v|] eqn:E; [|reflexivity].
      exfalso. apply lookup_In in E.
      apply (in_map fst) in E. cbn [fst] in E.
      unfold bind_values, associate in E. rewrite map_map in E. cbn [fst] in E.
      assert (Hin : In s' params).
      { clear - E. revert E. generalize (map Q2R qs). generalize params.
        induction l as [|p ps IH]; intros [|r rs]; cbn; try tauto.
        intros [->|H]; [now left | right; now apply (IH rs)]. }
      revert Hs'. cbn in Hin. cbn. intuition (subst; discriminate). }
  destruct (He _ _ H) as (v & Hv & Hc). exists v. rewrite Hv. now split.
Qed.

Lemma Q2R_inject_Z (z : Z) : Q2R (inject_Z z) = IZR z.
Proof. unfold Q2R, inject_Z; cbn [Qnum Qden]. rewrite Rinv_1. ring. Qed.

Lemma within_sound (i : Interval.interval) (q tol : Q) (v : R) :
  within i q tol = true -> Interval.contains i v ->
  Rabs (v - Q2R q) <= Q2R tol.
Proof.
  unfold within, Interval.contains, Interval.value. intros H [Hl Hh].
  apply andb_true_iff in H. destruct H as [H1 H2].
  apply Qle_bool_iff in H1, H2. apply Qle_Rle in H1, H2.
  rewrite Q2R_mult in H1, H2. rewrite Q2R_minus in H1. rewrite Q2R_plus in H2.
  rewrite !Q2R_inject_Z in H1, H2.
  pose proof scale_pos as Hs.
  assert (A : Q2R q - Q2R tol <= IZR (Interval.lo i) / IZR Interval.scale).
  { apply Rmult_le_reg_r with (IZR Interval.scale); [assumption|].
    unfold Rdiv. rewrite Rmult_assoc, Rinv_l by lra. lra. }
  assert (B : IZR (Interval.hi i) / IZR Interval.scale <= Q2R q + Q2R tol).
  { apply Rmult_le_reg_r with (IZR Interval.scale); [assumption|].
    unfold Rdiv. rewrite Rmult_assoc, Rinv_l by lra. lra. }
  apply Rabs_le. lra.
Qed.

(** ** C2: the reference evaluation *)

Lemma fixture_enclosures_eq : enclosures_with vals = fixture_enclosures.
Proof. vm_compute. reflexivity. Qed.

Lemma all_within_sound (qs : list Q) (ref : list (symbol * Q)) (tol : Q) :
  all_within (enclosures_with qs) ref tol = true ->
  Forall
    (fun sq =>
       exists v,
         real_value (final_sol_eval_with (associate (map Q2R qs))) (fst sq)
         = Some v
         /\ Rabs (v - Q2R (snd sq)) <= Q2R tol)
    ref.
Proof.
  unfold all_within. rewrite forallb_forall, Forall_forall.
  intros H sq Hin. specialize (H sq Hin).
  destruct (lookup (fst sq) (enclosures_with qs)) as [i|] eqn:E;
    [|discriminate].
  destruct (enclosures_sound _ _ _ E) as (v & Hv & Hc).
  exists v. split; [assumption|]. now apply within_sound with (i := i).
Qed.

(** C2.  For the parameter values of cell 3 (RAB=0.555, RBC=1, RCD=0.15,
    b=0.4, h=0.75, PLD=0.254, t=10, PD=6.36619772368, P=2) the run records
    a real for each of AX, BY, ABY, BCY, RBXY, CDX, CX, DX, TANG, EX, FY, GY
    and FGX, and it differs from the listed value by at most half a unit of
    the ninth decimal: the listed values are the recorded ones, rounded to 9
    decimals. *)

Theorem reference_fixture_values :
  Forall
    (fun sq =>
       exists v,
         real_value final_sol_eval (fst sq) = Some v
         /\ Rabs (v - Q2R (snd sq)) <= 5 / 10 ^ 10)
    reference_fixture.
Proof.
  assert (Et : Q2R (5 # 10000000000) = 5 / 10 ^ 10)
    by (unfold Q2R; cbn [Qnum Qden]; lra).
  rewrite <- Et. apply (all_within_sound vals).
  rewrite fixture_enclosures_eq. vm_compute. reflexivity.
Qed.

(** The fifteen digits that cell 13 records agree with the reals of the
    model, for all 27 entries. *)

Lemma recorded_output_agrees :
  Forall
    (fun sq =>
       exists v,
         real_value final_sol_eval (fst sq) = Some v
         /\ Rabs (v - Q2R (snd sq)) <= 1 / 10 ^ 14)
    recorded_final_sol_eval.
Proof.
  assert (Et : Q2R (1 # 100000000000000) = 1 / 10 ^ 14)
    by (unfold Q2R; cbn [Qnum Qden]; lra).
  rewrite <- Et. apply (all_within_sound vals).
  rewrite fixture_enclosures_eq. vm_compute. reflexivity.
Qed.

(** ** Reflection *)

Lemma sum_sqr_nonneg (x y : R) : 0 <= x ^ 2 + y ^ 2.
Proof. nra. Qed.

Lemma norm_pos (x y : R) : 0 < x ^ 2 + y ^ 2 -> 0 < sqrt (x ^ 2 + y ^ 2).
Proof. apply sqrt_lt_R0. Qed.

Lemma norm_sqr (x y : R) : sqrt (x ^ 2 + y ^ 2) ^ 2 = x ^ 2 + y ^ 2.
Proof. apply pow2_sqrt, sum_sqr_nonneg. Qed.

Lemma abscissa_over_norm (x y : R) :
  0 < x ^ 2 + y ^ 2 -> -1 <= x / sqrt (x ^ 2 + y ^ 2) <= 1.
Proof.
  intros H. pose proof (norm_pos _ _ H) as Hr. pose proof (norm_sqr x y) as Hs.
  set (r := sqrt (x ^ 2 + y ^ 2)) in *.
  assert (Hx : - r <= x <= r) by (split; nra).
  split.
  - apply Rmult_le_reg_r with r; [assumption|].
    unfold Rdiv. rewrite Rmult_assoc, Rinv_l by lra. lra.
  - apply Rmult_le_reg_r with r; [assumption|].
    unfold Rdiv. rewrite Rmult_assoc, Rinv_l by lra. lra.
Qed.

(** What [reflect] computes, and when. *)

Lemma reflect_spec (x y theta : R) :
  0 < x ^ 2 + y ^ 2 ->
  reflect x y theta
  = Some (- sqrt (x ^ 2 + y ^ 2)
            * sin (2 * theta + asin (x / sqrt (x ^ 2 + y ^ 2))),
          sqrt (x ^ 2 + y ^ 2)
            * cos (2 * theta + asin (x / sqrt (x ^ 2 + y ^ 2)))).
Proof.
  intros H. pose proof (norm_pos _ _ H) as Hr.
  pose proof (abscissa_over_norm _ _ H) as [Ha1 Ha2].
  unfold reflect, reflect_point. cbn [sp.N].
  destruct (Rle_dec 0 (x ^ 2 + y ^ 2)) as [_|Hn]; [|lra].
  destruct (Req_dec_T (sqrt (x ^ 2 + y ^ 2)) 0) as [E|_]; [lra|].
  destruct (Rle_dec (-1) (x / sqrt (x ^ 2 + y ^ 2))) as [_|Hn]; [|lra].
  destruct (Rle_dec (x / sqrt (x ^ 2 + y ^ 2)) 1) as [_|Hn]; [|lra].
  reflexivity.
Qed.

Lemma reflect_Some_inv (x y theta x' y' : R) :
  reflect x y theta = Some (x', y') ->
  x' = - sqrt (x ^ 2 + y ^ 2)
         * sin (2 * theta + asin (x / sqrt (x ^ 2 + y ^ 2))) /\
  y' = sqrt (x ^ 2 + y ^ 2)
         * cos (2 * theta + asin (x / sqrt (x ^ 2 + y ^ 2))).
Proof.
  unfold reflect, reflect_point. cbn [sp.N].
  destruct (Rle_dec 0 (x ^ 2 + y ^ 2)); [|discriminate].
  destruct (Req_dec_T (sqrt (x ^ 2 + y ^ 2)) 0); [discriminate|].
  destruct (Rle_dec (-1) (x / sqrt (x ^ 2 + y ^ 2))); [|discriminate].
  destruct (Rle_dec (x / sqrt (x ^ 2 + y ^ 2)) 1); [|discriminate].
  intros [= <- <-]. now split.
Qed.

(** The two coordinates of a reflected point, whatever the angle [phi]. *)

Lemma polar_norm (r phi : R) : (- r * sin phi) ^ 2 + (r * cos phi) ^ 2 = r ^ 2.
Proof.
  pose proof (sin2_cos2 phi) as H. unfold Rsqr in H.
  replace ((- r * sin phi) ^ 2 + (r * cos phi) ^ 2)
    with (r ^ 2 * (sin phi * sin phi + cos phi * cos phi)) by ring.
  rewrite H. ring.
Qed.

Lemma reflect_norm (x y theta x' y' : R) :
  reflect x y theta = Some (x', y') -> x' ^ 2 + y' ^ 2 = x ^ 2 + y ^ 2.
Proof.
  intros H. apply reflect_Some_inv in H. destruct H as [-> ->].
  rewrite polar_norm. apply norm_sqr.
Qed.

(** In the upper half plane the arcsine is the polar angle, and the
    reflection is the linear map of matrix
    [[-cos 2θ, -sin 2θ], [-sin 2θ, cos 2θ]]. *)

Lemma polar_angle (x y : R) :
  0 < x ^ 2 + y ^ 2 -> 0 <= y ->
  sqrt (x ^ 2 + y ^ 2) * sin (asin (x / sqrt (x ^ 2 + y ^ 2))) = x /\
  sqrt (x ^ 2 + y ^ 2) * cos (asin (x / sqrt (x ^ 2 + y ^ 2))) = y.
Proof.
  intros H Hy. pose proof (norm_pos _ _ H) as Hr.
  pose proof (abscissa_over_norm _ _ H) as Ha.
  pose proof (norm_sqr x y) as Hs.
  rewrite sin_asin, cos_asin by assumption.
  set (r := sqrt (x ^ 2 + y ^ 2)) in *. split.
  - field. lra.
  - assert (E : 1 - (x / r)² = (y / r)²).
    { unfold Rsqr. field_simplify; [|lra|lra].
      replace (r ^ 2) with (x ^ 2 + y ^ 2) by lra. field. lra. }
    rewrite E, sqrt_Rsqr.
    + field. lra.
    + apply Rmult_le_pos; [assumption|]. left. now apply Rinv_0_lt_compat.
Qed.

Lemma reflect_upper_coordinates (x y theta : R) :
  0 < x ^ 2 + y ^ 2 -> 0 <= y ->
  - sqrt (x ^ 2 + y ^ 2) * sin (2 * theta + asin (x / sqrt (x ^ 2 + y ^ 2)))
  = - x * cos (2 * theta) - y * sin (2 * theta) /\
  sqrt (x ^ 2 + y ^ 2) * cos (2 * theta + asin (x / sqrt (x ^ 2 + y ^ 2)))
  = - x * sin (2 * theta) + y * cos (2 * theta).
Proof.
  intros H Hy. destruct (polar_angle _ _ H Hy) as [Ex Ey].
  set (r := sqrt (x ^ 2 + y ^ 2)) in *. set (a := asin (x / r)) in *.
  rewrite sin_plus, cos_plus.
  replace (- r * (sin (2 * theta) * cos a + cos (2 * theta) * sin a))
    with (- (r * sin a) * cos (2 * theta) - (r * cos a) * sin (2 * theta))
    by ring.
  replace (r * (cos (2 * theta) * cos a - sin (2 * theta) * sin a))
    with (- (r * sin a) * sin (2 * theta) + (r * cos a) * cos (2 * theta))
    by ring.
  now rewrite Ex, Ey.
Qed.

Lemma reflect_upper (x y theta : R) :
  0 < x ^ 2 + y ^ 2 -> 0 <= y ->
  reflect x y theta
  = Some (- x * cos (2 * theta) - y * sin (2 * theta),
          - x * sin (2 * theta) + y * cos (2 * theta)).
Proof.
  intros H Hy. rewrite reflect_spec by assumption.
  destruct (reflect_upper_coordinates x y theta H Hy) as [-> ->].
  reflexivity.
Qed.

(** C6, as stated, fails below the x axis: the arcsine of the abscissa
    does not tell [(0, -1)] from [(0, 1)], and reflecting [(0, -1)] twice
    about the y axis gives [(0, 1)], at distance 2. *)

Lemma reflect_twice_lower_half_plane :
  0 < 0 ^ 2 + (-1) ^ 2 /\
  exists x' y',
    reflect 0 (-1) 0 = Some (x', y') /\ reflect x' y' 0 = Some (0, 1)
    /\ (0, 1) <> (0, -1).
Proof.
  assert (E1 : sqrt (0 ^ 2 + (-1) ^ 2) = 1).
  { replace (0 ^ 2 + (-1) ^ 2) with 1 by ring. apply sqrt_1. }
  assert (E2 : sqrt (0 ^ 2 + 1 ^ 2) = 1).
  { replace (0 ^ 2 + 1 ^ 2) with 1 by ring. apply sqrt_1. }
  assert (R1 : reflect 0 (-1) 0 = Some (0, 1)).
  { rewrite reflect_spec by lra. rewrite E1.
    replace (2 * 0 + asin (0 / 1)) with 0
      by (unfold Rdiv; rewrite Rmult_0_l, Rmult_0_r, Rplus_0_l, asin_0;
          reflexivity).
    rewrite sin_0, cos_0. f_equal. f_equal; ring. }
  assert (R2 : reflect 0 1 0 = Some (0, 1)).
  { rewrite reflect_spec by lra. rewrite E2.
    replace (2 * 0 + asin (0 / 1)) with 0
      by (unfold Rdiv; rewrite Rmult_0_l, Rmult_0_r, Rplus_0_l, asin_0;
          reflexivity).
    rewrite sin_0, cos_0. f_equal. f_equal; ring. }
  split; [lra|]. exists 0, 1. split; [exact R1|]. split; [exact R2|].
  intros [= H]. lra.
Qed.

(** C6, as the notebook uses the reflection.  For a point [(x, y)] other
    than the origin with [y >= 0] and an angle [θ] such that the reflected
    point also has a non-negative ordinate, reflecting twice about [θ]
    gives back [(x, y)] exactly. *)

Theorem reflect_involution (x y theta : R) :
  0 < x ^ 2 + y ^ 2 -> 0 <= y ->
  0 <= cos (2 * theta + asin (x / sqrt (x ^ 2 + y ^ 2))) ->
  exists x' y',
    reflect x y theta = Some (x', y') /\ 0 <= y' /\
    reflect x' y' theta = Some (x, y).
Proof.
  intros H Hy Hc.
  pose proof (reflect_spec x y theta H) as E1.
  destruct (reflect_upper_coordinates x y theta H Hy) as [Ex Ey].
  set (x' := - sqrt (x ^ 2 + y ^ 2)
               * sin (2 * theta + asin (x / sqrt (x ^ 2 + y ^ 2)))) in *.
  set (y' := sqrt (x ^ 2 + y ^ 2)
               * cos (2 * theta + asin (x / sqrt (x ^ 2 + y ^ 2)))) in *.
  assert (Hy' : 0 <= y').
  { apply Rmult_le_pos; [apply sqrt_pos | assumption]. }
  assert (Hn : 0 < x' ^ 2 + y' ^ 2).
  { unfold x', y'. rewrite polar_norm, norm_sqr. assumption. }
  exists x', y'. split; [exact E1|]. split; [exact Hy'|].
  rewrite (reflect_upper x' y' theta Hn Hy'). rewrite Ex, Ey.
  pose proof (sin2_cos2 (2 * theta)) as Hsc. unfold Rsqr in Hsc.
  set (s := sin (2 * theta)) in *. set (c := cos (2 * theta)) in *.
  f_equal. f_equal.
  - replace (- (- x * c - y * s) * c - (- x * s + y * c) * s)
      with (x * (s * s + c * c)) by ring.
    rewrite Hsc. ring.
  - replace (- (- x * c - y * s) * s + (- x * s + y * c) * c)
      with (y * (s * s + c * c)) by ring.
    rewrite Hsc. ring.
Qed.

Lemma reflect_involution_witness :
  exists x' y',
    reflect 0 1 0 = Some (x', y') /\ 0 <= y' /\ reflect x' y' 0 = Some (0, 1).
Proof.
  apply (reflect_involution 0 1 0); [lra | lra |].
  replace (0 ^ 2 + 1 ^ 2) with 1 by ring. rewrite sqrt_1.
  replace (2 * 0 + asin (0 / 1)) with 0
    by (unfold Rdiv; rewrite Rmult_0_l, Rmult_0_r, Rplus_0_l, asin_0;
        reflexivity).
  rewrite cos_0. lra.
Defined.

(** ** C5: the bisector angle *)

(** C5.  The entry of [TANG], as cell 12 writes it, refines the
    specification's [TANG = −P/PD]: for every [B] other than the origin
    (where [|BX|/√(BX²+BY²) <= 1]) it denotes [−P/PD], and it evaluates to
    it as soon as [PD <> 0]; the two arcsines cancel and the value does not
    depend on [B]. *)

Theorem TANG_refinement (bx by' p' pd : R) :
  let env := bind_values [(BX, bx); (BY, by'); (P, p'); (PD, pd)] in
  0 < bx ^ 2 + by' ^ 2 ->
  Rabs bx / sqrt (bx ^ 2 + by' ^ 2) <= 1 ->
  sp.denote (valuation env) TANG_sol = spec_TANG p' pd /\
  (pd <> 0 -> sp.N env TANG_sol = Some (spec_TANG p' pd)).
Proof.
  intros env Hn _. subst env.
  assert (Hd : sp.denote
                 (valuation
                    (bind_values [(BX, bx); (BY, by'); (P, p'); (PD, pd)]))
                 TANG_sol = spec_TANG p' pd).
  { cbn [sp.denote TANG_sol TANG_numerator].
    change (valuation _ BX) with bx. change (valuation _ BY) with by'.
    change (valuation _ P) with p'. change (valuation _ PD) with pd.
    unfold spec_TANG, Rdiv.
    rewrite (Rmult_assoc 2 p' (/ pd)), <- Ropp_mult_distr_l. lra. }
  split; [exact Hd|]. intros Hpd.
  rewrite <- Hd. apply N_defined.
  - repeat constructor; eexists; reflexivity.
  - pose proof (norm_pos _ _ Hn) as Hr.
    pose proof (abscissa_over_norm _ _ Hn) as Ha.
    cbn [sp.defined sp.denote TANG_sol TANG_numerator].
    change (valuation _ BX) with bx. change (valuation _ BY) with by'.
    change (valuation _ P) with p'. change (valuation _ PD) with pd.
    repeat split; trivial; lra.
Qed.

Lemma TANG_refinement_witness :
  let env := bind_values [(BX, 3); (BY, 4); (P, 2); (PD, 6)] in
  sp.denote (valuation env) TANG_sol = spec_TANG 2 6 /\
  (6 <> 0 -> sp.N env TANG_sol = Some (spec_TANG 2 6)).
Proof.
  apply (TANG_refinement 3 4 2 6); [lra|].
  replace (3 ^ 2 + 4 ^ 2) with (5 ^ 2) by ring.
  rewrite sqrt_pow2 by lra. rewrite Rabs_pos_eq by lra. lra.
Defined.

(** In a run the recorded [TANG], when real, is [−P/PD]. *)

Lemma run_TANG (rab rbc rcd b' h' pld t' pd p' v : R) :
  real_value
    (final_sol_eval_with (parameter_values rab rbc rcd b' h' pld t' pd p'))
    TANG = Some v ->
  v = spec_TANG p' pd.
Proof.
  intros H. apply run_sound in H; [|cbn; tauto]. destruct H as [<- _].
  change (entry TANG) with TANG_sol.
  cbn [sp.denote TANG_sol TANG_numerator].
  rewrite !(run_param _ _ _ _ _ _ _ _ _ P), !(run_param _ _ _ _ _ _ _ _ _ PD)
    by (cbn; tauto).
  param_values. unfold spec_TANG, Rdiv.
  rewrite (Rmult_assoc 2 p' (/ pd)), <- Ropp_mult_distr_l. lra.
Qed.

(** The variant that derives the pitch diameter records [-pi/t]: with
    [PD = P·t/π] and [P <> 0], [−P/PD = −π/t]. *)

Lemma TANG_derived (rho : symbol -> R) :
  rho P <> 0 -> rho t <> 0 ->
  sp.denote rho TANG_sol_derived = - PI / rho t /\
  sp.denote rho TANG_sol_derived = spec_TANG (rho P) (sp.denote rho PD_sub).
Proof.
  intros Hp Ht. pose proof PI_neq0 as Hpi.
  cbn [sp.denote TANG_sol_derived TANG_numerator subs PD_sub].
  cbn. unfold spec_TANG. split; field; repeat split; assumption.
Qed.

(** ** C8: the points derived from [CD] *)

Lemma norm_scale (k a c : R) :
  0 <= k -> sqrt ((k * a) ^ 2 + (k * c) ^ 2) = k * sqrt (a ^ 2 + c ^ 2).
Proof.
  intros Hk.
  replace ((k * a) ^ 2 + (k * c) ^ 2) with (k ^ 2 * (a ^ 2 + c ^ 2)) by ring.
  rewrite sqrt_mult by nra. now rewrite sqrt_pow2.
Qed.

Lemma norm_sym (a c a' c' : R) :
  sqrt ((a - a') ^ 2 + (c - c') ^ 2) = sqrt ((a' - a) ^ 2 + (c' - c) ^ 2).
Proof. f_equal. ring. Qed.

(** Evaluation of an entry under an explicit environment of reals. *)

Ltac eval_entry_at :=
  match goal with
  | |- sp.N ?env (entry ?s) = Some ?v =>
      replace v with (sp.denote (valuation env) (entry s))
        by (denote_entry; reflexivity);
      apply N_defined;
      [ repeat constructor; eexists; reflexivity
      | denote_entry; repeat split; trivial ]
  end.

(** C8.  Given the centres [BC] and [CD] at distance [RBC + RCD] (positive
    radii) and [CD] other than the origin, the entries of [CX], [CY], [CDR],
    [DX], [DY] evaluate, and: [C] lies on the segment from [BC] to [CD],
    at distance [RBC] from [BC] and [RCD] from [CD]; [CDR = |CD|]; [D] lies
    on the ray from the origin through [CD], beyond [CD] by [RCD], so that
    [|D| = CDR + RCD]. *)

Theorem derived_points (bcx bcy cdx cdy rbc rcd : R) :
  let env :=
    bind_values
      [(BCX, bcx); (BCY, bcy); (CDX, cdx); (CDY, cdy); (RBC, rbc); (RCD, rcd)]
  in
  0 < rbc -> 0 < rcd ->
  sqrt ((cdx - bcx) ^ 2 + (cdy - bcy) ^ 2) = rbc + rcd ->
  0 < sqrt (cdx ^ 2 + cdy ^ 2) ->
  exists cx cy cdr dx dy,
    sp.N env (entry CX) = Some cx /\ sp.N env (entry CY) = Some cy /\
    sp.N env (entry CDR) = Some cdr /\
    sp.N ((CDR, Some cdr) :: env) (entry DX) = Some dx /\
    sp.N ((CDR, Some cdr) :: env) (entry DY) = Some dy /\
    cdr = sqrt (cdx ^ 2 + cdy ^ 2) /\
    (exists tau, 0 <= tau <= 1 /\
       cx = bcx + tau * (cdx - bcx) /\ cy = bcy + tau * (cdy - bcy)) /\
    sqrt ((cx - bcx) ^ 2 + (cy - bcy) ^ 2) = rbc /\
    sqrt ((cx - cdx) ^ 2 + (cy - cdy) ^ 2) = rcd /\
    (exists k, 1 <= k /\ dx = k * cdx /\ dy = k * cdy) /\
    sqrt (dx ^ 2 + dy ^ 2) = cdr + rcd /\
    sqrt ((dx - cdx) ^ 2 + (dy - cdy) ^ 2) = rcd.
Proof.
  intros env Hrbc Hrcd Hq Hcdr. subst env.
  set (q := rcd + rbc). assert (Hq0 : 0 < q) by (unfold q; lra).
  set (cdr := sqrt (cdx ^ 2 + cdy ^ 2)) in *.
  exists (cdx - rcd / q * (cdx - bcx)), (cdy - rcd / q * (cdy - bcy)), cdr,
         (cdx * (cdr + rcd) / cdr), (cdy * (cdr + rcd) / cdr).
  assert (Hi : 0 < / q) by now apply Rinv_0_lt_compat.
  assert (Hic : 0 < / cdr) by now apply Rinv_0_lt_compat.
  split; [|split; [|split; [|split; [|split]]]].
  - eval_entry_at. unfold q in Hq0. lra.
  - eval_entry_at. unfold q in Hq0. lra.
  - eval_entry_at. apply sum_sqr_nonneg.
  - eval_entry_at. unfold cdr in Hcdr. lra.
  - eval_entry_at. unfold cdr in Hcdr. lra.
  - split; [reflexivity|].
    split.
    { exists (rbc / q). split; [|split].
      - split.
        + apply Rmult_le_pos; lra.
        + apply Rmult_le_reg_r with q; [assumption|].
          unfold Rdiv. rewrite Rmult_assoc, Rinv_l by lra. unfold q. lra.
      - unfold q. field. lra.
      - unfold q. field. lra. }
    split.
    { replace (cdx - rcd / q * (cdx - bcx) - bcx)
        with (rbc / q * (cdx - bcx)) by (unfold q; field; lra).
      replace (cdy - rcd / q * (cdy - bcy) - bcy)
        with (rbc / q * (cdy - bcy)) by (unfold q; field; lra).
      rewrite norm_scale by (apply Rmult_le_pos; lra).
      rewrite Hq. unfold q. field. lra. }
    split.
    { rewrite norm_sym.
      replace (cdx - (cdx - rcd / q * (cdx - bcx)))
        with (rcd / q * (cdx - bcx)) by ring.
      replace (cdy - (cdy - rcd / q * (cdy - bcy)))
        with (rcd / q * (cdy - bcy)) by ring.
      rewrite norm_scale by (apply Rmult_le_pos; lra).
      rewrite Hq. unfold q. field. lra. }
    split.
    { exists ((cdr + rcd) / cdr). split; [|split].
      - apply Rmult_le_reg_r with cdr; [assumption|].
        unfold Rdiv. rewrite Rmult_assoc, Rinv_l by lra. lra.
      - field. lra.
      - field. lra. }
    split.
    { replace (cdx * (cdr + rcd) / cdr) with ((cdr + rcd) / cdr * cdx)
        by (field; lra).
      replace (cdy * (cdr + rcd) / cdr) with ((cdr + rcd) / cdr * cdy)
        by (field; lra).
      rewrite norm_scale by (apply Rmult_le_pos; lra).
      fold cdr. field. lra. }
    { replace (cdx * (cdr + rcd) / cdr - cdx) with (rcd / cdr * cdx)
        by (field; lra).
      replace (cdy * (cdr + rcd) / cdr - cdy) with (rcd / cdr * cdy)
        by (field; lra).
      rewrite norm_scale by (apply Rmult_le_pos; lra).
      fold cdr. field. lra. }
Qed.

Lemma derived_points_witness :
  let env :=
    bind_values
      [(BCX, 0); (BCY, 0); (CDX, 3); (CDY, 4); (RBC, 3); (RCD, 2)] in
  exists cx cy cdr dx dy,
    sp.N env (entry CX) = Some cx /\ sp.N env (entry CY) = Some cy /\
    sp.N env (entry CDR) = Some cdr /\
    sp.N ((CDR, Some cdr) :: env) (entry DX) = Some dx /\
    sp.N ((CDR, Some cdr) :: env) (entry DY) = Some dy /\
    cdr = sqrt (3 ^ 2 + 4 ^ 2) /\
    (exists tau, 0 <= tau <= 1 /\
       cx = 0 + tau * (3 - 0) /\ cy = 0 + tau * (4 - 0)) /\
    sqrt ((cx - 0) ^ 2 + (cy - 0) ^ 2) = 3 /\
    sqrt ((cx - 3) ^ 2 + (cy - 4) ^ 2) = 2 /\
    (exists k, 1 <= k /\ dx = k * 3 /\ dy = k * 4) /\
    sqrt (dx ^ 2 + dy ^ 2) = cdr + 2 /\
    sqrt ((dx - 3) ^ 2 + (dy - 4) ^ 2) = 2.
Proof.
  assert (E : sqrt (3 ^ 2 + 4 ^ 2) = 5).
  { replace (3 ^ 2 + 4 ^ 2) with (5 ^ 2) by ring. apply sqrt_pow2. lra. }
  apply (derived_points 0 0 3 4 3 2); try lra.
  replace ((3 - 0) ^ 2 + (4 - 0) ^ 2) with (5 ^ 2) by ring.
  rewrite sqrt_pow2; lra.
Defined.

(** ** C3: the tangency distances *)


Lemma sqrt_pow2_abs (x : R) : sqrt (x ^ 2) = Rabs x.
Proof.
  replace (x ^ 2) with (x²) by (unfold Rsqr; ring). apply sqrt_Rsqr_abs.
Qed.

(** The discriminant is [(RAB − RBC)² − L²·sin²(2b/PD)]. *)


(** The centres [AB = (0, L)] and [BC = (−R·sin 2x, R·cos 2x)], with
    [R = L·cos 2x + √Δ], are at distance [|RAB − RBC|]. *)


(** The intersection of the two circles of stage 2, from the recorded
    closed forms: [v] is the root of the radicand, [k8] is eight times the
    scalar product of [BC] and [CD]. *)

Lemma circles_intersection (bcx bcy pd pld rbc rcd v : R) :
  let k8 :=
    4 * bcx ^ 2 + 4 * bcy ^ 2 + pd ^ 2 - 4 * pd * pld - 4 * pd * rcd
    + 4 * pld ^ 2 + 8 * pld * rcd - 4 * rbc ^ 2 - 8 * rbc * rcd in
  let n8 := 8 * (bcx ^ 2 + bcy ^ 2) in
  let cdy := - bcx * v / n8 + bcy * k8 / n8 in
  let cdx :=
    (4 * bcx ^ 2 + 4 * bcy ^ 2 - 8 * bcy * cdy + pd ^ 2 - 4 * pd * pld
     - 4 * pd * rcd + 4 * pld ^ 2 + 8 * pld * rcd - 4 * rbc ^ 2
     - 8 * rbc * rcd) / (8 * bcx) in
  bcx <> 0 ->
  v ^ 2
  = - (4 * bcx ^ 2 + 4 * bcy ^ 2 - pd ^ 2 + 4 * pd * pld - 4 * pd * rbc
       - 4 * pld ^ 2 + 8 * pld * rbc - 4 * rbc ^ 2)
    * (4 * bcx ^ 2 + 4 * bcy ^ 2 - pd ^ 2 + 4 * pd * pld + 4 * pd * rbc
       + 8 * pd * rcd - 4 * pld ^ 2 - 8 * pld * rbc - 16 * pld * rcd
       - 4 * rbc ^ 2 - 16 * rbc * rcd - 16 * rcd ^ 2) ->
  cdx ^ 2 + cdy ^ 2 = (pd / 2 - pld - rcd) ^ 2 /\
  (cdx - bcx) ^ 2 + (cdy - bcy) ^ 2 = (rbc + rcd) ^ 2.
Proof.
  intros k8 n8 cdy cdx Hb Hv.
  assert (Hn : bcx ^ 2 + bcy ^ 2 <> 0) by nra.
  assert (Ex : cdx = (bcx * k8 + bcy * v) / n8).
  { unfold cdx, cdy, n8, k8. field. split; assumption. }
  assert (Ey : cdy = (bcy * k8 - bcx * v) / n8).
  { unfold cdy, n8, k8. field. assumption. }
  assert (Hk : k8 ^ 2 + v ^ 2 = 8 * n8 * (pd / 2 - pld - rcd) ^ 2).
  { rewrite Hv. unfold k8, n8. field. }
  assert (E2 : cdx ^ 2 + cdy ^ 2 = (pd / 2 - pld - rcd) ^ 2).
  { rewrite Ex, Ey.
    replace (((bcx * k8 + bcy * v) / n8) ^ 2
             + ((bcy * k8 - bcx * v) / n8) ^ 2)
      with ((k8 ^ 2 + v ^ 2) / (8 * n8)) by (unfold n8; field; assumption).
    rewrite Hk. unfold n8. field. assumption. }
  split; [exact E2|].
  assert (Es : bcx * cdx + bcy * cdy = k8 / 8).
  { rewrite Ex, Ey. unfold n8. field. assumption. }
  replace ((cdx - bcx) ^ 2 + (cdy - bcy) ^ 2)
    with (cdx ^ 2 + cdy ^ 2 - 2 * (bcx * cdx + bcy * cdy)
          + (bcx ^ 2 + bcy ^ 2)) by ring.
  rewrite E2, Es. unfold k8. field.
Qed.

Lemma defined_CDY_radicand (rho : symbol -> R) :
  sp.defined rho (entry CDY) ->
  0 <= stage_2_radicand (rho BCX) (rho BCY) (rho PD) (rho PLD) (rho RBC)
         (rho RCD).
Proof. denote_entry. unfold stage_2_radicand. tauto. Qed.

(** The values of the parameters under the environment of a run. *)

Lemma run_parameters (rab rbc rcd b' h' pld t' pd p' : R) :
  let rho :=
    valuation
      (bind_values (parameter_values rab rbc rcd b' h' pld t' pd p')
       ++ final_sol_eval_with
            (parameter_values rab rbc rcd b' h' pld t' pd p')) in
  rho RAB = rab /\ rho RBC = rbc /\ rho RCD = rcd /\ rho b = b' /\
  rho h = h' /\ rho PLD = pld /\ rho t = t' /\ rho PD = pd /\ rho P = p'.
Proof.
  intros rho. unfold rho.
  repeat split; rewrite run_param by (cbn; tauto); reflexivity.
Qed.

(** The closed forms of the first two stages, over the reals: under an
    assignment [rho] of reals to the symbols in which [BCX] and [BCY] have
    the values of their own closed forms, the values of the closed forms of
    [B], [AB], [BC] and [CD] satisfy the four tangency equations exactly,
    wherever the closed forms are defined. *)


(** C3, as the closed forms give it over the reals.  Take positive radii,
    [PD <> 0], [RAB <> RBC], [Δ >= 0] and a successful second stage (the
    closed forms of [CDX] and [CDY] are defined), and give [BCX] and [BCY]
    the values of their closed forms.  Then the exact real values of the
    closed forms satisfy [|B − AB| = RAB], [|B − BC| = RBC],
    [|CD − BC| = RBC + RCD] and [|CD| = |PD/2 − PLD − RCD|], each within
    1e-9.  The statement is about the exact values of the expressions that
    [final_sol] records, not about a floating-point evaluation of them. *)


(** ** C10: reflections preserve the distance from the origin *)

(** An entry built by [reflect_point] evaluates to the reflection of the
    values of its arguments. *)

Lemma N_reflect_point (env : list (symbol * option R)) (X Y T : sp.expr)
    (x' y' : R) :
  sp.N env (fst (reflect_point X Y T)) = Some x' ->
  sp.N env (snd (reflect_point X Y T)) = Some y' ->
  exists x y theta,
    sp.N env X = Some x /\ sp.N env Y = Some y /\ sp.N env T = Some theta /\
    reflect x y theta = Some (x', y').
Proof.
  unfold reflect, reflect_point. cbn [fst snd sp.N].
  destruct (sp.N env X) as [x|]; [|discriminate].
  destruct (sp.N env Y) as [y|]; [|discriminate].
  destruct (sp.N env T) as [theta|].
  - intros H1 H2. exists x, y, theta. repeat (split; [reflexivity|]).
    revert H1 H2.
    destruct (Rle_dec 0 (x ^ 2 + y ^ 2)); [|discriminate].
    destruct (Req_dec_T (sqrt (x ^ 2 + y ^ 2)) 0); [discriminate|].
    destruct (Rle_dec (-1) (x / sqrt (x ^ 2 + y ^ 2))); [|discriminate].
    destruct (Rle_dec (x / sqrt (x ^ 2 + y ^ 2)) 1); [|discriminate].
    now intros [= <-] [= <-].
  - destruct (Rle_dec 0 (x ^ 2 + y ^ 2)); discriminate.
Qed.

(** The part of a run before entry [i], and the rest. *)

Lemma final_sol_eval_split (pa : list (symbol * R)) (i : nat) :
  exists tail,
    final_sol_eval_with pa
    = eval_entries (bind_values pa) [] (firstn i final_sol) ++ tail /\
    map fst (eval_entries (bind_values pa) [] (firstn i final_sol))
    = map fst (firstn i final_sol).
Proof.
  assert (E0 : final_sol_eval_with pa
               = eval_entries (bind_values pa)
                   (eval_entries (bind_values pa) [] (firstn i final_sol))
                   (skipn i final_sol)).
  { rewrite <- eval_entries_app, firstn_skipn.
    apply final_sol_eval_with_eq. }
  rewrite E0.
  destruct (eval_entries_extends (bind_values pa) (skipn i final_sol)
              (eval_entries (bind_values pa) [] (firstn i final_sol)))
    as (tail & E & _).
  destruct (eval_entries_extends (bind_values pa) (firstn i final_sol) [])
    as (tail' & E' & F').
  exists tail. split; [exact E|]. rewrite E'. exact F'.
Qed.

(** An entry that mentions only parameters and earlier entries, and that
    evaluates to a real under the values of the whole run, is recorded with
    that real. *)

Lemma final_sol_eval_complete (pa : list (symbol * R)) (i : nat)
    (s : symbol) (r : R) :
  nth_error final_sol i = Some (s, entry s) ->
  ~ In s (map fst (firstn i final_sol)) ->
  mentions_only (map fst pa ++ map fst (firstn i final_sol)) (entry s) = true ->
  sp.N (bind_values pa ++ final_sol_eval_with pa) (entry s) = Some r ->
  real_value (final_sol_eval_with pa) s = Some r.
Proof.
  intros Hn Hs Hm H. unfold real_value.
  rewrite (final_sol_eval_lookup pa i s _ Hn Hs).
  destruct (final_sol_eval_split pa i) as (tail & E & F).
  rewrite E, app_assoc in H. rewrite N_app_bound in H; [exact H|].
  apply mentions_only_spec in Hm. apply Forall_forall. intros s' Hin.
  apply Hm in Hin. rewrite lookup_None_iff. intros Hno. apply Hno.
  rewrite map_app, F. unfold bind_values. rewrite map_map. cbn [fst].
  exact Hin.
Qed.

(** In a run, a solved symbol evaluates to the value recorded for it. *)

Lemma run_symbol (pa : list (symbol * R)) (s : symbol) :
  map fst pa = params -> In s (map fst final_sol) ->
  sp.N (bind_values pa ++ final_sol_eval_with pa) (sp.Symbol s)
  = real_value (final_sol_eval_with pa) s.
Proof.
  intros Hpa Hs. cbn [sp.N].
  rewrite lookup_app_None by (apply params_not_solved; assumption).
  unfold real_value. exact eq_refl.
Qed.

Lemma N_norm (env : list (symbol * option R)) (X Y : sp.expr) (x y : R) :
  sp.N env X = Some x -> sp.N env Y = Some y ->
  sp.N env (sp.sqrt (X ^ 2 + Y ^ 2))%E = Some (sqrt (x ^ 2 + y ^ 2)).
Proof.
  intros HX HY. cbn [sp.N]. rewrite HX, HY.
  destruct (Rle_dec 0 (x ^ 2 + y ^ 2)) as [_|Hn]; [reflexivity|].
  exfalso. apply Hn, sum_sqr_nonneg.
Qed.

(** In a run, a reflected point that is recorded with reals is the
    reflection about the recorded [TANG] of its source, which is recorded
    with reals too. *)

Lemma run_reflected (rab rbc rcd b' h' pld t' pd p' : R)
    (X Y SX SY : symbol) (x y : R) :
  let out :=
    final_sol_eval_with (parameter_values rab rbc rcd b' h' pld t' pd p') in
  In ((X, Y), (SX, SY)) reflections ->
  real_value out X = Some x -> real_value out Y = Some y ->
  exists sx sy theta,
    real_value out SX = Some sx /\ real_value out SY = Some sy /\
    real_value out TANG = Some theta /\ reflect sx sy theta = Some (x, y).
Proof.
  intros out Hin Hx Hy. subst out.
  assert (Hs : forall s,
             In s (map fst final_sol) ->
             sp.N (bind_values
                     (parameter_values rab rbc rcd b' h' pld t' pd p')
                   ++ final_sol_eval_with
                        (parameter_values rab rbc rcd b' h' pld t' pd p'))
               (sp.Symbol s)
             = real_value
                 (final_sol_eval_with
                    (parameter_values rab rbc rcd b' h' pld t' pd p')) s).
  { intros s. apply run_symbol. exact eq_refl. }
  destruct Hin as [E|[E|[E|[E|[E|[]]]]]]; injection E as <- <- <- <-;
    (apply final_sol_eval_sound in Hx, Hy; [ | cbn; tauto | cbn; tauto ];
     match goal with
     | |- exists _ _ _, real_value _ ?S1 = _ /\ real_value _ ?S2 = _ /\ _ =>
         destruct (N_reflect_point _ (sp.Symbol S1) (sp.Symbol S2)
                     (sp.Symbol TANG) _ _ Hx Hy)
           as (sx & sy & theta & H1 & H2 & H3 & H4)
     end;
     rewrite Hs in H1, H2, H3 by (cbn; tauto);
     exists sx, sy, theta;
     exact (conj H1 (conj H2 (conj H3 H4)))).
Qed.

(** C10, as the closed forms give it.  The reflection transform preserves
    the distance from the origin: for [(x, y)] with [x² + y² > 0] and any
    [θ], [reflect_point] gives [(x', y')] with [x'² + y'² = x² + y²].  In a
    run each of E, F, EF, G, FG that is recorded with reals has the norm of
    its source D, C, CD, B, BC; [|EF|] is the recorded [CDR], and [|FG|] is
    the absolute value of the recorded [RBXY]. *)

Theorem reflected_norms (rab rbc rcd b' h' pld t' pd p' : R) :
  let out :=
    final_sol_eval_with (parameter_values rab rbc rcd b' h' pld t' pd p') in
  (forall x y theta,
     0 < x ^ 2 + y ^ 2 ->
     exists x' y',
       reflect x y theta = Some (x', y') /\
       x' ^ 2 + y' ^ 2 = x ^ 2 + y ^ 2) /\
  (forall X Y SX SY x y,
     In ((X, Y), (SX, SY)) reflections ->
     real_value out X = Some x -> real_value out Y = Some y ->
     point_norm out SX SY = Some (sqrt (x ^ 2 + y ^ 2))) /\
  (forall x y,
     real_value out EFX = Some x -> real_value out EFY = Some y ->
     real_value out CDR = Some (sqrt (x ^ 2 + y ^ 2))) /\
  (forall x y,
     real_value out FGX = Some x -> real_value out FGY = Some y ->
     exists r,
       real_value out RBXY = Some r /\ sqrt (x ^ 2 + y ^ 2) = Rabs r).
Proof.
  intros out. subst out. split; [|split; [|split]].
  - intros x y theta H. eexists. eexists. split.
    + apply reflect_spec, H.
    + rewrite polar_norm. apply norm_sqr.
  - intros X Y SX SY x y Hin Hx Hy.
    destruct (run_reflected _ _ _ _ _ _ _ _ _ _ _ _ _ _ _ Hin Hx Hy)
      as (sx & sy & theta & H1 & H2 & _ & H4).
    unfold point_norm. rewrite H1, H2.
    now rewrite (reflect_norm _ _ _ _ _ H4).
  - intros x y Hx Hy.
    destruct (run_reflected _ _ _ _ _ _ _ _ _ EFX EFY CDX CDY _ _
                ltac:(cbn; tauto) Hx Hy)
      as (sx & sy & theta & H1 & H2 & _ & H4).
    rewrite (reflect_norm _ _ _ _ _ H4).
    apply (final_sol_eval_complete _ 13%nat CDR);
      [ reflexivity | cbn; intuition discriminate | reflexivity | ].
    apply (N_norm _ (sp.Symbol CDX) (sp.Symbol CDY));
      (rewrite run_symbol; [ | reflexivity | cbn; tauto]); [exact H1 | exact H2].
  - intros x y Hx Hy.
    destruct (run_reflected _ _ _ _ _ _ _ _ _ FGX FGY BCX BCY _ _
                ltac:(cbn; tauto) Hx Hy)
      as (bcx & bcy & theta & H1 & H2 & _ & H4).
    rewrite (reflect_norm _ _ _ _ _ H4).
    apply (param_entry_value _ 6%nat BCX) in H1;
      [ | reflexivity | cbn; intuition discriminate | reflexivity ].
    apply (param_entry_value _ 7%nat BCY) in H2;
      [ | reflexivity | cbn; intuition discriminate | reflexivity ].
    destruct H1 as [D1 E1], H2 as [_ E2].
    apply defined_BCX in D1. rewrite denote_BCX in E1.
    rewrite denote_BCY in E2. revert D1 E1 E2. param_values.
    intros [Hpd Hd] E1 E2.
    exists (spec_L rab h' pld pd - 2 * spec_L rab h' pld pd * spec_S b' pd
            + sqrt (spec_Delta rab rbc (spec_L rab h' pld pd)
                      (spec_S b' pd))).
    split.
    + stage_1_entry 8%nat RBXY. split.
      * apply defined_RBXY. param_values. now split.
      * rewrite denote_RBXY. now param_values.
    + rewrite <- sqrt_pow2_abs. f_equal. rewrite E1, E2.
      pose proof (sin2_cos2 (2 * b' / pd)) as H. unfold Rsqr in H.
      set (r := spec_L rab h' pld pd - 2 * spec_L rab h' pld pd * spec_S b' pd
                + sqrt (spec_Delta rab rbc (spec_L rab h' pld pd)
                          (spec_S b' pd))) in *.
      set (sn := sin (2 * b' / pd)) in *. set (cs := cos (2 * b' / pd)) in *.
      replace (- spec_L rab h' pld pd
               + 2 * spec_L rab h' pld pd * spec_S b' pd
               - sqrt (spec_Delta rab rbc (spec_L rab h' pld pd)
                         (spec_S b' pd))) with (- r) by (unfold r; ring).
      replace ((- r * sn) ^ 2 + (r * cs) ^ 2)
        with (r ^ 2 * (sn * sn + cs * cs)) by ring.
      rewrite H. ring.
Qed.

(** ** Runs on rational parameters *)

Lemma all_enclosed_sound (qs : list Q) (l : list symbol) :
  all_enclosed (enclosures_with qs) l = true ->
  Forall
    (fun s =>
       exists v,
         real_value (final_sol_eval_with (associate (map Q2R qs))) s = Some v)
    l.
Proof.
  unfold all_enclosed. rewrite forallb_forall, Forall_forall.
  intros H s Hin. specialize (H s Hin).
  destruct (lookup s (enclosures_with qs)) as [i|] eqn:E; [|discriminate].
  destruct (enclosures_sound _ _ _ E) as (v & Hv & _). now exists v.
Qed.

Lemma associate_values (q1 q2 q3 q4 q5 q6 q7 q8 q9 : Q) :
  associate (map Q2R [q1; q2; q3; q4; q5; q6; q7; q8; q9])
  = parameter_values (Q2R q1) (Q2R q2) (Q2R q3) (Q2R q4) (Q2R q5) (Q2R q6)
      (Q2R q7) (Q2R q8) (Q2R q9).
Proof. reflexivity. Qed.

(** The reference evaluation records a real for every entry. *)

Lemma fixture_values :
  Forall
    (fun s =>
       exists v,
         real_value (final_sol_eval_with (associate (map Q2R vals))) s
         = Some v)
    (map fst final_sol).
Proof.
  apply all_enclosed_sound. rewrite fixture_enclosures_eq.
  vm_compute. reflexivity.
Qed.


Lemma tall_tooth_enclosures_eq :
  enclosures_with tall_tooth_vals = tall_tooth_enclosures.
Proof. vm_compute. reflexivity. Qed.

(** C3, as stated, fails when [PD/2 − PLD − RCD] is negative.  For
    RAB=2, RBC=1, RCD=0.5, b=3, h=1, PLD=3.5, t=10, PD=6, P=2 (all positive,
    [RAB <> RBC]) the run records reals for both stages, and [|CD|], which
    is not negative, exceeds [PD/2 − PLD − RCD = −1] by at least 1. *)


Lemma fixture_stage_2 :
  let pa :=
    parameter_values (Q2R 0.555) (Q2R 1) (Q2R 0.15) (Q2R 0.4) (Q2R 0.75)
      (Q2R 0.254) (Q2R 10) (Q2R 6.36619772368) (Q2R 2) in
  let rho := valuation (bind_values pa ++ final_sol_eval_with pa) in
  rho BCX = closed_form rho BCX /\ rho BCY = closed_form rho BCY /\
  rho CDX = closed_form rho CDX /\ rho CDY = closed_form rho CDY /\
  sp.defined rho (entry BX) /\
  sp.defined rho (entry CDX) /\ sp.defined rho (entry CDY).
Proof.
  intros pa rho. subst rho pa.
  pose proof fixture_values as H. rewrite Forall_forall in H.
  destruct (H BX ltac:(cbn; tauto)) as [bx Hbx].
  destruct (H BCX ltac:(cbn; tauto)) as [bcx Hbcx].
  destruct (H BCY ltac:(cbn; tauto)) as [bcy Hbcy].
  destruct (H CDX ltac:(cbn; tauto)) as [cdx Hcdx].
  destruct (H CDY ltac:(cbn; tauto)) as [cdy Hcdy].
  clear H. unfold vals in *. rewrite associate_values in *.
  pose proof (run_value _ _ _ _ _ _ _ _ _ BCX bcx ltac:(cbn; tauto) Hbcx)
    as VBCX.
  pose proof (run_value _ _ _ _ _ _ _ _ _ BCY bcy ltac:(cbn; tauto) Hbcy)
    as VBCY.
  pose proof (run_value _ _ _ _ _ _ _ _ _ CDX cdx ltac:(cbn; tauto) Hcdx)
    as VCDX.
  pose proof (run_value _ _ _ _ _ _ _ _ _ CDY cdy ltac:(cbn; tauto) Hcdy)
    as VCDY.
  apply run_sound in Hbx; [|cbn; tauto].
  apply run_sound in Hbcx; [|cbn; tauto].
  apply run_sound in Hbcy; [|cbn; tauto].
  apply run_sound in Hcdx; [|cbn; tauto].
  apply run_sound in Hcdy; [|cbn; tauto].
  destruct Hbx as [_ Dbx], Hbcx as [Ebcx _], Hbcy as [Ebcy _],
    Hcdx as [Ecdx Dcdx], Hcdy as [Ecdy Dcdy].
  unfold closed_form. rewrite VBCX, VBCY, VCDX, VCDY, Ebcx, Ebcy, Ecdx, Ecdy.
  split; [exact eq_refl|]. split; [exact eq_refl|].
  split; [exact eq_refl|]. split; [exact eq_refl|].
  split; [exact Dbx|]. split; [exact Dcdx | exact Dcdy].
Qed.


(** C10, as stated, fails when the recorded [RBXY] is negative.  For
    RAB=1, RBC=2, RCD=0.25, b=3, h=4.55, PLD=0.5, t=10, PD=6, P=2 (all
    positive, [RAB <> RBC]) the run records a real for every entry, the
    recorded [RBXY] is about [−0.099], and [|FG|], which is not negative,
    exceeds it by more than 0.09. *)

Lemma tall_tooth_negative_RBXY :
  let out := final_sol_eval_with (associate (map Q2R tall_tooth_vals)) in
  Forall (fun s => exists v, real_value out s = Some v) (map fst final_sol)
  /\
  exists x y r,
    real_value out FGX = Some x /\ real_value out FGY = Some y /\
    real_value out RBXY = Some r /\
    9 / 100 <= sqrt (x ^ 2 + y ^ 2) - r.
Proof.
  intros out. subst out.
  assert (H : Forall
                (fun s =>
                   exists v,
                     real_value
                       (final_sol_eval_with
                          (associate (map Q2R tall_tooth_vals))) s
                     = Some v)
                (map fst final_sol)).
  { apply all_enclosed_sound. rewrite tall_tooth_enclosures_eq.
    vm_compute. reflexivity. }
  split; [exact H|].
  rewrite Forall_forall in H.
  destruct (H FGX ltac:(cbn; tauto)) as [x Hx].
  destruct (H FGY ltac:(cbn; tauto)) as [y Hy].
  assert (Hr : Forall
                 (fun sq =>
                    exists v,
                      real_value
                        (final_sol_eval_with
                           (associate (map Q2R tall_tooth_vals))) (fst sq)
                      = Some v
                      /\ Rabs (v - Q2R (snd sq)) <= Q2R (1 # 1000))
                 [(RBXY, (-99 # 1000)%Q)]).
  { apply all_within_sound. rewrite tall_tooth_enclosures_eq.
    vm_compute. reflexivity. }
  apply Forall_inv in Hr. cbn [fst snd] in Hr. destruct Hr as (r & Hr & Hb).
  exists x, y, r. split; [exact Hx|]. split; [exact Hy|]. split; [exact Hr|].
  pose proof (sqrt_pos (x ^ 2 + y ^ 2)) as Hs.
  assert (E1 : Q2R (-99 # 1000) = -99 / 1000)
    by (unfold Q2R; cbn [Qnum Qden]; lra).
  assert (E2 : Q2R (1 # 1000) = 1 / 1000)
    by (unfold Q2R; cbn [Qnum Qden]; lra).
  rewrite E1, E2 in Hb. unfold Rabs in Hb.
  destruct (Rcase_abs (r - -99 / 1000)); lra.
Qed.

Lemma reflected_norms_witness :
  let out := final_sol_eval_with (associate (map Q2R vals)) in
  (exists x' y',
     reflect 0 1 0 = Some (x', y') /\ x' ^ 2 + y' ^ 2 = 0 ^ 2 + 1 ^ 2) /\
  (exists x y,
     real_value out EX = Some x /\ real_value out EY = Some y /\
     point_norm out DX DY = Some (sqrt (x ^ 2 + y ^ 2))) /\
  (exists x y,
     real_value out EFX = Some x /\ real_value out EFY = Some y /\
     real_value out CDR = Some (sqrt (x ^ 2 + y ^ 2))) /\
  (exists x y r,
     real_value out FGX = Some x /\ real_value out FGY = Some y /\
     real_value out RBXY = Some r /\ sqrt (x ^ 2 + y ^ 2) = Rabs r).
Proof.
  intros out. subst out.
  pose proof fixture_values as H. rewrite Forall_forall in H.
  destruct (H EX ltac:(cbn; tauto)) as [ex Hex].
  destruct (H EY ltac:(cbn; tauto)) as [ey Hey].
  destruct (H EFX ltac:(cbn; tauto)) as [efx Hefx].
  destruct (H EFY ltac:(cbn; tauto)) as [efy Hefy].
  destruct (H FGX ltac:(cbn; tauto)) as [fgx Hfgx].
  destruct (H FGY ltac:(cbn; tauto)) as [fgy Hfgy].
  clear H. unfold vals in *. rewrite associate_values in *.
  destruct (reflected_norms (Q2R 0.555) (Q2R 1) (Q2R 0.15) (Q2R 0.4)
              (Q2R 0.75) (Q2R 0.254) (Q2R 10) (Q2R 6.36619772368) (Q2R 2))
    as (N1 & N2 & N3 & N4).
  split; [|split; [|split]].
  - apply (N1 0 1 0). lra.
  - exists ex, ey. split; [exact Hex|]. split; [exact Hey|].
    apply (N2 EX EY DX DY ex ey); [cbn; tauto | exact Hex | exact Hey].
  - exists efx, efy. split; [exact Hefx|]. split; [exact Hefy|].
    apply (N3 efx efy); [exact Hefx | exact Hefy].
  - destruct (N4 fgx fgy Hfgx Hfgy) as (r & Hr & E).
    exists fgx, fgy, r. split; [exact Hfgx|]. split; [exact Hfgy|].
    split; [exact Hr | exact E].
Defined.

(** * Further properties of the notebook *)

(** ** [reflect_point] *)

(** [reflect_point] gives no value at the origin, where it divides by the
    norm, and a value everywhere else. *)

Theorem reflect_origin (x y theta : R) :
  reflect x y theta = None <-> x = 0 /\ y = 0.
Proof.
  split.
  - intros H. destruct (Rle_lt_dec (x ^ 2 + y ^ 2) 0) as [Hle|Hlt].
    + split; nra.
    + rewrite reflect_spec in H by assumption. discriminate.
  - intros [-> ->]. unfold reflect, reflect_point. cbn [sp.N].
    destruct (Rle_dec 0 (0 ^ 2 + 0 ^ 2)) as [_|Hn]; [|exfalso; lra].
    destruct (Req_dec_T (sqrt (0 ^ 2 + 0 ^ 2)) 0) as [_|Hn]; [reflexivity|].
    exfalso. apply Hn. replace (0 ^ 2 + 0 ^ 2) with 0 by ring. apply sqrt_0.
Qed.

Lemma reflect_origin_witness : reflect 0 0 1 = None.
Proof. apply (reflect_origin 0 0 1). split; reflexivity. Defined.

Lemma reflect_opp (x y theta : R) : reflect x (- y) theta = reflect x y theta.
Proof.
  unfold reflect, reflect_point. cbn [sp.N].
  replace (x ^ 2 + (- y) ^ 2) with (x ^ 2 + y ^ 2) by ring. reflexivity.
Qed.

(** [reflect_point] uses the ordinate only through its square: it sends
    [(x, y)] and [(x, −y)] to the same point, the mirror image of
    [(x, |y|)] across the line through the origin at angle [θ] from the y
    axis. *)

Theorem reflect_folds (x y theta : R) :
  0 < x ^ 2 + y ^ 2 ->
  reflect x (- y) theta = reflect x y theta /\
  reflect x y theta
  = Some (- x * cos (2 * theta) - Rabs y * sin (2 * theta),
          - x * sin (2 * theta) + Rabs y * cos (2 * theta)).
Proof.
  intros H. split; [apply reflect_opp|].
  unfold Rabs. destruct (Rcase_abs y) as [Hy|Hy].
  - rewrite <- reflect_opp. apply reflect_upper; [|lra].
    replace (x ^ 2 + (- y) ^ 2) with (x ^ 2 + y ^ 2) by ring. exact H.
  - apply reflect_upper; [exact H | lra].
Qed.

Lemma reflect_folds_witness :
  reflect 3 (- -4) 1 = reflect 3 (-4) 1 /\
  reflect 3 (-4) 1
  = Some (- 3 * cos (2 * 1) - Rabs (-4) * sin (2 * 1),
          - 3 * sin (2 * 1) + Rabs (-4) * cos (2 * 1)).
Proof. apply (reflect_folds 3 (-4) 1). lra. Defined.

(** ** The evaluation loop *)

(** The loop returns one entry for each entry of the solution list, under
    the same symbols and in the same order, whatever the parameters and
    whether or not the values are reals. *)

Theorem final_sol_eval_symbols (pa : list (symbol * R)) :
  map fst (final_sol_eval_with pa) = map fst final_sol /\
  length (final_sol_eval_with pa) = 27%nat.
Proof.
  rewrite final_sol_eval_with_eq.
  destruct (eval_entries_extends (bind_values pa) final_sol [])
    as (tail & E & F).
  rewrite E. cbn [app]. split; [exact F|].
  rewrite <- (length_map fst), F, length_map. reflexivity.
Qed.

Lemma final_sol_in_order :
  forallb entry_in_order (seq 0 (length final_sol)) = true.
Proof. vm_compute. reflexivity. Qed.

Lemma nth_error_fresh {T} (l : list (symbol * T)) (i : nat) (s : symbol)
    (v : T) :
  NoDup (map fst l) -> nth_error l i = Some (s, v) ->
  ~ In s (map fst (firstn i l)).
Proof.
  intros Hnd Hn Hin. rewrite (nth_error_decompose _ _ _ Hn) in Hnd.
  rewrite map_app in Hnd. cbn [map fst] in Hnd.
  apply NoDup_remove_2 in Hnd. apply Hnd, in_or_app. now left.
Qed.

(** An entry is recorded with the value it has under the parameters and
    the whole list of recorded values: substituting the entries in order,
    each into the ones below it, solves all of them at once.  This holds
    because no entry of [final_sol] mentions an entry below it. *)

Theorem final_sol_eval_fixed_point (pa : list (symbol * R)) (s : symbol) :
  map fst pa = params -> In s (map fst final_sol) ->
  real_value (final_sol_eval_with pa) s
  = sp.N (bind_values pa ++ final_sol_eval_with pa) (entry s).
Proof.
  intros Hpa Hin. apply entry_In in Hin.
  destruct (In_nth_error _ _ Hin) as [i Hn].
  assert (Hi : (i < length final_sol)%nat).
  { apply nth_error_Some. rewrite Hn. discriminate. }
  pose proof (nth_error_fresh _ _ _ _ final_sol_NoDup Hn) as Hs.
  assert (Hm : mentions_only (map fst pa ++ map fst (firstn i final_sol))
                 (entry s) = true).
  { pose proof final_sol_in_order as H. rewrite forallb_forall in H.
    specialize (H i). unfold entry_in_order in H. rewrite Hn, <- Hpa in H.
    apply H, in_seq. split; [apply Nat.le_0_l | exact Hi]. }
  unfold real_value. rewrite (final_sol_eval_lookup pa i s _ Hn Hs).
  destruct (final_sol_eval_split pa i) as (tail & E & F).
  rewrite E, app_assoc. symmetry. apply N_app_bound.
  apply mentions_only_spec in Hm. apply Forall_forall. intros s' Hin'.
  apply Hm in Hin'. rewrite lookup_None_iff. intros Hno. apply Hno.
  rewrite map_app, F. unfold bind_values. rewrite map_map. cbn [fst].
  exact Hin'.
Qed.

Lemma final_sol_eval_fixed_point_witness :
  real_value (final_sol_eval_with (parameter_values 1 2 3 4 5 6 7 8 9)) DX
  = sp.N (bind_values (parameter_values 1 2 3 4 5 6 7 8 9)
          ++ final_sol_eval_with (parameter_values 1 2 3 4 5 6 7 8 9))
      (entry DX).
Proof.
  apply (final_sol_eval_fixed_point (parameter_values 1 2 3 4 5 6 7 8 9) DX).
  - exact eq_refl.
  - cbn. tauto.
Defined.

(** ** The two notebooks *)

Lemma N_ext (env env' : list (symbol * option R)) (e : sp.expr) :
  (forall s, lookup s env = lookup s env') -> sp.N env e = sp.N env' e.
Proof.
  intros H. induction e; cbn [sp.N];
    rewrite ?H, ?IHe, ?IHe1, ?IHe2; reflexivity.
Qed.

(** Evaluating after a substitution is evaluating with the symbol bound to
    the value of what is substituted for it. *)

Lemma N_subs (env : list (symbol * option R)) (s : symbol)
    (e' e : sp.expr) :
  sp.N env (subs s e' e) = sp.N ((s, sp.N env e') :: env) e.
Proof.
  induction e; cbn [sp.N subs lookup];
    rewrite ?IHe, ?IHe1, ?IHe2; try reflexivity.
  destruct (symbol_eq_dec s0 s); reflexivity.
Qed.

Lemma eval_entries_subs (env env' : list (symbol * option R)) (s : symbol)
    (e' : sp.expr) (sol : list (symbol * sp.expr)) :
  (forall done e,
     sp.N (env ++ done) (subs s e' e) = sp.N (env' ++ done) e) ->
  forall done,
    eval_entries env done (map (fun kv => (fst kv, subs s e' (snd kv))) sol)
    = eval_entries env' done sol.
Proof.
  intros H. induction sol as [|[k v] sol IH]; intros done; cbn; [reflexivity|].
  rewrite H. apply IH.
Qed.

Lemma pulley_eqns_final_sol :
  pulley_eqns.final_sol
  = map (fun kv => (fst kv, subs PD PD_sub (snd kv))) final_sol.
Proof.
  unfold pulley_eqns.final_sol, final_sol, pulley_eqns.res_1_sol,
    pulley_eqns.res_2_sol.
  rewrite !map_app. reflexivity.
Qed.

(** The notebook that derives the pitch diameter computes what the other
    one computes for [PD = P·t/π], when [P <> 0]: the two runs record the
    same values, entry by entry.  (For [P = 0] the derived notebook still
    records the bisector angle [−π/t], in which sympy has cancelled [P],
    while [−P/PD] has no value at [PD = 0].) *)

Theorem derived_pitch_diameter (rab rbc rcd b' h' pld t' p' : R) :
  p' <> 0 ->
  pulley_eqns.final_sol_eval_with
    (pulley_eqns.associate [rab; rbc; rcd; b'; h'; pld; t'; p'])
  = final_sol_eval_with
      (parameter_values rab rbc rcd b' h' pld t' (p' * t' / PI) p').
Proof.
  intros _.
  unfold pulley_eqns.final_sol_eval_with. rewrite pulley_eqns_final_sol.
  rewrite final_sol_eval_with_eq. apply eval_entries_subs.
  intros done e. rewrite N_subs. apply N_ext.
  assert (E : sp.N
                (bind_values
                   (pulley_eqns.associate
                      [rab; rbc; rcd; b'; h'; pld; t'; p']) ++ done) PD_sub
              = Some (p' * t' / PI)).
  { cbn. destruct (Req_dec_T PI 0) as [E|_]; [|reflexivity].
    exfalso. exact (PI_neq0 E). }
  rewrite E. intros s. destruct s; reflexivity.
Qed.

Lemma derived_pitch_diameter_witness :
  pulley_eqns.final_sol_eval_with
    (pulley_eqns.associate [0.555; 1; 0.15; 0.4; 0.75; 0.254; 10; 2])
  = final_sol_eval_with
      (parameter_values 0.555 1 0.15 0.4 0.75 0.254 10 (2 * 10 / PI) 2).
Proof.
  apply (derived_pitch_diameter 0.555 1 0.15 0.4 0.75 0.254 10 2). lra.
Defined.

(** ** The first stage, geometrically *)

(** The values of the first stage in terms of [a = 2b/PD], the root [w]
    of the discriminant, [r = L·cos a + w] and [k = RAB/(RAB − RBC)]. *)


(** The tangency point [B] of the arcs [AB] and [BC] lies on the line of
    their centres, at [RAB/(RAB − RBC)] of the way from [AB] to [BC], and
    the centres are [|RAB − RBC|] apart: the arcs are internally
    tangent. *)



(** *** Equation set 1 *)


Lemma mentions_only_bound (env : list (symbol * option R)) (l : list symbol)
    (e : sp.expr) :
  Forall (bound env) l -> mentions_only l e = true ->
  Forall (bound env) (sp.free_symbols e).
Proof.
  intros Hl Hm. apply mentions_only_spec in Hm.
  rewrite Forall_forall in *. intros s Hs. apply Hl, Hm, Hs.
Qed.

Lemma run_bound (pa : list (symbol * R)) (s : symbol) (v : R) :
  map fst pa = params -> In s (map fst final_sol) ->
  real_value (final_sol_eval_with pa) s = Some v ->
  bound (bind_values pa ++ final_sol_eval_with pa) s.
Proof.
  intros Hpa Hs Hv. exists v.
  rewrite lookup_app_None by (apply params_not_solved; assumption).
  apply real_value_Some, Hv.
Qed.

Lemma run_params_bound (pa : list (symbol * R))
    (out : list (symbol * option R)) :
  map fst pa = params -> Forall (bound (bind_values pa ++ out)) params.
Proof.
  intros Hpa. apply Forall_forall. intros s Hs.
  apply bound_app, bind_values_bound. now rewrite Hpa.
Qed.

(** The hand-picked solution [res_1[1]] solves equation set 1: with
    [L_sub] substituted for [L], each of the ten expressions evaluates to
    zero under the parameters and the values that the run records.  The
    recorded [RBXY] has to be positive, for [√(BCX² + BCY²) − RBXY] to
    vanish, and [RAB] and [sin(2b/PD)] not zero, for the two slopes of the
    last equation to exist. *)



(** *** Equation set 2 *)

(** The hand-picked solution [res_2[0]] solves equation set 2 over the
    reals: under any assignment of reals to the symbols in which [CDX] and
    [CDY] have the values of their closed forms, and at which the closed
    forms are defined, both expressions of [equations_2] denote zero,
    whatever the signs of the parameters.  The statement is about the exact
    values of the expressions, not about a floating-point evaluation of
    them. *)

Theorem equations_2_solved (rho : symbol -> R) :
  rho CDX = closed_form rho CDX -> rho CDY = closed_form rho CDY ->
  sp.defined rho (entry CDX) -> sp.defined rho (entry CDY) ->
  Forall (fun e => sp.defined rho e /\ sp.denote rho e = 0) equations_2.
Proof.
  intros VCDX VCDY Dcdx Dcdy. unfold closed_form in *.
  destruct (defined_CDX_denominators _ Dcdx) as [Hb0 _].
  apply defined_CDY_radicand in Dcdy.
  pose proof (circles_intersection (rho BCX) (rho BCY) (rho PD) (rho PLD)
                (rho RBC) (rho RCD)
                (sqrt (stage_2_radicand (rho BCX) (rho BCY) (rho PD)
                         (rho PLD) (rho RBC) (rho RCD)))) as C.
  cbv zeta in C. specialize (C Hb0 (pow2_sqrt _ Dcdy)).
  clear Dcdx Dcdy. symmetry in VCDX, VCDY.
  revert VCDX VCDY. denote_entry.
  fold (stage_2_radicand (rho BCX) (rho BCY) (rho PD) (rho PLD) (rho RBC)
          (rho RCD)).
  intros VCDX VCDY. rewrite VCDX, VCDY in C. destruct C as [C1 C2].
  unfold equations_2.
  apply Forall_cons; [|apply Forall_cons; [|apply Forall_nil]];
    denote_entry; (split; [repeat split; lra|]).
  - rewrite C2. ring.
  - rewrite C1. ring.
Qed.

Lemma equations_2_solved_witness :
  let pa :=
    parameter_values (Q2R 0.555) (Q2R 1) (Q2R 0.15) (Q2R 0.4) (Q2R 0.75)
      (Q2R 0.254) (Q2R 10) (Q2R 6.36619772368) (Q2R 2) in
  let rho := valuation (bind_values pa ++ final_sol_eval_with pa) in
  Forall (fun e => sp.defined rho e /\ sp.denote rho e = 0) equations_2.
Proof.
  intros pa rho.
  destruct fixture_stage_2 as (_ & _ & VCDX & VCDY & _ & Dcdx & Dcdy).
  exact (equations_2_solved
           (valuation
              (bind_values
                 (parameter_values (Q2R 0.555) (Q2R 1) (Q2R 0.15) (Q2R 0.4)
                    (Q2R 0.75) (Q2R 0.254) (Q2R 10) (Q2R 6.36619772368)
                    (Q2R 2))
               ++ final_sol_eval_with
                    (parameter_values (Q2R 0.555) (Q2R 1) (Q2R 0.15)
                       (Q2R 0.4) (Q2R 0.75) (Q2R 0.254) (Q2R 10)
                       (Q2R 6.36619772368) (Q2R 2))))
           VCDX VCDY Dcdx Dcdy).
Defined.

(** ** The second stage: when it gives reals *)

Lemma stage_2_radicand_circles (bcx bcy pd pld rbc rcd : R) :
  stage_2_radicand bcx bcy pd pld rbc rcd
  = - 16 * ((bcx ^ 2 + bcy ^ 2 - (pd / 2 - pld - rcd + (rbc + rcd)) ^ 2)
            * (bcx ^ 2 + bcy ^ 2 - (pd / 2 - pld - rcd - (rbc + rcd)) ^ 2)).
Proof. unfold stage_2_radicand. field. Qed.

(** Given a real centre [BC], the second stage records reals for [CD]
    exactly when [BCX <> 0] and [|BC|²] lies between [(ρ − q)²] and
    [(ρ + q)²], where [ρ = PD/2 − PLD − RCD] and [q = RBC + RCD]: the
    circle of radius [|ρ|] about the origin and the circle of radius [|q|]
    about [BC] meet, and the closed form can divide by [8·BCX]. *)

Theorem stage_2_real (rab rbc rcd b' h' pld t' pd p' bcx bcy : R) :
  let out :=
    final_sol_eval_with (parameter_values rab rbc rcd b' h' pld t' pd p') in
  let rho := pd / 2 - pld - rcd in
  let q := rbc + rcd in
  real_value out BCX = Some bcx -> real_value out BCY = Some bcy ->
  (exists cdx cdy,
     real_value out CDX = Some cdx /\ real_value out CDY = Some cdy)
  <->
  bcx <> 0 /\
  (bcx ^ 2 + bcy ^ 2 - (rho + q) ^ 2) * (bcx ^ 2 + bcy ^ 2 - (rho - q) ^ 2)
  <= 0.
Proof.
  intros out rho0 q Hbcx Hbcy. subst out rho0 q.
  destruct (run_parameters rab rbc rcd b' h' pld t' pd p')
    as (PRAB & PRBC & PRCD & Pb & Ph & PPLD & Pt & PPD & PP).
  assert (VBCX := run_value rab rbc rcd b' h' pld t' pd p' BCX _
                    ltac:(cbn; tauto) Hbcx).
  assert (VBCY := run_value rab rbc rcd b' h' pld t' pd p' BCY _
                    ltac:(cbn; tauto) Hbcy).
  pose proof (stage_2_radicand_circles bcx bcy pd pld rbc rcd) as Hrad.
  split.
  - intros (cdx & cdy & Hcdx & Hcdy).
    apply run_sound in Hcdx; [|cbn; tauto].
    apply run_sound in Hcdy; [|cbn; tauto].
    destruct Hcdx as [_ Dcdx], Hcdy as [_ Dcdy].
    destruct (defined_CDX_denominators _ Dcdx) as [Hb0 _].
    apply defined_CDY_radicand in Dcdy.
    rewrite VBCX in Hb0. rewrite VBCX, VBCY, PPD, PPLD, PRBC, PRCD in Dcdy.
    split; [exact Hb0|]. lra.
  - intros [Hb0 Hle].
    assert (Hr : 0 <= stage_2_radicand bcx bcy pd pld rbc rcd) by lra.
    assert (Hn : bcx ^ 2 + bcy ^ 2 <> 0) by nra.
    clear Hrad Hle.
    assert (Hb : Forall
                   (bound
                      (bind_values
                         (parameter_values rab rbc rcd b' h' pld t' pd p')
                       ++ final_sol_eval_with
                            (parameter_values rab rbc rcd b' h' pld t' pd
                               p')))
                   (params ++ [BCX; BCY])).
    { apply Forall_app. split; [apply run_params_bound; exact eq_refl|].
      apply Forall_cons;
        [exact (run_bound (parameter_values rab rbc rcd b' h' pld t' pd p')
                  BCX _ eq_refl ltac:(cbn; tauto) Hbcx)|].
      apply Forall_cons;
        [exact (run_bound (parameter_values rab rbc rcd b' h' pld t' pd p')
                  BCY _ eq_refl ltac:(cbn; tauto) Hbcy)|].
      apply Forall_nil. }
    eexists. eexists. split.
    + apply (final_sol_eval_complete _ 9%nat CDX);
        [ reflexivity | cbn; intuition discriminate | reflexivity | ].
      apply N_defined;
        [apply (mentions_only_bound _ _ _ Hb); reflexivity|].
      clear Hb Hbcx Hbcy.
      set (rho := valuation _) in *. clearbody rho. denote_entry.
      rewrite VBCX, VBCY, PPD, PPLD, PRBC, PRCD.
      fold (stage_2_radicand bcx bcy pd pld rbc rcd).
      repeat split; trivial; nra.
    + apply (final_sol_eval_complete _ 10%nat CDY);
        [ reflexivity | cbn; intuition discriminate | reflexivity | ].
      apply N_defined;
        [apply (mentions_only_bound _ _ _ Hb); reflexivity|].
      clear Hb Hbcx Hbcy.
      set (rho := valuation _) in *. clearbody rho. denote_entry.
      rewrite VBCX, VBCY, PPD, PPLD, PRBC, PRCD.
      fold (stage_2_radicand bcx bcy pd pld rbc rcd).
      repeat split; trivial; nra.
Qed.

Lemma stage_2_real_witness :
  let out :=
    final_sol_eval_with
      (parameter_values (Q2R 0.555) (Q2R 1) (Q2R 0.15) (Q2R 0.4) (Q2R 0.75)
         (Q2R 0.254) (Q2R 10) (Q2R 6.36619772368) (Q2R 2)) in
  let rho := Q2R 6.36619772368 / 2 - Q2R 0.254 - Q2R 0.15 in
  let q := Q2R 1 + Q2R 0.15 in
  exists bcx bcy,
    real_value out BCX = Some bcx /\ real_value out BCY = Some bcy /\
    ((exists cdx cdy,
        real_value out CDX = Some cdx /\ real_value out CDY = Some cdy)
     <->
     bcx <> 0 /\
     (bcx ^ 2 + bcy ^ 2 - (rho + q) ^ 2)
     * (bcx ^ 2 + bcy ^ 2 - (rho - q) ^ 2) <= 0).
Proof.
  intros out rho q. subst out rho q.
  pose proof fixture_values as H. rewrite Forall_forall in H.
  destruct (H BCX ltac:(cbn; tauto)) as [bcx Hbcx].
  destruct (H BCY ltac:(cbn; tauto)) as [bcy Hbcy].
  clear H. unfold vals in *. rewrite associate_values in *.
  exists bcx, bcy. split; [exact Hbcx|]. split; [exact Hbcy|].
  exact (stage_2_real (Q2R 0.555) (Q2R 1) (Q2R 0.15) (Q2R 0.4) (Q2R 0.75)
           (Q2R 0.254) (Q2R 10) (Q2R 6.36619772368) (Q2R 2) bcx bcy
           Hbcx Hbcy).
Defined.

(** ** The third stage, geometrically *)

Lemma reflect_Some_pos (x y theta : R) (p : R * R) :
  reflect x y theta = Some p -> 0 < x ^ 2 + y ^ 2.
Proof.
  unfold reflect, reflect_point. cbn [sp.N].
  destruct (Rle_dec 0 (x ^ 2 + y ^ 2)) as [H|]; [|discriminate].
  destruct (Req_dec_T (sqrt (x ^ 2 + y ^ 2)) 0) as [|Hn]; [discriminate|].
  intros _. destruct H as [H|H]; [exact H|].
  exfalso. apply Hn. rewrite <- H. apply sqrt_0.
Qed.

(** In a run, a reflected point whose source [(sx, sy)] has [sy >= 0] is
    the mirror image of the source across the line at angle [−P/PD] from
    the y axis. *)

Lemma run_reflected_upper (rab rbc rcd b' h' pld t' pd p' : R)
    (X Y SX SY : symbol) (x y sx sy : R) :
  let out :=
    final_sol_eval_with (parameter_values rab rbc rcd b' h' pld t' pd p') in
  In ((X, Y), (SX, SY)) reflections ->
  real_value out X = Some x -> real_value out Y = Some y ->
  real_value out SX = Some sx -> real_value out SY = Some sy ->
  0 <= sy ->
  x = - sx * cos (2 * p' / pd) + sy * sin (2 * p' / pd) /\
  y = sx * sin (2 * p' / pd) + sy * cos (2 * p' / pd).
Proof.
  intros out Hin Hx Hy Hsx Hsy Hpos. subst out.
  destruct (run_reflected _ _ _ _ _ _ _ _ _ _ _ _ _ _ _ Hin Hx Hy)
    as (sx' & sy' & theta & H1 & H2 & H3 & H4).
  rewrite Hsx in H1. rewrite Hsy in H2.
  injection H1 as <-. injection H2 as <-.
  apply run_TANG in H3. subst theta.
  pose proof (reflect_Some_pos _ _ _ _ H4) as Hn.
  rewrite (reflect_upper _ _ _ Hn Hpos) in H4.
  injection H4 as <- <-.
  replace (2 * spec_TANG p' pd) with (- (2 * p' / pd))
    by (unfold spec_TANG, Rdiv; ring).
  rewrite cos_neg, sin_neg. split; ring.
Qed.

(** Each of E, F, EF, G, FG is its source D, C, CD, B, BC mirrored across
    the y axis and then turned clockwise about the origin by the pitch
    angle [2P/PD], when the source lies on or above the x axis: the third
    stage draws the left flank of the next tooth. *)

Theorem reflections_turn_mirror_image (rab rbc rcd b' h' pld t' pd p' : R)
    (X Y SX SY : symbol) (x y sx sy : R) :
  let out :=
    final_sol_eval_with (parameter_values rab rbc rcd b' h' pld t' pd p') in
  let alpha := 2 * p' / pd in
  In ((X, Y), (SX, SY)) reflections ->
  real_value out X = Some x -> real_value out Y = Some y ->
  real_value out SX = Some sx -> real_value out SY = Some sy ->
  0 <= sy ->
  x = (- sx) * cos alpha + sy * sin alpha /\
  y = - (- sx) * sin alpha + sy * cos alpha.
Proof.
  intros out alpha Hin Hx Hy Hsx Hsy Hpos. subst out alpha.
  destruct (run_reflected_upper rab rbc rcd b' h' pld t' pd p' X Y SX SY
              x y sx sy Hin Hx Hy Hsx Hsy Hpos) as [-> ->].
  split; ring.
Qed.

(** The tooth profile repeats: [G] is [A] turned clockwise about the
    origin by the pitch angle [2P/PD], when [A] lies on or above the x
    axis. *)

Theorem G_is_A_turned (rab rbc rcd b' h' pld t' pd p' ax ay gx gy : R) :
  let out :=
    final_sol_eval_with (parameter_values rab rbc rcd b' h' pld t' pd p') in
  let alpha := 2 * p' / pd in
  real_value out AX = Some ax -> real_value out AY = Some ay ->
  real_value out GX = Some gx -> real_value out GY = Some gy ->
  0 <= ay ->
  gx = ax * cos alpha + ay * sin alpha /\
  gy = - ax * sin alpha + ay * cos alpha.
Proof.
  intros out alpha Hax Hay Hgx Hgy Hpos. subst out alpha.
  destruct (run_reflected _ _ _ _ _ _ _ _ _ GX GY BX BY _ _
              ltac:(cbn; tauto) Hgx Hgy)
    as (bx & by' & theta & Hbx & Hby & _ & _).
  destruct (stage_1_mirror rab rbc rcd b' h' pld t' pd p') as [Mx My].
  pose proof (Mx _ _ Hax Hbx) as Ex. pose proof (My _ _ Hay Hby) as Ey.
  assert (Hpos' : 0 <= by') by lra.
  destruct (run_reflected_upper rab rbc rcd b' h' pld t' pd p' GX GY BX BY
              gx gy bx by' ltac:(cbn; tauto) Hgx Hgy Hbx Hby Hpos')
    as [-> ->].
  rewrite Ex, Ey. split; ring.
Qed.

Lemma fixture_ordinates :
  Forall
    (fun sq =>
       exists v,
         real_value (final_sol_eval_with (associate (map Q2R vals))) (fst sq)
         = Some v
         /\ Rabs (v - Q2R (snd sq)) <= Q2R 0.1)
    [(AY, 2.4%Q); (BY, 2.4%Q)].
Proof.
  apply (all_within_sound vals). rewrite fixture_enclosures_eq.
  vm_compute. reflexivity.
Qed.

Lemma reflections_turn_mirror_image_witness :
  let out :=
    final_sol_eval_with
      (parameter_values (Q2R 0.555) (Q2R 1) (Q2R 0.15) (Q2R 0.4) (Q2R 0.75)
         (Q2R 0.254) (Q2R 10) (Q2R 6.36619772368) (Q2R 2)) in
  let alpha := 2 * Q2R 2 / Q2R 6.36619772368 in
  exists gx gy bx by',
    real_value out GX = Some gx /\ real_value out GY = Some gy /\
    real_value out BX = Some bx /\ real_value out BY = Some by' /\
    0 <= by' /\
    gx = (- bx) * cos alpha + by' * sin alpha /\
    gy = - (- bx) * sin alpha + by' * cos alpha.
Proof.
  intros out alpha. subst out alpha.
  pose proof fixture_values as H. rewrite Forall_forall in H.
  destruct (H GX ltac:(cbn; tauto)) as [gx Hgx].
  destruct (H GY ltac:(cbn; tauto)) as [gy Hgy].
  destruct (H BX ltac:(cbn; tauto)) as [bx Hbx].
  clear H.
  pose proof fixture_ordinates as H.
  apply Forall_inv_tail, Forall_inv in H. cbn [fst snd] in H.
  destruct H as (by' & Hby & Hb).
  assert (Hpos : 0 <= by').
  { revert Hb. unfold Q2R; cbn [Qnum Qden]. unfold Rabs.
    destruct (Rcase_abs _); lra. }
  clear Hb. unfold vals in *. rewrite associate_values in *.
  exists gx, gy, bx, by'.
  split; [exact Hgx|]. split; [exact Hgy|]. split; [exact Hbx|].
  split; [exact Hby|]. split; [exact Hpos|].
  exact (reflections_turn_mirror_image (Q2R 0.555) (Q2R 1) (Q2R 0.15)
           (Q2R 0.4) (Q2R 0.75) (Q2R 0.254) (Q2R 10) (Q2R 6.36619772368)
           (Q2R 2) GX GY BX BY gx gy bx by'
           ltac:(cbn; tauto) Hgx Hgy Hbx Hby Hpos).
Defined.

Lemma G_is_A_turned_witness :
  let out :=
    final_sol_eval_with
      (parameter_values (Q2R 0.555) (Q2R 1) (Q2R 0.15) (Q2R 0.4) (Q2R 0.75)
         (Q2R 0.254) (Q2R 10) (Q2R 6.36619772368) (Q2R 2)) in
  let alpha := 2 * Q2R 2 / Q2R 6.36619772368 in
  exists ax ay gx gy,
    real_value out AX = Some ax /\ real_value out AY = Some ay /\
    real_value out GX = Some gx /\ real_value out GY = Some gy /\
    0 <= ay /\
    gx = ax * cos alpha + ay * sin alpha /\
    gy = - ax * sin alpha + ay * cos alpha.
Proof.
  intros out alpha. subst out alpha.
  pose proof fixture_values as H. rewrite Forall_forall in H.
  destruct (H GX ltac:(cbn; tauto)) as [gx Hgx].
  destruct (H GY ltac:(cbn; tauto)) as [gy Hgy].
  destruct (H AX ltac:(cbn; tauto)) as [ax Hax].
  clear H.
  pose proof fixture_ordinates as H.
  apply Forall_inv in H. cbn [fst snd] in H.
  destruct H as (ay & Hay & Hb).
  assert (Hpos : 0 <= ay).
  { revert Hb. unfold Q2R; cbn [Qnum Qden]. unfold Rabs.
    destruct (Rcase_abs _); lra. }
  clear Hb. unfold vals in *. rewrite associate_values in *.
  exists ax, ay, gx, gy.
  split; [exact Hax|]. split; [exact Hay|]. split; [exact Hgx|].
  split; [exact Hgy|]. split; [exact Hpos|].
  exact (G_is_A_turned (Q2R 0.555) (Q2R 1) (Q2R 0.15) (Q2R 0.4) (Q2R 0.75)
           (Q2R 0.254) (Q2R 10) (Q2R 6.36619772368) (Q2R 2) ax ay gx gy
           Hax Hay Hgx Hgy Hpos).
Defined.

(** ** The bisector angle of the notebook that derives the pitch diameter *)

(** With [PD_sub] substituted for [PD], the entry of the bisector angle
    evaluates to [−π/t], as [pulley_eqns.ipynb] records it: for every [B]
    other than the origin, [P <> 0] and [t <> 0] the arcsines cancel and
    [−P/(P·t/π)] is [−π/t]; the value depends on neither [B] nor [P]. *)

Theorem TANG_derived_value (bx by' p' t' : R) :
  let env := bind_values [(BX, bx); (BY, by'); (P, p'); (t, t')] in
  0 < bx ^ 2 + by' ^ 2 -> p' <> 0 -> t' <> 0 ->
  sp.N env TANG_sol_derived = Some (- PI / t').
Proof.
  intros env Hn Hp Ht. subst env.
  pose proof PI_neq0 as Hpi.
  pose proof (norm_pos _ _ Hn) as Hr.
  pose proof (abscissa_over_norm _ _ Hn) as Ha.
  assert (Hpd : p' * t' / PI <> 0).
  { unfold Rdiv. apply Rmult_integral_contrapositive_currified.
    - now apply Rmult_integral_contrapositive_currified.
    - now apply Rinv_neq_0_compat. }
  replace (- PI / t')
    with (sp.denote
            (valuation
               (bind_values [(BX, bx); (BY, by'); (P, p'); (t, t')]))
            TANG_sol_derived).
  - apply N_defined.
    + repeat constructor; eexists; reflexivity.
    + cbn [sp.defined sp.denote TANG_sol_derived TANG_numerator subs PD_sub].
      cbn [symbol_eq_dec symbol_rec symbol_rect sp.defined sp.denote].
      change (valuation _ BX) with bx. change (valuation _ BY) with by'.
      change (valuation _ P) with p'. change (valuation _ t) with t'.
      repeat split; trivial; lra.
  - destruct (TANG_derived
                (valuation
                   (bind_values [(BX, bx); (BY, by'); (P, p'); (t, t')])))
      as [E _]; [exact Hp | exact Ht | exact E].
Qed.

Lemma TANG_derived_value_witness :
  sp.N (bind_values [(BX, 3); (BY, 4); (P, 2); (t, 10)]) TANG_sol_derived
  = Some (- PI / 10).
Proof. apply (TANG_derived_value 3 4 2 10); lra. Defined.
